(** * A Mealy-machine recogniser for sorted byte sequences

    Shallow embedding of the Go package [mealy]: packed transitions and
    states (serialize.go), the incremental builder, membership test and
    constrained enumeration (the recogniser source), the constraint
    interface (constraints.go) and the binary codec (serialize.go).

    Conventions.
    - A Go [byte] is a [Byte.byte]; a [[]byte] is a [list byte].
    - A [transition] (Go [uint32]) is a [Z] in the range [0, 2^32); the bit
      operations are those of [Z], the wrap-around of conversions is
      written out with [mod].
    - A Go [int] that is a length or an index is a [nat]; an [int] handed
      to caller code or packed into a transition is a [Z].
    - A run-time panic is the [Panic] constructor of [result]. *)

From Stdlib Require Import ZArith Lia Strings.Byte String.
From stdpp Require Import gmap strings list sorting.

Local Open Scope Z_scope.

(** ** Bytes *)

Definition Z_of_byte (b : byte) : Z := Z.of_N (Byte.to_N b).

(** Conversion of an integer to a [byte], truncating to the low 8 bits. *)
Definition byte_of_Z (z : Z) : byte :=
  match Byte.of_N (Z.to_N (z mod 256)) with
  | Some b => b
  | None => x00
  end.

(** ** Transitions (serialize.go)

    32 bits: 8 bits of trigger, 1 terminal bit, 23 bits of state id. *)

Abbreviation transition := Z (only parsing).

Definition is_uint32 (t : Z) : Prop := 0 <= t < 2 ^ 32.

(** [uint32(x)] for a Go [int] [x]. *)
Definition uint32 (x : Z) : Z := x mod 2 ^ 32.

Definition NewTransition (trigger : byte) (toStateId : Z) (isTerminal : bool)
  : transition :=
  let t := Z.shiftl (Z_of_byte trigger) 24 in
  let t := if isTerminal then Z.lor t 0x800000 else t in
  Z.lor t (Z.land (uint32 toStateId) 0x7fffff).

Definition Trigger (t : transition) : byte := byte_of_Z (Z.shiftr t 24).

Definition ToState (t : transition) : Z := Z.land t 0x7fffff.

Definition IsTerminal (t : transition) : bool :=
  negb (Z.land t 0x800000 =? 0).

(** ** Panics and results *)

Inductive panic : Type :=
| OutOfOrder (prevValue value : list byte)
    (* "Cannot build a Mealy machine from out-of-order values" *)
| UnexpectedStartID (startId last : Z)
    (* "Unexpected start ID, not at the end" *)
| IndexOutOfRange
| NegativeLen.

Inductive result (A : Type) : Type :=
| Ok (a : A)
| Panic (p : panic).
Arguments Ok {A} a.
Arguments Panic {A} p.

#[global] Instance result_ret : MRet result := fun A a => Ok a.
#[global] Instance result_bind : MBind result := fun A B f m =>
  match m with
  | Ok a => f a
  | Panic p => Panic p
  end.

(** [l[i]]: a read out of range panics. *)
Definition index {A} (l : list A) (i : nat) : result A :=
  match l !! i with
  | Some x => Ok x
  | None => Panic IndexOutOfRange
  end.

(** [l[i] = x]: a write out of range panics. *)
Definition set_index {A} (l : list A) (i : nat) (x : A) : result (list A) :=
  if (i <? length l)%nat then Ok (<[i := x]> l) else Panic IndexOutOfRange.

(** [l[:n]], with the capacity of the slice taken to be its length. *)
Definition slice_to {A} (l : list A) (n : nat) : result (list A) :=
  if (n <=? length l)%nat then Ok (take n l) else Panic IndexOutOfRange.

(** ** States (serialize.go) *)

Abbreviation state := (list transition) (only parsing).

Definition IsEmpty (s : state) : bool := (length s =? 0)%nat.

(** [sort.Search(n, f)]: the binary search of the Go library; [fuel]
    bounds the number of halvings, [n] of them are enough. *)
Fixpoint Search_loop (fuel i j : nat) (f : nat -> bool) : nat :=
  match fuel with
  | O => i
  | S fuel' =>
      if (i <? j)%nat then
        let h := ((i + j) / 2)%nat in
        if negb (f h) then Search_loop fuel' (h + 1) j f
        else Search_loop fuel' i h f
      else i
  end.

Definition Search (n : nat) (f : nat -> bool) : nat := Search_loop n 0 n f.

(** [sort.Sort] on packed values: the ascending rearrangement. *)
Fixpoint sort_insert (t : transition) (l : list transition) : list transition :=
  match l with
  | [] => [t]
  | x :: l' => if t <=? x then t :: l else x :: sort_insert t l'
  end.

Definition Sort (l : list transition) : list transition :=
  foldr sort_insert [] l.

(** Index of the transition for a trigger value, [len(s)] if there is
    none. Inside [Search] the probed index is below [len(s)]. *)
Definition IndexForTrigger (s : state) (value : byte) : nat :=
  let i := Search (length s)
             (fun x => Z_of_byte value <=? Z_of_byte (Trigger (nth x s 0))) in
  if ((i <? length s)%nat && Byte.eqb (Trigger (nth i s 0)) value)%bool
  then i else length s.

(** Adds a transition, keeping the state ordered. *)
Definition AddTransition (s : state) (t : transition) : state :=
  let i := Search (length s) (fun x => t <=? nth x s 0) in
  if ((i <? length s)%nat && (nth i s 0 =? t))%bool then s
  else
    let s' := s ++ [t] in
    take i s' ++ Sort (drop i s').

(** Big-endian bytes of a 32-bit value ([binary.BigEndian]). *)
Definition be32 (t : Z) : list byte :=
  [byte_of_Z (Z.shiftr t 24); byte_of_Z (Z.shiftr t 16);
   byte_of_Z (Z.shiftr t 8); byte_of_Z t].

Definition u32_of_be (b0 b1 b2 b3 : byte) : Z :=
  Z.lor (Z.lor (Z.lor (Z_of_byte b3) (Z.shiftl (Z_of_byte b2) 8))
               (Z.shiftl (Z_of_byte b1) 16))
        (Z.shiftl (Z_of_byte b0) 24).

(** The fingerprint of a state. The source hashes the big-endian bytes of
    the transitions with SHA-1 and prints the digest in base 64; the digest
    is idealised as collision-free, so the fingerprint is the hashed byte
    stream itself, as a string. *)
Definition Fingerprint (s : state) : string :=
  string_of_list_byte (concat (map be32 s)).

(** ** The recogniser and its builder *)

Abbreviation Recognizer := (list state) (only parsing).

Record builder : Type := mkBuilder {
  self : Recognizer;
  states : gmap string nat;
  terminals : list bool;
  larvae : list state;
  prevValue : list byte
}.

(** Find or create the state equal to [s]. *)
Definition makeState (b : builder) (s : state) : nat * builder :=
  let fprint := Fingerprint s in
  match states b !! fprint with
  | Some id => (id, b)
  | None =>
      let id := length (self b) in
      (id, mkBuilder (self b ++ [s]) (<[fprint := id]> (states b))
             (terminals b) (larvae b) (prevValue b))
  end.

(** Length of the longest common prefix. *)
Fixpoint commonPrefixLen (a b : list byte) : nat :=
  match a, b with
  | x :: a', y :: b' => if Byte.eqb x y then S (commonPrefixLen a' b') else O
  | _, _ => O
  end.

(** The loop of [makeSuffixStates(p)], at index [i]. *)
Fixpoint makeSuffixStates_loop (p i : nat) (b : builder) : result builder :=
  match i with
  | O => Ok b
  | S i' =>
      if (p <? i)%nat then
        trigger ← index (prevValue b) i';
        larva ← index (larvae b) i;
        let '(id, b1) := makeState b larva in
        terminal ← index (terminals b1) i;
        target ← index (larvae b1) i';
        let t := NewTransition trigger (Z.of_nat id) terminal in
        makeSuffixStates_loop p i'
          (mkBuilder (self b1) (states b1) (terminals b1)
             (<[i' := AddTransition target t]> (larvae b1)) (prevValue b1))
      else Ok b
  end.

Definition makeSuffixStates (p : nat) (b : builder) : result builder :=
  makeSuffixStates_loop p (length (prevValue b)) b.

(** [bytes.Compare]. *)
Fixpoint bytes_Compare (a b : list byte) : comparison :=
  match a, b with
  | [], [] => Eq
  | [], _ :: _ => Lt
  | _ :: _, [] => Gt
  | x :: a', y :: b' =>
      match Z_of_byte x ?= Z_of_byte y with
      | Eq => bytes_Compare a' b'
      | c => c
      end
  end.

(** The input contract of the builder: each value is strictly greater
    than the one before it, the first one than [prev]. From the empty
    sequence on, the values are non-empty, distinct and ascending. *)
Fixpoint ascending (prev : list byte) (values : list (list byte)) : Prop :=
  match values with
  | [] => True
  | value :: rest => bytes_Compare prev value = Lt /\ ascending value rest
  end.

(** One iteration of the loop over the channel. *)
Definition FromChannel_step (b : builder) (value : list byte) : result builder :=
  match bytes_Compare (prevValue b) value with
  | Lt =>
      let prefixLen := commonPrefixLen (prevValue b) value in
      b1 ← makeSuffixStates prefixLen b;
      larvae1 ← slice_to (larvae b1) (prefixLen + 1);
      terminals1 ← slice_to (terminals b1) (prefixLen + 1);
      let n := (length value - prefixLen)%nat in
      let larvae2 := larvae1 ++ replicate n [] in
      let terminals2 := terminals1 ++ replicate n false in
      terminals3 ← set_index terminals2 (length value) true;
      Ok (mkBuilder (self b1) (states b1) terminals3 larvae2 value)
  | _ => Panic (OutOfOrder (prevValue b) value)
  end.

Fixpoint FromChannel_loop (b : builder) (values : list (list byte))
  : result builder :=
  match values with
  | [] => Ok b
  | value :: rest => b' ← FromChannel_step b value; FromChannel_loop b' rest
  end.

Definition FromChannel_init : builder :=
  mkBuilder [] ∅ [false] [[]] [].

(** The closing part of [FromChannel]. *)
Definition FromChannel_finish (b : builder) : result Recognizer :=
  b1 ← makeSuffixStates 0 b;
  root ← index (larvae b1) 0;
  let '(startId, b2) := makeState b1 root in
  if Z.of_nat startId =? Z.of_nat (length (self b2)) - 1 then Ok (self b2)
  else Panic (UnexpectedStartID (Z.of_nat startId)
                (Z.of_nat (length (self b2)) - 1)).

(** [FromChannel]; the channel is the list of the values it delivers
    before it is closed. *)
Definition FromChannel (values : list (list byte)) : result Recognizer :=
  b ← FromChannel_loop FromChannel_init values;
  FromChannel_finish b.

(** [self[len(self)-1]]. *)
Definition Start (self : Recognizer) : result state :=
  match length self with
  | O => Panic IndexOutOfRange
  | S n => index self n
  end.

(** Sum of the lengths of the states. *)
Definition TotalTransitions (self : Recognizer) : nat :=
  foldl (fun num s => (num + length s)%nat) 0%nat self.

(** [unique[transition]++] for every transition of every state, then the
    number of keys of the map. *)
Definition UniqueTransitions (self : Recognizer) : nat :=
  let unique : gmap Z nat :=
    foldl (fun m (s : state) =>
             foldl (fun m t => <[t := (default 0 (m !! t) + 1)%nat]> m) m s)
          ∅ self in
  size unique.

Definition MaxStateTransitions (self : Recognizer) : nat :=
  foldl (fun max (s : state) =>
           let n := length s in if (max <? n)%nat then n else max)
        0%nat self.

(** The trigger values of all transitions, as the keys of a map, then
    sorted with [sort.Ints] and converted to bytes. The order in which
    the keys come out of the map does not matter for the sorted result. *)
Definition AllTriggers (self : Recognizer) : list byte :=
  let triggerMap : gmap Z bool :=
    foldl (fun m (s : state) =>
             foldl (fun m t => <[Z_of_byte (Trigger t) := true]> m) m s)
          ∅ self in
  let triggers := (map_to_list triggerMap).*1 in
  map byte_of_Z (Sort triggers).

(** The loop of [Recognizes]: [tran] is the last transition followed. *)
Fixpoint Recognizes_loop (self : Recognizer) (value : list byte)
    (tran : transition) (st : state) : result transition :=
  match value with
  | [] => Ok tran
  | v :: rest =>
      let found := IndexForTrigger st v in
      if (found <? length st)%nat then
        let tran' := nth found st 0 in
        st' ← index self (Z.to_nat (ToState tran'));
        Recognizes_loop self rest tran' st'
      else Ok tran (* break *)
  end.

Definition Recognizes (self : Recognizer) (value : list byte) : result bool :=
  if (length self =? 0)%nat then Ok false
  else
    st ← Start self;
    tran ← Recognizes_loop self value 0 st;
    Ok (IsTerminal tran).

Definition bytes_of (s : string) : list byte := list_byte_of_string s.

(** ** Constraints (constraints.go) *)

Record Constraints : Type := mkConstraints {
  IsSmallEnough : Z -> bool;
  IsLargeEnough : Z -> bool;
  IsValueAllowed : Z -> byte -> bool;
  IsSequenceAllowed : list byte -> bool
}.

Definition BaseConstraints : Constraints :=
  mkConstraints (fun _ => true) (fun _ => true) (fun _ _ => true)
    (fun _ => true).

(** The length window of the tests ([SizeConstraint]), with the bounds
    as parameters: lengths from [min] to [max], every value allowed. *)
Definition SizeConstraint (min max : Z) : Constraints :=
  mkConstraints (fun size => size <=? max) (fun size => min <=? size)
    (fun _ _ => true) (fun _ => true).

(** ** Constrained enumeration *)

(** A node of the path: a state [s] and a cursor [c] into it. *)
Record pathNode : Type := mkPathNode { pn_s : state; pn_c : nat }.

Definition CurrentTransition (p : pathNode) : result transition :=
  index (pn_s p) (pn_c p).

Definition Exhausted (p : pathNode) : bool := (length (pn_s p) <=? pn_c p)%nat.

Definition Advance (p : pathNode) : pathNode :=
  mkPathNode (pn_s p) (pn_c p + 1).

(** The loop of [AdvanceUntilAllowed] over the transitions from the cursor
    on: the cursor stops at the first allowed trigger, or at the end. *)
Fixpoint AdvanceUntilAllowed_loop (allowed : byte -> bool)
    (rest : list transition) (c : nat) : nat :=
  match rest with
  | [] => c
  | t :: rest' =>
      if allowed (Trigger t) then c
      else AdvanceUntilAllowed_loop allowed rest' (c + 1)
  end.

Definition AdvanceUntilAllowed (allowed : byte -> bool) (p : pathNode)
  : pathNode :=
  mkPathNode (pn_s p)
    (AdvanceUntilAllowed_loop allowed (drop (pn_c p) (pn_s p)) (pn_c p)).

(** The values [out] are sent before those of the rest [r] of a run. *)
Definition prepend (out : list (list byte))
    (r : option (result (list (list byte))))
  : option (result (list (list byte))) :=
  match r with
  | Some (Ok outs) => Some (Ok (out ++ outs))
  | other => other
  end.

Section ConstrainedSequences.

Variable self : Recognizer.
Variable con : Constraints.

Definition advanceUntilAllowed (i : nat) (n : pathNode) : pathNode :=
  AdvanceUntilAllowed (fun b => IsValueAllowed con (Z.of_nat i) b) n.

(** Acts on the last node; the path is never empty where it is called. *)
Definition advanceLastUntilAllowed (path : list pathNode) : list pathNode :=
  let i := (length path - 1)%nat in
  match path !! i with
  | Some n => <[i := advanceUntilAllowed i n]> path
  | None => path
  end.

(** The loop of [popExhausted]: [size] counts down, the node below a
    popped one is advanced in place. [size] never exceeds the length of
    [path], so the lookups are in range. *)
Fixpoint popExhausted_loop (path : list pathNode) (size : nat)
  : list pathNode * nat :=
  match size with
  | O => (path, O)
  | S size' =>
      match path !! size' with
      | Some n =>
          if Exhausted n then
            match size' with
            | O => popExhausted_loop path size'
            | S j =>
                match path !! j with
                | Some m =>
                    popExhausted_loop
                      (<[j := advanceUntilAllowed j (Advance m)]> path) size'
                | None => (path, size)
                end
            end
          else (path, size)
      | None => (path, size)
      end
  end.

Definition popExhausted (path : list pathNode) : list pathNode :=
  let '(path', size) := popExhausted_loop path (length path) in
  take size path'.

Fixpoint getBytes (path : list pathNode) : result (list byte) :=
  match path with
  | [] => Ok []
  | node :: rest =>
      t ← CurrentTransition node;
      bs ← getBytes rest;
      Ok (Trigger t :: bs)
  end.

(** The body of the main loop on a path that is not empty: the value
    sent on the channel, if any, and the next path. *)
Definition ConstrainedSequences_body (path : list pathNode)
  : result (list (list byte) * list pathNode) :=
  let last := (length path - 1)%nat in
  end_ ← index path last;
  curTransition ← CurrentTransition end_;
  out ← (if (IsTerminal curTransition
             && IsLargeEnough con (Z.of_nat (length path)))%bool
         then b ← getBytes path;
              Ok (if IsSequenceAllowed con b then [b] else [])
         else Ok []);
  nextState ← index self (Z.to_nat (ToState curTransition));
  let path' :=
    if (negb (IsEmpty nextState)
        && IsSmallEnough con (Z.of_nat (length path) + 1))%bool
    then path ++ [mkPathNode nextState 0]
    else <[last := Advance end_]> path in
  Ok (out, advanceLastUntilAllowed path').

(** The main loop; [None] when [fuel] iterations were not enough. *)
Fixpoint ConstrainedSequences_loop (fuel : nat) (path : list pathNode)
  : option (result (list (list byte))) :=
  match fuel with
  | O => None
  | S fuel' =>
      let path := popExhausted path in
      if (length path =? 0)%nat then Some (Ok [])
      else
        match ConstrainedSequences_body path with
        | Panic p => Some (Panic p)
        | Ok (out, path') =>
            prepend out (ConstrainedSequences_loop fuel' path')
        end
  end.

(** The values received from the channel until it is closed. *)
Definition ConstrainedSequences (fuel : nat)
  : option (result (list (list byte))) :=
  match Start self with
  | Panic p => Some (Panic p)
  | Ok start =>
      ConstrainedSequences_loop fuel
        (advanceLastUntilAllowed [mkPathNode start 0])
  end.

End ConstrainedSequences.

Definition AllSequences (self : Recognizer) (fuel : nat)
  : option (result (list (list byte))) :=
  ConstrainedSequences self BaseConstraints fuel.

(** ** Serialization (serialize.go)

    The writer is an in-memory buffer, which never fails; the reader is the
    list of the bytes still to be read. *)

Definition serializationPrefix : list byte := bytes_of "MMeMv1".

(** The errors of [io.ReadFull], which [binary.Read] passes on. *)
Inductive error : Type := EOF | ErrUnexpectedEOF.

(** [binary.Read] of [n] bytes: the bytes and the rest of the stream, or
    [io.EOF] when nothing is left, [io.ErrUnexpectedEOF] when too little. *)
Definition read_bytes (n : nat) (r : list byte)
  : (list byte * list byte) + error :=
  if (n <=? length r)%nat then inl (take n r, drop n r)
  else if (length r =? 0)%nat then inr EOF else inr ErrUnexpectedEOF.

(** [int32] read from four big-endian bytes. *)
Definition int32_of_be (b0 b1 b2 b3 : byte) : Z :=
  let u := u32_of_be b0 b1 b2 b3 in
  if u <? 2 ^ 31 then u else u - 2 ^ 32.

Definition WriteTo_state (s : state) : list byte :=
  byte_of_Z (Z.of_nat (length s)) :: concat (map be32 s).

Definition WriteTo (self : Recognizer) : list byte :=
  serializationPrefix
  ++ be32 (Z.of_nat (length self))
  ++ concat (map WriteTo_state self).

(** The inner loop of [ReadFrom]: [n] transitions still to read. *)
Fixpoint ReadFrom_transitions (n : nat) (r : list byte) (st : state)
  : (state * list byte) + error :=
  match n with
  | O => inl (st, r)
  | S n' =>
      match read_bytes 4 r with
      | inl ([b0; b1; b2; b3], r') =>
          ReadFrom_transitions n' r' (st ++ [u32_of_be b0 b1 b2 b3])
      | inl _ => inr ErrUnexpectedEOF
      | inr e => inr e
      end
  end.

(** The outer loop of [ReadFrom]: [done] holds the states read so far,
    [n] are still to read; on an error the states not read stay empty. *)
Fixpoint ReadFrom_states (n : nat) (r : list byte) (done : Recognizer)
  : Recognizer * option error :=
  match n with
  | O => (done, None)
  | S n' =>
      match read_bytes 1 r with
      | inl ([numTransitions], r') =>
          match ReadFrom_transitions
                  (Z.to_nat (Z_of_byte numTransitions)) r' [] with
          | inl (st, r'') => ReadFrom_states n' r'' (done ++ [st])
          | inr e => (done ++ replicate n [], Some e)
          end
      | inl _ => (done ++ replicate n [], Some ErrUnexpectedEOF)
      | inr e => (done ++ replicate n [], Some e)
      end
  end.

(** [ReadFrom]: the recogniser and the error returned, or a panic. *)
Definition ReadFrom (r : list byte) : result (Recognizer * option error) :=
  match read_bytes (length serializationPrefix) r with
  | inr e => Ok ([], Some e)
  | inl (versionString, r1) =>
      match read_bytes 4 r1 with
      | inl ([b0; b1; b2; b3], r2) =>
          let numStates := int32_of_be b0 b1 b2 b3 in
          if numStates <? 0 then Panic NegativeLen (* make(Recognizer, numStates) *)
          else Ok (ReadFrom_states (Z.to_nat numStates) r2 [])
      | inl _ => Ok ([], Some ErrUnexpectedEOF)
      | inr e => Ok ([], Some e)
      end
  end.

(** ** The helpers of the command-line program

    A channel is the list of the values it delivers before it is closed;
    receiving from a closed channel gives the zero value and [false]. *)





(** The loop of [BitsNeeded]: [val >>= 1] until [val] is not positive. *)
Fixpoint BitsNeeded_loop (fuel : nat) (val needed : Z) : option Z :=
  if 0 <? val then
    match fuel with
    | O => None
    | S fuel' => BitsNeeded_loop fuel' (Z.shiftr val 1) (needed + 1)
    end
  else Some needed.

Definition BitsNeeded (fuel : nat) (val : Z) : option Z :=
  BitsNeeded_loop fuel val 0.

(** ** Auxiliary definitions of the proofs *)

(** A state list within the limits of the format: at most 255 transitions
    a state, each a 32-bit value. *)
Definition encodable (m : Recognizer) : Prop :=
  Forall (fun s : state => (length s <= 255)%nat /\ Forall is_uint32 s) m.

(** The lists of the builder are one longer than the previous value. *)
Definition shape (b : builder) : Prop :=
  length (larvae b) = S (length (prevValue b)) /\
  length (terminals b) = S (length (prevValue b)).

(** The builder after one turn of the loop of [makeSuffixStates], when
    the reads are in range. *)
Definition mss_next (i' : nat) (b : builder) (trigger : byte) (larva : state)
    (terminal : bool) (target : state) : builder :=
  let '(id, b1) := makeState b larva in
  mkBuilder (self b1) (states b1) (terminals b)
    (<[i' := AddTransition target
               (NewTransition trigger (Z.of_nat id) terminal)]> (larvae b))
    (prevValue b).

(** Every destination of a state is an earlier state: the graph has no
    cycle and no destination out of range. *)
Definition wf_rec (self : Recognizer) : Prop :=
  forall i s, self !! i = Some s ->
    Forall (fun t => (Z.to_nat (ToState t) < i)%nat) s.

Section Enumeration.

Variable self : Recognizer.
Variable con : Constraints.

(** What the traversal sends for one transition [t] of a state reached
    with the triggers [prefix]; [rec] enumerates the state below. *)
Definition enum_edge (rec : list byte -> state -> list (list byte))
    (prefix : list byte) (t : transition) : list (list byte) :=
  if IsValueAllowed con (Z.of_nat (length prefix)) (Trigger t) then
    let p := prefix ++ [Trigger t] in
    (if (IsTerminal t && IsLargeEnough con (Z.of_nat (length p)))%bool
     then if IsSequenceAllowed con p then [p] else []
     else [])
    ++ (let next := default [] (self !! Z.to_nat (ToState t)) in
        if (negb (IsEmpty next)
            && IsSmallEnough con (Z.of_nat (length p) + 1))%bool
        then rec p next else [])
  else [].

(** The sequences of a state in the order of the traversal, to a depth
    of [fuel] states. *)
Fixpoint enum (fuel : nat) (prefix : list byte) (s : state)
  : list (list byte) :=
  match fuel with
  | O => []
  | S fuel' => flat_map (enum_edge (enum fuel') prefix) s
  end.

(** The cursor where [AdvanceUntilAllowed] stops at depth [d]. *)
Definition norm (d : nat) (s : state) (c : nat) : nat :=
  AdvanceUntilAllowed_loop (fun b => IsValueAllowed con (Z.of_nat d) b)
    (drop c s) c.

(** The cursor is on an allowed transition, or past the last one. *)
Definition settled (d : nat) (s : state) (c : nat) : Prop :=
  (c <= length s)%nat /\
  forall t, s !! c = Some t -> IsValueAllowed con (Z.of_nat d) (Trigger t) = true.

End Enumeration.

(** *** The language of a state

    [tbl !! i] is the list of the sequences accepted from state [i], in
    ascending order; a transition contributes its trigger, if terminal,
    and its trigger before every sequence of its destination. *)
Definition edge_lang (tbl : list (list (list byte))) (t : transition)
  : list (list byte) :=
  (if IsTerminal t then [[Trigger t]] else [])
  ++ map (cons (Trigger t)) (default [] (tbl !! Z.to_nat (ToState t))).

Definition state_lang (tbl : list (list (list byte))) (s : state)
  : list (list byte) :=
  flat_map (edge_lang tbl) s.

(** The languages of the states of a recogniser, from state 0 up. *)
Definition table (r : Recognizer) : list (list (list byte)) :=
  foldl (fun tbl s => tbl ++ [state_lang tbl s]) [] r.

(** *** What the traversal sends

    A sequence [w] reached below the triggers [prefix] is sent when each
    of its values is allowed at its position, the path was allowed to grow
    to each length above [length prefix + 1] on the way, and the whole
    sequence is large enough and allowed. *)
Fixpoint values_allowed (con : Constraints) (d : nat) (w : list byte) : bool :=
  match w with
  | [] => true
  | c :: w' => IsValueAllowed con (Z.of_nat d) c && values_allowed con (S d) w'
  end.

Fixpoint sizes_allowed (con : Constraints) (d : nat) (w : list byte) : bool :=
  match w with
  | [] => true
  | _ :: w' =>
      match w' with
      | [] => true
      | _ :: _ =>
          IsSmallEnough con (Z.of_nat (S d) + 1) && sizes_allowed con (S d) w'
      end
  end.

Definition sent_below (con : Constraints) (prefix w : list byte) : bool :=
  values_allowed con (length prefix) w
  && sizes_allowed con (length prefix) w
  && IsLargeEnough con (Z.of_nat (length (prefix ++ w)))
  && IsSequenceAllowed con (prefix ++ w).

(** The same for a whole sequence, without recursion: every value is
    allowed at its position, every length from 2 to the length of the
    sequence is small enough, the length is large enough and the sequence
    is allowed. [IsSmallEnough] is not asked about the length 1. *)
Definition emitted (con : Constraints) (w : list byte) : bool :=
  forallb (fun i => IsValueAllowed con (Z.of_nat i) (nth i w x00))
    (seq 0 (length w))
  && forallb (fun n => IsSmallEnough con (Z.of_nat n))
       (seq 2 (length w - 1))
  && IsLargeEnough con (Z.of_nat (length w))
  && IsSequenceAllowed con w.

(** The language of the states under construction: the larva at a
    position, then the byte of the previous value at that position before
    the empty sequence, if the marker of the next position is set, and
    before the language of the rest of the chain. *)
Fixpoint chainLang (tbl : list (list (list byte))) (Ls : list state)
    (ts : list bool) (bs : list byte) : list (list byte) :=
  match Ls with
  | [] => []
  | L :: Ls' =>
      state_lang tbl L
      ++ match ts, bs with
         | t :: ts', b :: bs' =>
             map (cons b) ((if t then [[]] else []) ++ chainLang tbl Ls' ts' bs')
         | _, _ => []
         end
  end.

(** Total number of bytes of the values. *)
Definition total_length (values : list (list byte)) : nat :=
  foldr (fun v n => (length v + n)%nat) 0%nat values.

(** A state of 32-bit transitions with destinations below [bound]. *)
Definition valid_state (bound : nat) (s : state) : Prop :=
  Forall (fun t => is_uint32 t /\ (Z.to_nat (ToState t) < bound)%nat) s.

(** *** Ordered states

    The transitions of a state in strictly ascending order of the packed
    values, as [AddTransition] keeps them; in ascending, and in strictly
    ascending, order of the triggers. *)
Definition trigger_le (a b : transition) : Prop :=
  Z_of_byte (Trigger a) <= Z_of_byte (Trigger b).

Definition trigger_lt (a b : transition) : Prop :=
  Z_of_byte (Trigger a) < Z_of_byte (Trigger b).

Definition sorted_state (s : state) : Prop := StronglySorted trigger_lt s.

(** *** Invariants of the builder *)

(** The interned states and the table of fingerprints agree; every
    interned state points to earlier states only. *)
Record Store (b : builder) : Prop := mkStore {
  store_valid : forall i s, self b !! i = Some s -> valid_state i s;
  store_map1 : forall i s,
    self b !! i = Some s -> states b !! Fingerprint s = Some i;
  store_map2 : forall k i,
    states b !! k = Some i ->
    exists s, self b !! i = Some s /\ k = Fingerprint s
}.

(** The builder after the values [V], with the larvae up to position [h]
    still under construction. *)
Record Inv (V : list (list byte)) (h : nat) (b : builder) : Prop := mkInv {
  inv_shape : shape b;
  inv_h : (h <= length (prevValue b))%nat;
  inv_store : Store b;
  inv_larvae : forall i L,
    (i <= h)%nat -> larvae b !! i = Some L ->
    valid_state (length (self b)) L;
  inv_trig : forall i L t,
    (i <= h)%nat -> larvae b !! i = Some L -> t ∈ L ->
    exists w, prevValue b !! i = Some w /\
              Z_of_byte (Trigger t) <= Z_of_byte w /\
              ((i < h)%nat -> Z_of_byte (Trigger t) < Z_of_byte w);
  inv_lang :
    chainLang (table (self b)) (take (S h) (larvae b))
      (take h (drop 1 (terminals b))) (take h (prevValue b)) = V;
  inv_size : (length (self b) + h <= total_length V)%nat;
  inv_reach : forall id,
    (id < length (self b))%nat ->
    (exists j s t, self b !! j = Some s /\ t ∈ s /\
                   Z.to_nat (ToState t) = id) \/
    (exists i L t, (i <= h)%nat /\ larvae b !! i = Some L /\ t ∈ L /\
                   Z.to_nat (ToState t) = id)
}.

(** A transition that accepts something: it is terminal, or its
    destination is a state with transitions. *)
Definition productive (r : Recognizer) (t : transition) : Prop :=
  IsTerminal t = true \/
  exists s', r !! Z.to_nat (ToState t) = Some s' /\ s' <> [].

(** The order and the use of the transitions in the builder: every state
    and every larva has its triggers in strictly ascending order and
    productive transitions only; the larva at the live height [h] is
    marked terminal when it is the end of the previous value, and has a
    transition when it is not. *)
Record Canon (h : nat) (b : builder) : Prop := mkCanon {
  canon_self_sorted : Forall sorted_state (self b);
  canon_larvae_sorted : Forall sorted_state (larvae b);
  canon_self_prod : Forall (Forall (productive (self b))) (self b);
  canon_larvae_prod : Forall (Forall (productive (self b))) (larvae b);
  canon_top : (0 < h)%nat ->
    (h = length (prevValue b) -> terminals b !! h = Some true) /\
    ((h < length (prevValue b))%nat ->
     exists L, larvae b !! h = Some L /\ L <> [])
}.

(** The length of the longest prefix that [x] shares with one of the
    values. *)
Definition longest_match (V : list (list byte)) (x : list byte) : nat :=
  foldr (fun v n => Nat.max (commonPrefixLen v x) n) 0%nat V.


(** * Properties

    ** Bytes and packed transitions *)

Lemma Z_of_byte_range b : 0 <= Z_of_byte b < 256.
Proof.
  unfold Z_of_byte. pose proof (Byte.to_N_bounded b). lia.
Qed.

Lemma byte_of_Z_of_byte b : byte_of_Z (Z_of_byte b) = b.
Proof.
  unfold byte_of_Z. rewrite Z.mod_small by apply Z_of_byte_range.
  unfold Z_of_byte. rewrite N2Z.id, Byte.of_to_N. reflexivity.
Qed.

Lemma Z_of_byte_of_Z z : Z_of_byte (byte_of_Z z) = z mod 256.
Proof.
  unfold byte_of_Z, Z_of_byte.
  pose proof (Z.mod_pos_bound z 256 ltac:(lia)) as Hz.
  destruct (Byte.of_N (Z.to_N (z mod 256))) as [b|] eqn:E.
  - apply Byte.to_of_N in E. rewrite E. lia.
  - apply Byte.of_N_None_iff in E. lia.
Qed.

Lemma Z_of_byte_inj a b : Z_of_byte a = Z_of_byte b -> a = b.
Proof.
  intros H. rewrite <- (byte_of_Z_of_byte a), <- (byte_of_Z_of_byte b).
  now rewrite H.
Qed.

(** Or-ing a value below [2^k] into a multiple of [2^k] adds it. *)
Lemma lor_disjoint hi lo k :
  0 <= k -> 0 <= lo < 2 ^ k -> Z.lor (hi * 2 ^ k) lo = hi * 2 ^ k + lo.
Proof.
  intros Hk Hlo.
  rewrite <- Z.lxor_lor, <- Z.add_nocarry_lxor; try reflexivity.
  all: apply Z.bits_inj'; intros n Hn; rewrite Z.land_spec, Z.bits_0.
  all: destruct (Z.ltb_spec n k) as [Hlt|Hge].
  all: try (rewrite Z.mul_pow2_bits_low by lia; reflexivity).
  all: rewrite <- (Z.mod_small lo (2 ^ k)) by lia.
  all: rewrite Z.mod_pow2_bits_high by lia; apply Bool.andb_false_r.
Qed.

(** The packed value, read arithmetically. *)
Lemma NewTransition_arith b d f :
  NewTransition b d f
  = Z_of_byte b * 2 ^ 24 + (if f then 2 ^ 23 else 0) + d mod 2 ^ 23.
Proof.
  unfold NewTransition, uint32.
  pose proof (Z_of_byte_range b) as Hb.
  change 0x7fffff with (Z.ones 23). change 0x800000 with (2 ^ 23).
  rewrite Z.land_ones by lia.
  replace ((d mod 2 ^ 32) mod 2 ^ 23) with (d mod 2 ^ 23).
  2:{ symmetry. apply Z.mod_mod_divide. exists (2 ^ 9). reflexivity. }
  pose proof (Z.mod_pos_bound d (2 ^ 23) ltac:(lia)) as Hd.
  rewrite Z.shiftl_mul_pow2 by lia.
  destruct f.
  - rewrite (lor_disjoint (Z_of_byte b) (2 ^ 23) 24) by lia.
    replace (Z_of_byte b * 2 ^ 24 + 2 ^ 23)
      with ((Z_of_byte b * 2 + 1) * 2 ^ 23) by lia.
    rewrite lor_disjoint by lia. lia.
  - replace (Z_of_byte b * 2 ^ 24) with (Z_of_byte b * 2 * 2 ^ 23) by lia.
    rewrite lor_disjoint by lia. lia.
Qed.

Lemma NewTransition_uint32 b d f : is_uint32 (NewTransition b d f).
Proof.
  rewrite NewTransition_arith. unfold is_uint32.
  pose proof (Z_of_byte_range b).
  pose proof (Z.mod_pos_bound d (2 ^ 23) ltac:(lia)).
  destruct f; lia.
Qed.

Lemma Trigger_NewTransition b d f : Trigger (NewTransition b d f) = b.
Proof.
  unfold Trigger. rewrite NewTransition_arith, Z.shiftr_div_pow2 by lia.
  pose proof (Z.mod_pos_bound d (2 ^ 23) ltac:(lia)).
  replace (_ / 2 ^ 24) with (Z_of_byte b); [apply byte_of_Z_of_byte|].
  apply Z.div_unique with ((if f then 2 ^ 23 else 0) + d mod 2 ^ 23).
  - left. destruct f; lia.
  - lia.
Qed.

Lemma ToState_NewTransition b d f :
  ToState (NewTransition b d f) = d mod 2 ^ 23.
Proof.
  unfold ToState. change 0x7fffff with (Z.ones 23).
  rewrite Z.land_ones, NewTransition_arith by lia.
  pose proof (Z.mod_pos_bound d (2 ^ 23) ltac:(lia)).
  symmetry.
  apply Z.mod_unique with (Z_of_byte b * 2 + (if f then 1 else 0)).
  - left. lia.
  - destruct f; lia.
Qed.

Lemma land_pow2 t k :
  0 <= k -> Z.land t (2 ^ k) = if Z.testbit t k then 2 ^ k else 0.
Proof.
  intros Hk. apply Z.bits_inj'; intros n Hn.
  rewrite Z.land_spec, Z.pow2_bits_eqb by lia.
  destruct (Z.eqb_spec k n) as [->|Hne].
  - destruct (Z.testbit t n); [|now rewrite Z.bits_0].
    now rewrite Z.pow2_bits_true.
  - rewrite Bool.andb_false_r.
    destruct (Z.testbit t k); [|now rewrite Z.bits_0].
    rewrite Z.pow2_bits_false; [reflexivity|lia].
Qed.

Lemma IsTerminal_testbit t : IsTerminal t = Z.testbit t 23.
Proof.
  unfold IsTerminal. change 0x800000 with (2 ^ 23).
  rewrite land_pow2 by lia. now destruct (Z.testbit t 23).
Qed.

Lemma IsTerminal_NewTransition b d f : IsTerminal (NewTransition b d f) = f.
Proof.
  rewrite IsTerminal_testbit, NewTransition_arith.
  pose proof (Z.mod_pos_bound d (2 ^ 23) ltac:(lia)).
  apply Z.testbit_unique with (d mod 2 ^ 23) (Z_of_byte b); [lia|].
  destruct f; simpl Z.b2z; lia.
Qed.

(** The trigger of a 32-bit value is its top byte. *)
Lemma Trigger_uint32 t : is_uint32 t -> Z_of_byte (Trigger t) = t / 2 ^ 24.
Proof.
  intros Ht. unfold Trigger, is_uint32 in *.
  rewrite Z_of_byte_of_Z, Z.shiftr_div_pow2 by lia.
  apply Z.mod_small. split.
  - apply Z.div_pos; lia.
  - apply Z.div_lt_upper_bound; lia.
Qed.

(** C7. Packed transition codec. For a trigger byte [b], a terminal flag
    [f] and a destination [d] with [0 <= d < 2^23], the accessors of
    [NewTransition b d f] give back [b], [f] and [d]; between two 32-bit
    packed values the numeric order follows the trigger: a smaller trigger
    makes a smaller value, and a smaller-or-equal value has a
    smaller-or-equal trigger; and for [d >= 2^23] the stored destination is
    [d mod 2^23], the trigger and the flag being kept, with no error. *)
Theorem packed_transition_codec (b : byte) (d : Z) (f : bool) :
  (0 <= d < 2 ^ 23 ->
     Trigger (NewTransition b d f) = b /\
     IsTerminal (NewTransition b d f) = f /\
     ToState (NewTransition b d f) = d) /\
  (forall t1 t2 : transition, is_uint32 t1 -> is_uint32 t2 ->
     (Z_of_byte (Trigger t1) < Z_of_byte (Trigger t2) -> t1 < t2) /\
     (t1 <= t2 -> Z_of_byte (Trigger t1) <= Z_of_byte (Trigger t2))) /\
  (2 ^ 23 <= d ->
     ToState (NewTransition b d f) = d mod 2 ^ 23 /\
     Trigger (NewTransition b d f) = b /\
     IsTerminal (NewTransition b d f) = f /\
     is_uint32 (NewTransition b d f)).
Proof.
  split; [|split].
  - intros Hd. rewrite Trigger_NewTransition, IsTerminal_NewTransition,
      ToState_NewTransition, Z.mod_small by lia. auto.
  - intros t1 t2 H1 H2. rewrite !Trigger_uint32 by assumption.
    unfold is_uint32 in *. split.
    + intros Hlt.
      destruct (Z.lt_ge_cases t1 t2) as [|Hge]; [assumption|].
      apply (Z.div_le_mono _ _ (2 ^ 24)) in Hge; lia.
    + intros Hle. apply Z.div_le_mono; lia.
  - intros _. rewrite Trigger_NewTransition, IsTerminal_NewTransition,
      ToState_NewTransition. auto using NewTransition_uint32.
Qed.

Lemma packed_transition_codec_witness :
  (Trigger (NewTransition x41 5 true) = x41 /\
   IsTerminal (NewTransition x41 5 true) = true /\
   ToState (NewTransition x41 5 true) = 5) /\
  NewTransition x41 0 true < NewTransition x42 0 false /\
  ToState (NewTransition x41 (2 ^ 23 + 5) true) = 5.
Proof.
  destruct (packed_transition_codec x41 5 true) as (Hin & Hord & _).
  destruct (packed_transition_codec x41 (2 ^ 23 + 5) true) as (_ & _ & Hout).
  split; [apply Hin; lia|]. split.
  - apply (Hord (NewTransition x41 0 true) (NewTransition x42 0 false));
      [apply NewTransition_uint32 | apply NewTransition_uint32
      | vm_compute; reflexivity].
  - destruct Hout as [Hs _]; [lia|]. rewrite Hs. reflexivity.
Defined.


(** ** Serialization *)

Lemma u32_of_be_arith b0 b1 b2 b3 :
  u32_of_be b0 b1 b2 b3
  = Z_of_byte b0 * 2 ^ 24 + Z_of_byte b1 * 2 ^ 16
    + Z_of_byte b2 * 2 ^ 8 + Z_of_byte b3.
Proof.
  unfold u32_of_be.
  pose proof (Z_of_byte_range b0). pose proof (Z_of_byte_range b1).
  pose proof (Z_of_byte_range b2). pose proof (Z_of_byte_range b3).
  rewrite !Z.shiftl_mul_pow2 by lia.
  rewrite (Z.lor_comm (Z_of_byte b3)), lor_disjoint by lia.
  rewrite (Z.lor_comm (_ + _) (Z_of_byte b1 * _)), lor_disjoint by lia.
  rewrite (Z.lor_comm (_ + _) (Z_of_byte b0 * _)), lor_disjoint by lia.
  lia.
Qed.

Lemma u32_of_be_uint32 b0 b1 b2 b3 : is_uint32 (u32_of_be b0 b1 b2 b3).
Proof.
  rewrite u32_of_be_arith. unfold is_uint32.
  pose proof (Z_of_byte_range b0). pose proof (Z_of_byte_range b1).
  pose proof (Z_of_byte_range b2). pose proof (Z_of_byte_range b3).
  lia.
Qed.

(** Decoding the big-endian bytes of a 32-bit value gives it back. *)
Lemma u32_of_be_be32 t :
  is_uint32 t ->
  u32_of_be (byte_of_Z (Z.shiftr t 24)) (byte_of_Z (Z.shiftr t 16))
            (byte_of_Z (Z.shiftr t 8)) (byte_of_Z t) = t.
Proof.
  unfold is_uint32. intros Ht.
  rewrite u32_of_be_arith, !Z_of_byte_of_Z, !Z.shiftr_div_pow2 by lia.
  change (2 ^ 24) with 16777216. change (2 ^ 16) with 65536.
  change (2 ^ 8) with 256. change (2 ^ 32) with 4294967296 in Ht.
  Z.div_mod_to_equations. lia.
Qed.

Lemma be32_length t : length (be32 t) = 4%nat.
Proof. reflexivity. Qed.

Lemma concat_be32_length (s : state) :
  length (concat (map be32 s)) = (4 * length s)%nat.
Proof.
  induction s as [|t s IH]; simpl; [reflexivity|]. rewrite IH. lia.
Qed.

Lemma read_bytes_app (a r : list byte) :
  read_bytes (length a) (a ++ r) = inl (a, r).
Proof.
  unfold read_bytes. rewrite length_app.
  replace (length a <=? length a + length r)%nat with true
    by (symmetry; apply Nat.leb_le; lia).
  now rewrite take_app_length, drop_app_length.
Qed.

Lemma read_bytes_short n (r : list byte) :
  (length r < n)%nat -> exists e, read_bytes n r = inr e.
Proof.
  intros Hlt. unfold read_bytes.
  replace (n <=? length r)%nat with false
    by (symmetry; apply Nat.leb_gt; lia).
  destruct (length r =? 0)%nat; eauto.
Qed.

Lemma ReadFrom_transitions_encoded (s : state) r acc :
  Forall is_uint32 s ->
  ReadFrom_transitions (length s) (concat (map be32 s) ++ r) acc
  = inl (acc ++ s, r).
Proof.
  revert acc. induction s as [|t s IH]; intros acc Hs; simpl.
  - now rewrite app_nil_r.
  - inversion Hs as [|? ? Ht Hs']; subst.
    rewrite u32_of_be_be32 by assumption. change (drop 0 ?x) with x.
    rewrite IH by assumption. now rewrite <- app_assoc.
Qed.

Lemma byte_of_length (s : state) :
  (length s <= 255)%nat ->
  Z.to_nat (Z_of_byte (byte_of_Z (Z.of_nat (length s)))) = length s.
Proof.
  intros Hs. rewrite Z_of_byte_of_Z, Z.mod_small by lia. lia.
Qed.

Lemma ReadFrom_states_encoded (m : Recognizer) r done :
  encodable m ->
  ReadFrom_states (length m) (concat (map WriteTo_state m) ++ r) done
  = (done ++ m, None).
Proof.
  revert done. induction m as [|s m IH]; intros done Hm.
  - simpl. now rewrite app_nil_r.
  - inversion Hm as [|? ? [Hlen Hs] Hm']; subst.
    cbn [length ReadFrom_states map concat WriteTo_state app].
    change (read_bytes 1 (?b :: ?x)) with (read_bytes (length [b]) ([b] ++ x)).
    rewrite read_bytes_app, byte_of_length by assumption.
    rewrite <- app_assoc, ReadFrom_transitions_encoded by assumption.
    cbn [app]. rewrite IH by assumption. now rewrite <- app_assoc.
Qed.

Lemma int32_of_length (n : nat) :
  Z.of_nat n < 2 ^ 31 ->
  int32_of_be (byte_of_Z (Z.shiftr (Z.of_nat n) 24))
    (byte_of_Z (Z.shiftr (Z.of_nat n) 16))
    (byte_of_Z (Z.shiftr (Z.of_nat n) 8)) (byte_of_Z (Z.of_nat n))
  = Z.of_nat n.
Proof.
  intros Hn. unfold int32_of_be.
  rewrite u32_of_be_be32 by (unfold is_uint32; lia).
  destruct (Z.ltb_spec (Z.of_nat n) (2 ^ 31)); lia.
Qed.

(** Reading what [WriteTo] wrote, after any six bytes in place of the
    version string. *)
Lemma ReadFrom_encoded (tag : list byte) (m : Recognizer) :
  length tag = 6%nat ->
  Z.of_nat (length m) < 2 ^ 31 ->
  encodable m ->
  ReadFrom (tag ++ be32 (Z.of_nat (length m)) ++ concat (map WriteTo_state m))
  = Ok (m, None).
Proof.
  intros Htag Hlen Hm. unfold ReadFrom.
  change (length serializationPrefix) with 6%nat. rewrite <- Htag.
  rewrite read_bytes_app.
  change (read_bytes 4 (be32 ?t ++ ?x))
    with (read_bytes (length (be32 t)) (be32 t ++ x)).
  rewrite read_bytes_app. cbn [be32].
  rewrite int32_of_length by assumption.
  destruct (Z.ltb_spec (Z.of_nat (length m)) 0); [lia|].
  rewrite Nat2Z.id.
  rewrite <- (app_nil_r (concat _)), ReadFrom_states_encoded by assumption.
  reflexivity.
Qed.

(** C3. Serialization round trip. For a recogniser [m] whose state count
    fits a signed 32-bit integer and whose states have at most 255
    transitions (each a 32-bit value, as the type [transition] has it),
    [ReadFrom] applied to the bytes of [WriteTo m] returns no error and a
    recogniser equal to [m], state for state in the same order; so
    membership and constrained enumeration agree on the two. *)
Theorem serialization_round_trip (m : Recognizer) :
  Z.of_nat (length m) < 2 ^ 31 ->
  Forall (fun s : state => (length s <= 255)%nat) m ->
  Forall (Forall is_uint32) m ->
  exists m' : Recognizer,
    ReadFrom (WriteTo m) = Ok (m', None) /\
    m' = m /\
    (forall i : nat, m' !! i = m !! i) /\
    (forall x : list byte, Recognizes m' x = Recognizes m x) /\
    (forall (con : Constraints) (fuel : nat),
        ConstrainedSequences m' con fuel = ConstrainedSequences m con fuel).
Proof.
  intros Hlen H255 H32. exists m. split; [|auto].
  apply ReadFrom_encoded; [reflexivity | assumption |].
  unfold encodable. rewrite Forall_forall in *. auto.
Qed.

Lemma serialization_round_trip_witness :
  exists m' : Recognizer,
    ReadFrom (WriteTo [[]; [NewTransition "A" 0 true]]) = Ok (m', None) /\
    m' = [[]; [NewTransition "A" 0 true]].
Proof.
  destruct (serialization_round_trip [[]; [NewTransition "A" 0 true]])
    as (m' & Hread & Heq & _).
  - simpl. lia.
  - repeat constructor; simpl; lia.
  - repeat constructor; apply NewTransition_uint32.
  - exists m'. auto.
Defined.

(** ** Reading malformed streams *)

Lemma ReadFrom_transitions_short n (r : list byte) acc :
  (length r < 4 * n)%nat -> exists e, ReadFrom_transitions n r acc = inr e.
Proof.
  revert r acc. induction n as [|n IH]; intros r acc Hlen; [simpl in Hlen; lia|].
  destruct r as [|b0 [|b1 [|b2 [|b3 r]]]]; simpl; eauto.
  apply IH. rewrite drop_0. simpl in Hlen. lia.
Qed.

Lemma ReadFrom_states_truncated (m : Recognizer) (k : nat) done :
  encodable m ->
  (k < length (concat (map WriteTo_state m)))%nat ->
  exists p e,
    ReadFrom_states (length m) (take k (concat (map WriteTo_state m))) done
    = (p, Some e).
Proof.
  revert k done. induction m as [|s m IH]; intros k done Hm Hk.
  - simpl in Hk. lia.
  - inversion Hm as [|? ? [Hlen Hs] Hm']; subst.
    cbn [length map concat WriteTo_state app] in *.
    destruct k as [|k]; [simpl; eauto|].
    cbn [take ReadFrom_states].
    change (read_bytes 1 (?b :: ?x)) with (read_bytes (length [b]) ([b] ++ x)).
    rewrite read_bytes_app, byte_of_length by assumption.
    destruct (Nat.lt_ge_cases k (length (concat (map be32 s)))) as [Hlt|Hge].
    + rewrite take_app_le by lia.
      destruct (ReadFrom_transitions_short (length s)
                  (take k (concat (map be32 s))) []) as [e He].
      { rewrite length_take, concat_be32_length in *. lia. }
      rewrite He. eauto.
    + rewrite take_app_ge by assumption.
      rewrite ReadFrom_transitions_encoded by assumption.
      apply IH; [assumption|].
      rewrite length_app in Hk. simpl in Hk. lia.
Qed.

Lemma read_bytes_app_eq k (a r : list byte) :
  length a = k -> read_bytes k (a ++ r) = inl (a, r).
Proof. intros <-. apply read_bytes_app. Qed.

(** C10. A negative state count makes [ReadFrom] panic. After any six
    bytes in place of the version string (the version string itself
    included), a 32-bit count that is negative as a signed integer makes
    the allocation of the state list panic: no recogniser and no error
    value is returned, whatever follows in the stream. *)
Theorem ReadFrom_negative_count_panics
    (tag : list byte) (b0 b1 b2 b3 : byte) (rest : list byte) :
  length tag = 6%nat ->
  int32_of_be b0 b1 b2 b3 < 0 ->
  ReadFrom (tag ++ [b0; b1; b2; b3] ++ rest) = Panic NegativeLen /\
  (forall m e, ReadFrom (tag ++ [b0; b1; b2; b3] ++ rest) <> Ok (m, e)).
Proof.
  intros Htag Hneg.
  assert (H : ReadFrom (tag ++ [b0; b1; b2; b3] ++ rest) = Panic NegativeLen).
  { unfold ReadFrom. change (length serializationPrefix) with 6%nat.
    rewrite <- Htag, read_bytes_app. cbn.
    destruct (Z.ltb_spec (int32_of_be b0 b1 b2 b3) 0); [reflexivity|lia]. }
  split; [assumption|]. intros m e. rewrite H. discriminate.
Qed.

Lemma ReadFrom_negative_count_panics_witness :
  ReadFrom (serializationPrefix ++ [xff; xff; xff; xff] ++ [])
  = Panic NegativeLen.
Proof.
  apply (ReadFrom_negative_count_panics serializationPrefix xff xff xff xff []);
    [reflexivity | vm_compute; reflexivity].
Defined.

(** A stream with six bytes that are not the version string and a count of
    zero is read without an error. *)
Lemma ReadFrom_wrong_magic_accepted :
  let input := bytes_of "XXXXXX" ++ [x00; x00; x00; x00] in
  take 6 input <> serializationPrefix /\
  ReadFrom input = Ok ([], None).
Proof.
  split; [discriminate | reflexivity].
Qed.

(** C4 (amended). Truncated input. Whatever six bytes stand in place of
    the version string (they are read and not compared), a stream that
    stops before the end of an encoding makes [ReadFrom] return an error,
    [io.EOF] or [io.ErrUnexpectedEOF] as the reader produced it, and no
    panic; the complete stream is read without an error. *)
Theorem ReadFrom_truncated_error (tag : list byte) (m : Recognizer) (n : nat) :
  length tag = 6%nat ->
  Z.of_nat (length m) < 2 ^ 31 ->
  encodable m ->
  let stream :=
    tag ++ be32 (Z.of_nat (length m)) ++ concat (map WriteTo_state m) in
  ReadFrom stream = Ok (m, None) /\
  ((n < length stream)%nat ->
   exists (partial : Recognizer) (e : error),
     ReadFrom (take n stream) = Ok (partial, Some e)).
Proof.
  intros Htag Hlen Hm stream. split; [now apply ReadFrom_encoded|].
  subst stream. intros Hn. unfold ReadFrom.
  change (length serializationPrefix) with 6%nat.
  destruct (Nat.lt_ge_cases n 6) as [Hlt|Hge].
  { destruct (read_bytes_short 6 (take n
      (tag ++ be32 (Z.of_nat (length m)) ++ concat (map WriteTo_state m))))
      as [e He]; [rewrite length_take; lia|].
    rewrite He. eauto. }
  rewrite take_app_ge by lia.
  rewrite (read_bytes_app_eq 6) by assumption. rewrite Htag.
  rewrite !length_app, Htag, be32_length in Hn.
  destruct (Nat.lt_ge_cases (n - 6) 4) as [Hlt4|Hge4].
  { destruct (read_bytes_short 4 (take (n - 6)
      (be32 (Z.of_nat (length m)) ++ concat (map WriteTo_state m))))
      as [e He]; [rewrite length_take; lia|].
    rewrite He. eauto. }
  rewrite take_app_ge by (rewrite be32_length; lia).
  change (read_bytes 4 (be32 ?t ++ ?x))
    with (read_bytes (length (be32 t)) (be32 t ++ x)).
  rewrite read_bytes_app. cbn [be32].
  rewrite int32_of_length by assumption.
  destruct (Z.ltb_spec (Z.of_nat (length m)) 0); [lia|].
  rewrite Nat2Z.id.
  destruct (ReadFrom_states_truncated m (n - 6 - length (be32 (Z.of_nat (length m)))) [] Hm)
    as (p & e & He); [rewrite be32_length; lia|].
  cbn [be32] in He. rewrite He. eauto.
Qed.

Lemma ReadFrom_truncated_error_witness :
  exists (partial : Recognizer) (e : error),
    ReadFrom (take 11 (WriteTo [[]; [NewTransition "A" 0 true]]))
    = Ok (partial, Some e).
Proof.
  apply (ReadFrom_truncated_error serializationPrefix
           [[]; [NewTransition "A" 0 true]] 11).
  - reflexivity.
  - simpl. lia.
  - repeat constructor; try (simpl; lia). apply NewTransition_uint32.
  - simpl. lia.
Defined.

(** ** The builder: shape of its state, ordering violations *)


Lemma result_bind_Ok {A B} (f : A -> result B) (a : A) :
  (Ok a ≫= f) = f a.
Proof. reflexivity. Qed.

Lemma index_lookup {A} (l : list A) i x : l !! i = Some x -> index l i = Ok x.
Proof. unfold index. now intros ->. Qed.

Lemma last_cons_default {A} (d x : A) (l : list A) :
  default d (last (x :: l)) = default x (last l).
Proof.
  revert d x. induction l as [|a l IH]; intros d x; [reflexivity|].
  rewrite last_cons_cons, (IH d a). symmetry. apply IH.
Qed.

Lemma makeState_fields b s :
  terminals (makeState b s).2 = terminals b /\
  larvae (makeState b s).2 = larvae b /\
  prevValue (makeState b s).2 = prevValue b.
Proof.
  unfold makeState. destruct (states b !! Fingerprint s); simpl; auto.
Qed.

Lemma makeSuffixStates_loop_S p i' b trigger larva terminal target :
  (p < S i')%nat ->
  prevValue b !! i' = Some trigger ->
  larvae b !! S i' = Some larva ->
  terminals b !! S i' = Some terminal ->
  larvae b !! i' = Some target ->
  makeSuffixStates_loop p (S i') b
  = makeSuffixStates_loop p i' (mss_next i' b trigger larva terminal target).
Proof.
  intros Hp Htr Hla Hte Hta. cbn [makeSuffixStates_loop].
  replace (p <? S i')%nat with true by (symmetry; apply Nat.ltb_lt; lia).
  rewrite (index_lookup _ _ _ Htr), (index_lookup _ _ _ Hla). cbn [mbind result_bind].
  unfold mss_next.
  destruct (makeState_fields b larva) as (Ht & Hl & Hp').
  destruct (makeState b larva) as [id b1]. simpl in Ht, Hl, Hp'.
  rewrite Ht, Hl, Hp'.
  rewrite (index_lookup _ _ _ Hte), (index_lookup _ _ _ Hta).
  reflexivity.
Qed.

Lemma makeSuffixStates_loop_stop p i b :
  (i <= p)%nat -> makeSuffixStates_loop p i b = Ok b.
Proof.
  intros Hi. destruct i; [reflexivity|]. cbn [makeSuffixStates_loop].
  now replace (p <? S i)%nat with false by (symmetry; apply Nat.ltb_ge; lia).
Qed.

Lemma mss_next_fields i' b trigger larva terminal target :
  terminals (mss_next i' b trigger larva terminal target) = terminals b /\
  prevValue (mss_next i' b trigger larva terminal target) = prevValue b /\
  length (larvae (mss_next i' b trigger larva terminal target))
  = length (larvae b).
Proof.
  unfold mss_next. destruct (makeState b larva) as [id b1]. simpl.
  now rewrite length_insert.
Qed.

(** With the lists in shape the loop of [makeSuffixStates] does not
    panic, and keeps the shape, the previous value and the markers. *)
Lemma makeSuffixStates_loop_shape p i b :
  shape b -> (i <= length (prevValue b))%nat ->
  exists b', makeSuffixStates_loop p i b = Ok b' /\ shape b' /\
             prevValue b' = prevValue b /\ terminals b' = terminals b.
Proof.
  revert b. induction i as [|i' IH]; intros b Hsh Hi.
  - exists b. simpl. auto.
  - destruct (Nat.le_gt_cases (S i') p) as [Hle|Hgt].
    { exists b. rewrite makeSuffixStates_loop_stop by assumption. auto. }
    destruct Hsh as [Hl Ht].
    destruct (lookup_lt_is_Some_2 (prevValue b) i') as [trigger Htr]; [lia|].
    destruct (lookup_lt_is_Some_2 (larvae b) (S i')) as [larva Hla]; [lia|].
    destruct (lookup_lt_is_Some_2 (terminals b) (S i')) as [terminal Hte]; [lia|].
    destruct (lookup_lt_is_Some_2 (larvae b) i') as [target Hta]; [lia|].
    rewrite (makeSuffixStates_loop_S _ _ _ _ _ _ _ Hgt Htr Hla Hte Hta).
    destruct (mss_next_fields i' b trigger larva terminal target)
      as (Ht' & Hp' & Hl').
    destruct (IH (mss_next i' b trigger larva terminal target))
      as (b' & Hrun & Hsh' & Hpv & Hte').
    + unfold shape. rewrite Ht', Hp', Hl'. auto.
    + rewrite Hp'. lia.
    + exists b'. rewrite Hpv, Hte', Hp', Ht'. auto.
Qed.

Lemma commonPrefixLen_le a b :
  (commonPrefixLen a b <= length a)%nat /\
  (commonPrefixLen a b <= length b)%nat.
Proof.
  revert b. induction a as [|x a IH]; intros [|y b]; simpl; try lia.
  destruct (Byte.eqb x y); simpl; [|lia]. specialize (IH b). lia.
Qed.

(** A step on a greater value does not panic. *)
Lemma FromChannel_step_shape b value :
  shape b -> bytes_Compare (prevValue b) value = Lt ->
  exists b', FromChannel_step b value = Ok b' /\ shape b' /\
             prevValue b' = value.
Proof.
  intros Hsh Hlt. unfold FromChannel_step. rewrite Hlt.
  destruct (commonPrefixLen_le (prevValue b) value) as [Hp1 Hp2].
  destruct (makeSuffixStates_loop_shape (commonPrefixLen (prevValue b) value)
              (length (prevValue b)) b Hsh) as (b1 & Hrun & [Hl Ht] & Hpv & Hte);
    [lia|].
  unfold makeSuffixStates. rewrite Hrun. cbn [mbind result_bind].
  unfold slice_to, set_index.
  rewrite Hl, Ht, Hpv.
  replace (_ + 1 <=? S _)%nat with true by (symmetry; apply Nat.leb_le; lia).
  cbn [mbind result_bind].
  rewrite length_app, length_take, length_replicate, Ht, Hpv.
  replace (length value <? _)%nat with true by (symmetry; apply Nat.ltb_lt; lia).
  eexists. split; [reflexivity|]. split; [|reflexivity].
  unfold shape. cbn [larvae terminals prevValue].
  rewrite length_insert, !length_app, !length_take, !length_replicate.
  rewrite Hl, Ht, Hpv. lia.
Qed.

Lemma FromChannel_init_shape : shape FromChannel_init.
Proof. split; reflexivity. Qed.

Lemma FromChannel_loop_shape b values :
  shape b -> ascending (prevValue b) values ->
  exists b', FromChannel_loop b values = Ok b' /\ shape b' /\
             prevValue b' = default (prevValue b) (last values).
Proof.
  revert b. induction values as [|v values IH]; intros b Hsh Hasc.
  - exists b. simpl. auto.
  - destruct Hasc as [Hlt Hasc].
    destruct (FromChannel_step_shape b v Hsh Hlt) as (b1 & Hstep & Hsh1 & Hpv1).
    cbn [FromChannel_loop]. rewrite Hstep. cbn [mbind result_bind].
    destruct (IH b1 Hsh1) as (b' & Hrun & Hsh' & Hpv'); [now rewrite Hpv1|].
    exists b'. split; [assumption|]. split; [assumption|].
    now rewrite Hpv', Hpv1, last_cons_default.
Qed.

Lemma FromChannel_loop_app b l1 l2 :
  FromChannel_loop b (l1 ++ l2)
  = (FromChannel_loop b l1 ≫= fun b' => FromChannel_loop b' l2).
Proof.
  revert b. induction l1 as [|v l1 IH]; intros b; [reflexivity|].
  cbn [app FromChannel_loop].
  destruct (FromChannel_step b v) as [b1|p]; [apply IH|reflexivity].
Qed.

Lemma ascending_dec prev values :
  {ascending prev values} + {~ ascending prev values}.
Proof.
  revert prev. induction values as [|v values IH]; intros prev; simpl.
  - now left.
  - destruct (bytes_Compare prev v) eqn:E;
      try (right; intros [H _]; discriminate).
    destruct (IH v) as [Hy|Hn]; [left; auto | right; intros [_ H]; auto].
Qed.

(** The first violation of the order splits the input. *)
Lemma not_ascending_split prev values :
  ~ ascending prev values ->
  exists pre item post,
    values = pre ++ item :: post /\ ascending prev pre /\
    bytes_Compare (default prev (last pre)) item <> Lt.
Proof.
  revert prev. induction values as [|v values IH]; intros prev Hn.
  - now destruct Hn.
  - destruct (bytes_Compare prev v) eqn:E.
    + exists [], v, values. simpl. rewrite E. repeat split; discriminate.
    + destruct (IH v) as (pre & item & post & -> & Hasc & Hcmp).
      { intros H. apply Hn. now split. }
      exists (v :: pre), item, post. split; [reflexivity|].
      split; [now split|]. now rewrite last_cons_default.
    + exists [], v, values. simpl. rewrite E. repeat split; discriminate.
Qed.

(** C5. Ordering precondition enforcement. When the values before [item]
    are strictly ascending (the first one above the empty sequence) and
    [item] is not strictly greater than the value before it (equal to it
    included), [FromChannel] panics with the ordering violation of that
    pair, whatever follows on the channel, and returns no recogniser; and
    every input that is not strictly ascending has such a first item. *)
Theorem FromChannel_out_of_order
    (pre : list (list byte)) (item : list byte) (post : list (list byte)) :
  (ascending [] pre ->
   bytes_Compare (default [] (last pre)) item <> Lt ->
   FromChannel (pre ++ item :: post)
   = Panic (OutOfOrder (default [] (last pre)) item)) /\
  (forall values : list (list byte),
     ~ ascending [] values ->
     exists prev value,
       bytes_Compare prev value <> Lt /\
       FromChannel values = Panic (OutOfOrder prev value) /\
       forall m, FromChannel values <> Ok m).
Proof.
  assert (Hmain : forall pre item post,
    ascending [] pre ->
    bytes_Compare (default [] (last pre)) item <> Lt ->
    FromChannel (pre ++ item :: post)
    = Panic (OutOfOrder (default [] (last pre)) item)).
  { clear. intros pre item post Hasc Hcmp. unfold FromChannel.
    rewrite FromChannel_loop_app.
    destruct (FromChannel_loop_shape FromChannel_init pre
                FromChannel_init_shape Hasc) as (b & Hrun & Hsh & Hpv).
    rewrite Hrun. cbn [mbind result_bind FromChannel_loop].
    unfold FromChannel_step. rewrite Hpv.
    change (prevValue FromChannel_init) with (@nil byte).
    destruct (bytes_Compare (default [] (last pre)) item);
      [reflexivity | congruence | reflexivity]. }
  split; [apply Hmain|].
  intros values Hn.
  destruct (not_ascending_split [] values Hn)
    as (pre' & item' & post' & -> & Hasc & Hcmp).
  exists (default [] (last pre')), item'.
  rewrite (Hmain pre' item' post' Hasc Hcmp).
  split; [assumption|]. split; [reflexivity | discriminate].
Qed.

Lemma FromChannel_out_of_order_witness :
  FromChannel ([bytes_of "A"; bytes_of "B"] ++ bytes_of "B" :: [bytes_of "C"])
  = Panic (OutOfOrder (bytes_of "B") (bytes_of "B")).
Proof.
  apply (FromChannel_out_of_order [bytes_of "A"; bytes_of "B"]
           (bytes_of "B") [bytes_of "C"]).
  - simpl. auto.
  - simpl. discriminate.
Defined.

(** ** Small inputs *)

Lemma Recognizes_single_empty_state (x : list byte) :
  Recognizes [[]] x = Ok false.
Proof. destruct x; reflexivity. Qed.

Lemma FromChannel_not_empty values (r : Recognizer) :
  FromChannel values = Ok r -> r <> [].
Proof.
  unfold FromChannel, FromChannel_finish.
  destruct (FromChannel_loop FromChannel_init values) as [b|]; [|discriminate].
  cbn [mbind result_bind].
  destruct (makeSuffixStates 0 b) as [b1|]; [|discriminate].
  cbn [mbind result_bind].
  destruct (index (larvae b1) 0) as [root|]; [|discriminate].
  cbn [mbind result_bind].
  destruct (makeState b1 root) as [startId b2].
  destruct (Z.eqb_spec (Z.of_nat startId) (Z.of_nat (length (self b2)) - 1))
    as [Heq|]; [|discriminate].
  intros [= <-] Hnil. rewrite Hnil in Heq. simpl in Heq. lia.
Qed.

(** C9. Empty input. On a channel closed before any value, [FromChannel]
    returns the recogniser of one state with no transition; that
    recogniser recognises no sequence and its unconstrained enumeration
    sends nothing; and on no input does [FromChannel] return a recogniser
    without states. *)
Theorem FromChannel_empty_input :
  FromChannel [] = Ok [[]] /\
  (forall x : list byte, Recognizes [[]] x = Ok false) /\
  (forall fuel : nat, AllSequences [[]] (S fuel) = Some (Ok [])) /\
  (forall (values : list (list byte)) (r : Recognizer),
     FromChannel values = Ok r -> (0 < length r)%nat).
Proof.
  split; [reflexivity|]. split; [apply Recognizes_single_empty_state|].
  split; [reflexivity|].
  intros values r Hr. apply FromChannel_not_empty in Hr.
  destruct r; [congruence | simpl; lia].
Qed.

Lemma FromChannel_empty_input_witness :
  (0 < length [[]; [NewTransition "A" 0 true]])%nat.
Proof.
  destruct FromChannel_empty_input as (_ & _ & _ & H).
  apply (H [bytes_of "A"]). reflexivity.
Defined.

(** C1, at the input where the code departs from it. After the
    transition for a byte has been followed, a later byte without a
    transition ends the loop of [Recognizes], and the terminal flag of the
    last transition followed is returned: built from the one value "A",
    the recogniser accepts "AB", which was not stored. *)
Theorem Recognizes_accepts_unstored_extension :
  exists r : Recognizer,
    FromChannel [bytes_of "A"] = Ok r /\
    ~ In (bytes_of "AB") [bytes_of "A"] /\
    Recognizes r (bytes_of "AB") = Ok true.
Proof.
  exists [[]; [NewTransition "A" 0 true]].
  split; [reflexivity|]. split; [|reflexivity].
  intros [H|[]]. discriminate.
Qed.

(** C6, at the input where the code departs from it. [IsSmallEnough] is
    asked only before a descent, never for the first level: with the
    window from 0 to 0 the recogniser built from "A" still sends "A",
    whose length 1 is outside the window. *)
Theorem ConstrainedSequences_ignores_max_at_depth_one :
  exists r : Recognizer,
    FromChannel [bytes_of "A"] = Ok r /\
    filter (fun s : list byte => 0 <= Z.of_nat (length s) <= 0)
      [bytes_of "A"] = [] /\
    IsSmallEnough (SizeConstraint 0 0) 1 = false /\
    ConstrainedSequences r (SizeConstraint 0 0) 4 = Some (Ok [bytes_of "A"]).
Proof.
  exists [[]; [NewTransition "A" 0 true]].
  repeat split.
Qed.

(** ** The traversal *)

Lemma prepend_nil r : prepend [] r = r.
Proof. now destruct r as [[|]|]. Qed.

Lemma prepend_app a b r : prepend (a ++ b) r = prepend a (prepend b r).
Proof. destruct r as [[|]|]; simpl; try reflexivity. now rewrite app_assoc. Qed.

Section Traversal.

Variable self : Recognizer.
Variable con : Constraints.

Lemma ConstrainedSequences_loop_S fuel path :
  ConstrainedSequences_loop self con (S fuel) path
  = let path := popExhausted con path in
    if (length path =? 0)%nat then Some (Ok [])
    else match ConstrainedSequences_body self con path with
         | Panic p => Some (Panic p)
         | Ok (out, path') =>
             prepend out (ConstrainedSequences_loop self con fuel path')
         end.
Proof. reflexivity. Qed.

(** The loop sees the path only through [popExhausted]. *)
Lemma ConstrainedSequences_loop_pop fuel path path' :
  popExhausted con path = popExhausted con path' ->
  ConstrainedSequences_loop self con fuel path
  = ConstrainedSequences_loop self con fuel path'.
Proof.
  intros H. destruct fuel; [reflexivity|].
  now rewrite !ConstrainedSequences_loop_S, H.
Qed.

Lemma popExhausted_loop_S path size :
  popExhausted_loop con path (S size)
  = match path !! size with
    | Some n =>
        if Exhausted n then
          match size with
          | O => popExhausted_loop con path size
          | S j =>
              match path !! j with
              | Some m =>
                  popExhausted_loop con
                    (<[j := advanceUntilAllowed con j (Advance m)]> path) size
              | None => (path, S size)
              end
          end
        else (path, S size)
    | None => (path, S size)
    end.
Proof. reflexivity. Qed.

Lemma popExhausted_loop_bounds path size :
  length (popExhausted_loop con path size).1 = length path /\
  ((popExhausted_loop con path size).2 <= size)%nat.
Proof.
  revert path. induction size as [|size IH]; intros path; [simpl; lia|].
  cbn [popExhausted_loop].
  destruct (path !! size) as [n|]; [|simpl; lia].
  destruct (Exhausted n); [|simpl; lia].
  destruct size as [|j].
  - simpl. lia.
  - destruct (path !! j) as [m|]; [|simpl; lia].
    destruct (IH (<[j := advanceUntilAllowed con j (Advance m)]> path)) as [H1 H2].
    rewrite length_insert in H1. split; [assumption | lia].
Qed.

Lemma popExhausted_loop_app path extra size :
  (size <= length path)%nat ->
  popExhausted_loop con (path ++ extra) size
  = ((popExhausted_loop con path size).1 ++ extra,
     (popExhausted_loop con path size).2).
Proof.
  revert path. induction size as [|size IH]; intros path Hsize; [reflexivity|].
  cbn [popExhausted_loop].
  rewrite lookup_app_l by lia.
  destruct (path !! size) as [n|]; [|reflexivity].
  destruct (Exhausted n); [|reflexivity].
  destruct size as [|j].
  - reflexivity.
  - rewrite lookup_app_l by lia.
    destruct (path !! j) as [m|]; [|reflexivity].
    rewrite insert_app_l by lia.
    apply IH. rewrite length_insert. lia.
Qed.

Lemma popExhausted_live path s c :
  (c < length s)%nat ->
  popExhausted con (path ++ [mkPathNode s c]) = path ++ [mkPathNode s c].
Proof.
  intros Hc. unfold popExhausted. rewrite length_app. simpl length.
  replace (length path + 1)%nat with (S (length path)) by lia.
  cbn [popExhausted_loop].
  rewrite list_lookup_middle by reflexivity.
  unfold Exhausted. simpl.
  replace (length s <=? c)%nat with false by (symmetry; apply Nat.leb_gt; lia).
  rewrite firstn_all2; [reflexivity|]. rewrite length_app. simpl. lia.
Qed.

Lemma popExhausted_single s c :
  (length s <= c)%nat -> popExhausted con [mkPathNode s c] = [].
Proof.
  intros Hc. unfold popExhausted. simpl. unfold Exhausted. simpl.
  now replace (length s <=? c)%nat with true by (symmetry; apply Nat.leb_le; lia).
Qed.

(** Popping an exhausted node advances the node below it. *)
Lemma popExhausted_pop path m n :
  Exhausted n = true ->
  popExhausted con ((path ++ [m]) ++ [n])
  = popExhausted con
      (path ++ [advanceUntilAllowed con (length path) (Advance m)]).
Proof.
  intros Hn. unfold popExhausted at 1.
  rewrite !length_app. simpl length.
  replace (length path + 1 + 1)%nat with (S (S (length path))) by lia.
  rewrite popExhausted_loop_S.
  rewrite (list_lookup_middle (path ++ [m]) [] n) by (rewrite length_app; simpl; lia).
  rewrite Hn.
  rewrite lookup_app_l by (rewrite length_app; simpl; lia).
  rewrite (list_lookup_middle path [] m) by reflexivity.
  rewrite insert_app_l by (rewrite length_app; simpl; lia).
  rewrite (insert_app_r_alt path) by lia.
  replace (length path - length path)%nat with 0%nat by lia. simpl insert.
  set (x := advanceUntilAllowed con (length path) (Advance m)).
  rewrite popExhausted_loop_app by (rewrite length_app; simpl; lia).
  unfold popExhausted. rewrite length_app. simpl length.
  replace (length path + 1)%nat with (S (length path)) by lia.
  destruct (popExhausted_loop_bounds (path ++ [x]) (S (length path))) as [H1 H2].
  destruct (popExhausted_loop con (path ++ [x]) (S (length path))) as [p sz].
  simpl in *. rewrite length_app in H1. simpl in H1.
  rewrite take_app_le by lia. reflexivity.
Qed.

Lemma advanceLastUntilAllowed_snoc path n :
  advanceLastUntilAllowed con (path ++ [n])
  = path ++ [advanceUntilAllowed con (length path) n].
Proof.
  unfold advanceLastUntilAllowed. rewrite length_app. simpl length.
  replace (length path + 1 - 1)%nat with (length path) by lia.
  rewrite list_lookup_middle by reflexivity.
  rewrite (insert_app_r_alt path) by lia.
  now replace (length path - length path)%nat with 0%nat by lia.
Qed.

Lemma advanceUntilAllowed_norm d s c :
  advanceUntilAllowed con d (mkPathNode s c) = mkPathNode s (norm con d s c).
Proof. reflexivity. Qed.

Lemma getBytes_snoc path prefix s c t :
  getBytes path = Ok prefix -> s !! c = Some t ->
  getBytes (path ++ [mkPathNode s c]) = Ok (prefix ++ [Trigger t]).
Proof.
  revert prefix. induction path as [|n path IH]; intros prefix Hp Hc.
  - injection Hp as <-. simpl. unfold CurrentTransition, index. simpl.
    now rewrite Hc.
  - simpl in *. destruct (CurrentTransition n) as [t'|]; [|discriminate].
    simpl in *. destruct (getBytes path) as [bs|]; [|discriminate].
    simpl in *. injection Hp as <-.
    now rewrite (IH bs eq_refl Hc).
Qed.

Lemma getBytes_length path prefix :
  getBytes path = Ok prefix -> length prefix = length path.
Proof.
  revert prefix. induction path as [|n path IH]; intros prefix Hp.
  - now injection Hp as <-.
  - simpl in *. destruct (CurrentTransition n) as [t'|]; [|discriminate].
    simpl in *. destruct (getBytes path) as [bs|]; [|discriminate].
    simpl in *. injection Hp as <-. simpl. now rewrite (IH bs).
Qed.

Lemma norm_spec d s c :
  (c <= length s)%nat ->
  settled con d s (norm con d s c) /\ (c <= norm con d s c)%nat /\
  forall g : transition -> list (list byte),
    (forall t, IsValueAllowed con (Z.of_nat d) (Trigger t) = false -> g t = []) ->
    flat_map g (drop c s) = flat_map g (drop (norm con d s c) s).
Proof.
  unfold norm, settled.
  remember (length s - c)%nat as k eqn:Hk.
  revert c Hk. induction k as [|k IH]; intros c Hk Hc.
  - rewrite drop_ge by lia. simpl. split; [|split; [lia|]].
    + split; [lia|]. intros t Ht. apply lookup_lt_Some in Ht. lia.
    + intros g _. now rewrite drop_ge by lia.
  - destruct (lookup_lt_is_Some_2 s c) as [t Ht]; [lia|].
    rewrite (drop_S _ _ _ Ht). cbn [AdvanceUntilAllowed_loop].
    destruct (IsValueAllowed con (Z.of_nat d) (Trigger t)) eqn:Hall.
    + split; [|split; [lia|]].
      * split; [lia|]. intros t' Ht'. congruence.
      * intros g _. now rewrite (drop_S _ _ _ Ht).
    + destruct (IH (c + 1)%nat) as (Hs & Hle & Heq); [lia | lia |].
      replace (S c) with (c + 1)%nat by lia.
      split; [assumption|]. split; [lia|].
      intros g Hg. cbn [flat_map]. rewrite (Hg t Hall). simpl. now apply Heq.
Qed.

Lemma enum_edge_not_allowed rec prefix t :
  IsValueAllowed con (Z.of_nat (length prefix)) (Trigger t) = false ->
  enum_edge self con rec prefix t = [].
Proof. unfold enum_edge. now intros ->. Qed.

(** One turn of the main loop on a path whose last cursor is on an
    allowed transition [t] leading to the state [next]. *)
Lemma ConstrainedSequences_body_step path prefix s c t next :
  getBytes path = Ok prefix ->
  s !! c = Some t ->
  self !! Z.to_nat (ToState t) = Some next ->
  IsValueAllowed con (Z.of_nat (length prefix)) (Trigger t) = true ->
  exists out path',
    ConstrainedSequences_body self con (path ++ [mkPathNode s c])
    = Ok (out, path') /\
    (forall rec, enum_edge self con rec prefix t
       = out ++ (if (negb (IsEmpty next)
                     && IsSmallEnough con
                          (Z.of_nat (length (prefix ++ [Trigger t])) + 1))%bool
                 then rec (prefix ++ [Trigger t]) next else [])) /\
    path' = (if (negb (IsEmpty next)
                 && IsSmallEnough con
                      (Z.of_nat (length (prefix ++ [Trigger t])) + 1))%bool
             then (path ++ [mkPathNode s c])
                  ++ [mkPathNode next (norm con (S (length path)) next 0)]
             else path
                  ++ [mkPathNode s (norm con (length path) s (c + 1))]).
Proof.
  intros Hp Hc Hnext Hallowed.
  pose proof (getBytes_length _ _ Hp) as Hlen.
  unfold ConstrainedSequences_body, enum_edge.
  rewrite !length_app. simpl length. rewrite Hlen in *.
  replace (length path + 1 - 1)%nat with (length path) by lia.
  assert (Hlast : (path ++ [mkPathNode s c]) !! length path
                  = Some (mkPathNode s c))
    by (apply list_lookup_middle; reflexivity).
  rewrite (index_lookup _ _ _ Hlast).
  cbn [mbind result_bind]. unfold CurrentTransition at 1. cbn [pn_s pn_c].
  rewrite (index_lookup _ _ _ Hc). cbn [mbind result_bind].
  rewrite (getBytes_snoc _ _ _ _ _ Hp Hc).
  rewrite (index_lookup _ _ _ Hnext).
  rewrite Hallowed, Hnext. cbn [default from_option id].
  destruct (IsTerminal t && IsLargeEnough con _)%bool;
    cbn [mbind result_bind];
    destruct (negb (IsEmpty next) && IsSmallEnough con _)%bool;
    eexists; eexists;
    (split; [reflexivity|]); (split; [reflexivity|]).
  all: try (rewrite advanceLastUntilAllowed_snoc, advanceUntilAllowed_norm;
            rewrite length_app; simpl length;
            now replace (length path + 1)%nat with (S (length path)) by lia).
  all: rewrite (insert_app_r_alt path) by lia;
       replace (length path - length path)%nat with 0%nat by lia;
       simpl insert; unfold Advance; simpl;
       now rewrite advanceLastUntilAllowed_snoc, advanceUntilAllowed_norm.
Qed.

Hypothesis Hwf : wf_rec self.

(** From a settled cursor [c] of a state whose destinations are below
    [i], the loop sends what [enum] lists for the transitions from [c] on,
    and comes to the path with that cursor at the end of the state. *)
Lemma traverse_state (i : nat) :
  forall (s : state) (F : nat),
    Forall (fun t => (Z.to_nat (ToState t) < i)%nat) s ->
    (i <= F)%nat -> (i <= length self)%nat ->
    forall c path prefix,
      getBytes path = Ok prefix ->
      settled con (length path) s c ->
      exists k, forall n,
        ConstrainedSequences_loop self con (k + n) (path ++ [mkPathNode s c])
        = prepend
            (flat_map (enum_edge self con (enum self con F) prefix) (drop c s))
            (ConstrainedSequences_loop self con n
               (path ++ [mkPathNode s (length s)])).
Proof.
  induction i as [i IHi] using lt_wf_ind.
  intros s F Hs HF Hi c path prefix Hp Hset.
  pose proof (getBytes_length _ _ Hp) as Hlen.
  assert (Hm : (length s - c <= length s)%nat) by lia.
  revert Hm Hset. generalize (length s) at 2 as m. intros m. revert c.
  induction m as [|m IHm]; intros c Hm [Hc Hall].
  - exists 0%nat. intros n. replace c with (length s) by lia.
    rewrite drop_all. simpl. now rewrite prepend_nil.
  - destruct (Nat.eq_dec c (length s)) as [->|Hne].
    { exists 0%nat. intros n. rewrite drop_all. simpl. now rewrite prepend_nil. }
    destruct (lookup_lt_is_Some_2 s c) as [t Ht]; [lia|].
    specialize (Hall t Ht).
    assert (Hdest : (Z.to_nat (ToState t) < i)%nat).
    { rewrite Forall_forall in Hs. eapply Hs, list_elem_of_lookup_2, Ht. }
    destruct (lookup_lt_is_Some_2 self (Z.to_nat (ToState t)))
      as [next Hnext]; [lia|].
    rewrite <- Hlen in Hall.
    destruct (ConstrainedSequences_body_step path prefix s c t next
                Hp Ht Hnext Hall) as (out & path' & Hbody & Hedge & Hpath').
    (* the rest of this state, from the next settled cursor *)
    destruct (norm_spec (length path) s (c + 1)) as (Hset2 & Hle2 & Heq2); [lia|].
    destruct (IHm (norm con (length path) s (c + 1))) as [k2 Hk2];
      [destruct Hset2; lia | exact Hset2 |].
    rewrite (drop_S _ _ _ Ht). cbn [flat_map].
    replace (S c) with (c + 1)%nat by lia.
    rewrite (Heq2 (enum_edge self con (enum self con F) prefix))
      by (intros t' Ht'; apply enum_edge_not_allowed; now rewrite Hlen).
    rewrite (Hedge (enum self con F)).
    destruct (negb (IsEmpty next) && _)%bool eqn:Hcond.
    + (* descend into [next] *)
      destruct F as [|F']; [lia|].
      destruct (norm_spec (S (length path)) next 0) as (Hset1 & _ & Heq1); [lia|].
      destruct (IHi (Z.to_nat (ToState t)) Hdest next F' (Hwf _ _ Hnext))
        with (c := norm con (S (length path)) next 0)
             (path := path ++ [mkPathNode s c])
             (prefix := prefix ++ [Trigger t]) as [k1 Hk1];
        [lia | lia | now apply getBytes_snoc
        | rewrite length_app; simpl length;
          now replace (length path + 1)%nat with (S (length path)) by lia |].
      exists (S (k1 + k2)). intros n.
      replace (S (k1 + k2) + n)%nat with (S (k1 + (k2 + n))) by lia.
      rewrite ConstrainedSequences_loop_S. cbv zeta.
      rewrite popExhausted_live by lia.
      rewrite length_app. simpl length.
      replace (length path + 1 =? 0)%nat with false
        by (symmetry; apply Nat.eqb_neq; lia).
      rewrite Hbody, Hpath', Hk1.
      rewrite (ConstrainedSequences_loop_pop _ _
                 (path ++ [mkPathNode s (norm con (length path) s (c + 1))])).
      2:{ rewrite popExhausted_pop
            by (unfold Exhausted; simpl; apply Nat.leb_le; lia).
          reflexivity. }
      rewrite Hk2.
      cbn [enum].
      rewrite <- (Heq1 (enum_edge self con (enum self con F')
                          (prefix ++ [Trigger t]))).
      2:{ intros t' Ht'. apply enum_edge_not_allowed.
          rewrite length_app. simpl length.
          now replace (length prefix + 1)%nat with (S (length path)) by lia. }
      rewrite drop_0. now rewrite !prepend_app.
    + (* the next sibling *)
      exists (S k2). intros n.
      replace (S k2 + n)%nat with (S (k2 + n)) by lia.
      rewrite ConstrainedSequences_loop_S. cbv zeta.
      rewrite popExhausted_live by lia.
      rewrite length_app. simpl length.
      replace (length path + 1 =? 0)%nat with false
        by (symmetry; apply Nat.eqb_neq; lia).
      rewrite Hbody, Hpath', Hk2.
      rewrite app_nil_r. now rewrite !prepend_app.
Qed.

(** The enumeration of a well-formed recogniser, given enough fuel. *)
Lemma ConstrainedSequences_enum start :
  Start self = Ok start ->
  exists k, forall fuel, (k <= fuel)%nat ->
    ConstrainedSequences self con fuel
    = Some (Ok (enum self con (length self) [] start)).
Proof.
  intros Hstart. unfold ConstrainedSequences. rewrite Hstart.
  unfold Start in Hstart.
  destruct (length self) as [|i] eqn:Hlen; [discriminate|].
  unfold index in Hstart.
  destruct (self !! i) as [s|] eqn:Hs; [|discriminate].
  injection Hstart as ->.
  destruct (norm_spec 0 start 0) as (Hset & _ & Heq); [lia|].
  destruct (traverse_state i start i (Hwf _ _ Hs)) with
    (c := norm con 0 start 0) (path := @nil pathNode) (prefix := @nil byte)
    as [k Hk]; [lia | lia | reflexivity | exact Hset |].
  exists (k + 1)%nat. intros fuel Hfuel.
  replace fuel with (k + (fuel - k))%nat by lia.
  change [mkPathNode start 0] with ([] ++ [mkPathNode start 0]).
  rewrite advanceLastUntilAllowed_snoc, advanceUntilAllowed_norm.
  simpl length. rewrite Hk.
  destruct (fuel - k)%nat as [|n] eqn:Hn; [lia|].
  rewrite ConstrainedSequences_loop_S. cbv zeta. simpl app.
  rewrite popExhausted_single by lia. simpl.
  rewrite app_nil_r.
  rewrite <- (Heq (enum_edge self con (enum self con i) []))
    by (intros t' Ht'; now apply enum_edge_not_allowed).
  now rewrite drop_0.
Qed.

End Traversal.

(** ** Languages of states *)

Lemma table_snoc r s :
  table (r ++ [s]) = table r ++ [state_lang (table r) s].
Proof. unfold table. now rewrite foldl_app. Qed.

Lemma table_length r : length (table r) = length r.
Proof.
  induction r as [|s r IH] using rev_ind; [reflexivity|].
  rewrite table_snoc, !length_app, IH. reflexivity.
Qed.

Lemma edge_lang_ext tbl extra t :
  (Z.to_nat (ToState t) < length tbl)%nat ->
  edge_lang (tbl ++ extra) t = edge_lang tbl t.
Proof. intros Ht. unfold edge_lang. now rewrite lookup_app_l. Qed.

Lemma state_lang_ext tbl extra s :
  Forall (fun t => (Z.to_nat (ToState t) < length tbl)%nat) s ->
  state_lang (tbl ++ extra) s = state_lang tbl s.
Proof.
  unfold state_lang. induction 1 as [|t s Ht _ IH]; [reflexivity|].
  cbn [flat_map]. now rewrite IH, edge_lang_ext.
Qed.

Lemma state_lang_app tbl s1 s2 :
  state_lang tbl (s1 ++ s2) = state_lang tbl s1 ++ state_lang tbl s2.
Proof. unfold state_lang. apply flat_map_app. Qed.

Lemma wf_rec_snoc r s :
  wf_rec (r ++ [s]) ->
  wf_rec r /\ Forall (fun t => (Z.to_nat (ToState t) < length r)%nat) s.
Proof.
  intros H. split.
  - intros i s' Hi. apply H. rewrite lookup_app_l; [assumption|].
    now apply lookup_lt_Some in Hi.
  - apply H. now rewrite list_lookup_middle.
Qed.

Lemma Forall_dest_mono (i j : nat) (s : state) :
  (i <= j)%nat ->
  Forall (fun t => (Z.to_nat (ToState t) < i)%nat) s ->
  Forall (fun t => (Z.to_nat (ToState t) < j)%nat) s.
Proof.
  intros Hij H. eapply Forall_impl; [exact H|]. intros t Ht. simpl in *. lia.
Qed.

(** The table holds the language of each state, read in the table. *)
Lemma table_lookup r i s :
  wf_rec r -> r !! i = Some s ->
  table r !! i = Some (state_lang (table r) s).
Proof.
  revert i s. induction r as [|s' r IH] using rev_ind; intros i s Hwf Hi.
  - discriminate.
  - destruct (wf_rec_snoc _ _ Hwf) as [Hwf' Hs'].
    rewrite table_snoc.
    destruct (Nat.lt_ge_cases i (length r)) as [Hlt|Hge].
    + rewrite lookup_app_l in Hi by assumption.
      rewrite lookup_app_l by now rewrite table_length.
      rewrite (IH _ _ Hwf' Hi). f_equal. symmetry. apply state_lang_ext.
      rewrite table_length.
      apply (Forall_dest_mono i); [lia|]. now apply Hwf'.
    + pose proof (lookup_lt_Some _ _ _ Hi) as Hlen.
      rewrite length_app in Hlen. simpl in Hlen.
      assert (i = length r) as -> by lia.
      rewrite list_lookup_middle in Hi by reflexivity. injection Hi as ->.
      rewrite list_lookup_middle by now rewrite table_length.
      f_equal. symmetry. apply state_lang_ext. now rewrite table_length.
Qed.

(** Without constraints the traversal of a state lists its language. *)
Lemma enum_base_lang r (i : nat) :
  wf_rec r ->
  forall (s : state) (F : nat) prefix,
    Forall (fun t => (Z.to_nat (ToState t) < i)%nat) s ->
    (i <= F)%nat -> (i <= length r)%nat ->
    flat_map (enum_edge r BaseConstraints (enum r BaseConstraints F) prefix) s
    = map (app prefix) (state_lang (table r) s).
Proof.
  intros Hwf. induction i as [i IHi] using lt_wf_ind.
  intros s F prefix Hs HF Hi. unfold state_lang.
  induction Hs as [|t s Ht Hs IH]; [reflexivity|].
  cbn [flat_map]. rewrite map_app, IH. f_equal.
  destruct (lookup_lt_is_Some_2 r (Z.to_nat (ToState t))) as [next Hnext]; [lia|].
  unfold enum_edge, edge_lang. cbn [BaseConstraints IsValueAllowed
    IsLargeEnough IsSequenceAllowed IsSmallEnough].
  rewrite Hnext, (table_lookup _ _ _ Hwf Hnext). cbn [default from_option id].
  rewrite Bool.andb_true_r, map_app.
  f_equal.
  - destruct (IsTerminal t); [|reflexivity]. reflexivity.
  - rewrite map_map.
    destruct (IsEmpty next) eqn:Hemp; cbn [negb andb].
    + destruct next; [reflexivity | discriminate].
    + destruct F as [|F']; [lia|]. cbn [enum].
      rewrite (IHi (Z.to_nat (ToState t)) Ht next F' (prefix ++ [Trigger t]));
        [| now apply Hwf | lia | lia].
      apply map_ext. intros x. now rewrite <- app_assoc.
Qed.

(** ** Adding a transition above the others *)

Lemma Search_loop_all_false fuel i j f :
  (forall x, (i <= x < j)%nat -> f x = false) ->
  (i <= j)%nat -> (j - i <= fuel)%nat ->
  Search_loop fuel i j f = j.
Proof.
  revert i. induction fuel as [|fuel IH]; intros i Hf Hij Hfuel.
  - simpl. lia.
  - cbn [Search_loop].
    destruct (Nat.ltb_spec i j) as [Hlt|Hge]; [|lia].
    assert (Hh : (i <= (i + j) / 2 < j)%nat).
    { split.
      - apply Nat.div_le_lower_bound; lia.
      - apply Nat.Div0.div_lt_upper_bound; lia. }
    rewrite (Hf _ Hh). cbn [negb].
    apply IH; [intros x Hx; apply Hf; lia | lia | lia].
Qed.

Lemma AddTransition_append (s : state) (t : transition) :
  Forall (fun x => x < t) s -> AddTransition s t = s ++ [t].
Proof.
  intros Hs. unfold AddTransition, Search.
  rewrite (Search_loop_all_false (length s) 0 (length s)); [| |lia|lia].
  - rewrite Nat.ltb_irrefl. cbn [andb].
    rewrite take_app_length, drop_app_length. reflexivity.
  - intros x Hx. apply Z.leb_gt.
    rewrite Forall_forall in Hs. apply Hs.
    apply list_elem_of_In, nth_In. lia.
Qed.

Lemma Trigger_lt (t1 t2 : transition) :
  is_uint32 t1 -> is_uint32 t2 ->
  Z_of_byte (Trigger t1) < Z_of_byte (Trigger t2) -> t1 < t2.
Proof.
  intros H1 H2. rewrite !Trigger_uint32 by assumption.
  unfold is_uint32 in *. intros Hlt.
  destruct (Z.lt_ge_cases t1 t2) as [|Hge]; [assumption|].
  apply (Z.div_le_mono _ _ (2 ^ 24)) in Hge; lia.
Qed.

(** ** Fingerprints *)

Lemma concat_be32_inj (s1 s2 : state) :
  Forall is_uint32 s1 -> Forall is_uint32 s2 ->
  concat (map be32 s1) = concat (map be32 s2) -> s1 = s2.
Proof.
  intros H1. revert s2. induction H1 as [|t1 s1 Ht1 _ IH]; intros s2 H2 Heq.
  - destruct s2; [reflexivity | discriminate].
  - destruct H2 as [|t2 s2 Ht2 H2]; [discriminate|].
    cbn [map concat be32 app] in Heq.
    injection Heq as E0 E1 E2 E3 Erest.
    f_equal; [|now apply IH].
    rewrite <- (u32_of_be_be32 t1 Ht1), <- (u32_of_be_be32 t2 Ht2).
    now rewrite E0, E1, E2, E3.
Qed.

Lemma Fingerprint_inj (s1 s2 : state) :
  Forall is_uint32 s1 -> Forall is_uint32 s2 ->
  Fingerprint s1 = Fingerprint s2 -> s1 = s2.
Proof.
  intros H1 H2 Heq. apply concat_be32_inj; try assumption.
  unfold Fingerprint in Heq.
  apply (f_equal list_byte_of_string) in Heq.
  now rewrite !list_byte_of_string_of_list_byte in Heq.
Qed.

(** ** The common prefix of two ordered values *)

Lemma bytes_Compare_Lt (w v : list byte) :
  bytes_Compare w v = Lt ->
  let p := commonPrefixLen w v in
  take p v = take p w /\ (p < length v)%nat /\
  forall x, w !! p = Some x ->
    exists y, v !! p = Some y /\ Z_of_byte x < Z_of_byte y.
Proof.
  revert v. induction w as [|a w IH]; intros [|b v] H; simpl in *;
    try discriminate.
  - repeat split; [lia | discriminate].
  - destruct (Z.compare_spec (Z_of_byte a) (Z_of_byte b)) as [Heq|Hlt|Hgt];
      try discriminate.
    + apply Z_of_byte_inj in Heq. subst b.
      replace (Byte.eqb a a) with true
        by (symmetry; now apply Byte.byte_dec_lb).
      destruct (IH v H) as (Ht & Hl & Hx). simpl.
      repeat split; [now rewrite Ht | lia | assumption].
    + destruct (Byte.eqb a b) eqn:E.
      { apply Byte.byte_dec_bl in E. subst. lia. }
      simpl. repeat split; [lia|].
      intros x [= <-]. eauto.
Qed.

(** ** Interning a state *)

Lemma valid_state_mono (i j : nat) (s : state) :
  (i <= j)%nat -> valid_state i s -> valid_state j s.
Proof.
  intros Hij H. eapply Forall_impl; [exact H|].
  intros t [H1 H2]. simpl in *. split; [assumption | lia].
Qed.

Lemma valid_state_uint32 i s : valid_state i s -> Forall is_uint32 s.
Proof. intros H. eapply Forall_impl; [exact H|]. now intros t [H1 _]. Qed.

Lemma valid_state_dest i s :
  valid_state i s -> Forall (fun t => (Z.to_nat (ToState t) < i)%nat) s.
Proof. intros H. eapply Forall_impl; [exact H|]. now intros t [_ H2]. Qed.

Lemma Store_wf_rec b : Store b -> wf_rec (self b).
Proof.
  intros H i s Hi. eapply valid_state_dest, store_valid; eassumption.
Qed.

(** [makeState] returns the index of a state equal to [s], appending [s]
    when the table of fingerprints does not have it. *)
Lemma makeState_spec b s :
  Store b -> valid_state (length (self b)) s ->
  exists id b1,
    makeState b s = (id, b1) /\
    terminals b1 = terminals b /\ larvae b1 = larvae b /\
    prevValue b1 = prevValue b /\
    Store b1 /\ self b1 !! id = Some s /\
    ((self b1 = self b /\ (id < length (self b))%nat) \/
     (self b1 = self b ++ [s] /\ id = length (self b) /\
      states b !! Fingerprint s = None)).
Proof.
  intros Hst Hs. unfold makeState.
  destruct (states b !! Fingerprint s) as [id|] eqn:Hlook.
  - exists id, b. split; [reflexivity|]. do 3 (split; [reflexivity|]).
    split; [assumption|]. split.
    + destruct (store_map2 b Hst _ _ Hlook) as (s' & Hs' & Hfp).
      rewrite Hs'. f_equal. symmetry. apply Fingerprint_inj; try assumption.
      * eapply valid_state_uint32; eassumption.
      * eapply valid_state_uint32, store_valid; eassumption.
    + left. split; [reflexivity|].
      destruct (store_map2 b Hst _ _ Hlook) as (s' & Hs' & _).
      eapply lookup_lt_Some; eassumption.
  - eexists _, _. split; [reflexivity|]. cbn [terminals larvae prevValue self states].
    do 3 (split; [reflexivity|]).
    split; [split|split].
    + intros i s' Hi. cbn [states self] in *.
      destruct (Nat.lt_ge_cases i (length (self b))) as [Hlt|Hge].
      * rewrite lookup_app_l in Hi by assumption.
        eapply store_valid; eassumption.
      * pose proof (lookup_lt_Some _ _ _ Hi) as Hlen.
        rewrite length_app in Hlen. simpl in Hlen.
        assert (i = length (self b)) as -> by lia.
        rewrite list_lookup_middle in Hi by reflexivity.
        now injection Hi as <-.
    + intros i s' Hi. cbn [states self] in *.
      destruct (Nat.lt_ge_cases i (length (self b))) as [Hlt|Hge].
      * rewrite lookup_app_l in Hi by assumption.
        pose proof (store_map1 b Hst _ _ Hi) as Hm.
        rewrite lookup_insert_ne; [assumption|]. congruence.
      * pose proof (lookup_lt_Some _ _ _ Hi) as Hlen.
        rewrite length_app in Hlen. simpl in Hlen.
        assert (i = length (self b)) as -> by lia.
        rewrite list_lookup_middle in Hi by reflexivity.
        injection Hi as <-. apply lookup_insert_eq.
    + intros k i Hk. cbn [states self] in *.
      destruct (decide (Fingerprint s = k)) as [<-|Hne].
      * rewrite lookup_insert_eq in Hk. injection Hk as <-.
        exists s. split; [now apply list_lookup_middle | reflexivity].
      * rewrite lookup_insert_ne in Hk by assumption.
        destruct (store_map2 b Hst _ _ Hk) as (s' & Hs' & Hfp).
        exists s'. split; [|assumption].
        rewrite lookup_app_l; [assumption|]. eapply lookup_lt_Some; eassumption.
    + now apply list_lookup_middle.
    + right. auto.
Qed.

(** ** The language of the chain of larvae *)

Lemma chainLang_ext (tbl extra : list (list (list byte))) Ls ts bs :
  Forall (valid_state (length tbl)) Ls ->
  chainLang (tbl ++ extra) Ls ts bs = chainLang tbl Ls ts bs.
Proof.
  intros HLs. revert ts bs.
  induction HLs as [|L Ls HL _ IH]; intros ts bs; [reflexivity|].
  cbn [chainLang]. rewrite state_lang_ext by now apply valid_state_dest.
  destruct ts as [|t ts]; [reflexivity|].
  destruct bs as [|b bs]; [reflexivity|]. now rewrite IH.
Qed.

Lemma chainLang_cons tbl (L : state) Ls (t : bool) ts (b : byte) bs :
  chainLang tbl (L :: Ls) (t :: ts) (b :: bs)
  = state_lang tbl L
    ++ map (cons b) ((if t then [[]] else []) ++ chainLang tbl Ls ts bs).
Proof. reflexivity. Qed.

(** Freezing the last larva [B] of the chain into a transition [e] of
    the larva [A] before it. *)
Lemma chainLang_collapse tbl (F : list state) (A B : state) (ts0 : list bool)
    (t : bool) (bs0 : list byte) (b : byte) (e : transition) :
  length ts0 = length F -> length bs0 = length F ->
  edge_lang tbl e
  = (if t then [[b]] else []) ++ map (cons b) (state_lang tbl B) ->
  chainLang tbl (F ++ [A; B]) (ts0 ++ [t]) (bs0 ++ [b])
  = chainLang tbl (F ++ [A ++ [e]]) ts0 bs0.
Proof.
  intros Hts Hbs He. revert ts0 bs0 Hts Hbs.
  induction F as [|L F IH]; intros ts0 bs0 Hts Hbs.
  - destruct ts0; [|discriminate]. destruct bs0; [|discriminate].
    cbn [app chainLang].
    rewrite state_lang_app. unfold state_lang at 4. cbn [flat_map].
    rewrite He, !app_nil_r, map_app.
    f_equal. f_equal. now destruct t.
  - destruct ts0 as [|t0 ts0]; [discriminate|].
    destruct bs0 as [|b0 bs0]; [discriminate|].
    cbn [app chainLang]. rewrite IH by (simpl in *; lia). reflexivity.
Qed.

Lemma chainLang_fresh tbl (A : state) (k : nat) (u : list byte) :
  length u = S k ->
  chainLang tbl (A :: replicate (S k) []) (replicate k false ++ [true]) u
  = state_lang tbl A ++ [u].
Proof.
  revert A u. induction k as [|k IH]; intros A u Hu.
  - destruct u as [|b [|? ?]]; try discriminate. reflexivity.
  - destruct u as [|b u]; [discriminate|].
    change (replicate (S (S k)) (@nil Z)) with ([] :: replicate (S k) (@nil Z)).
    change (replicate (S k) false ++ [true])
      with (false :: (replicate k false ++ [true])).
    rewrite chainLang_cons, IH by (simpl in Hu; lia). reflexivity.
Qed.

(** Extending the chain with fresh larvae for the bytes [u] of a new
    value adds that value at the end of the language. *)
Lemma chainLang_extend tbl (F : list state) (A : state) (ts0 : list bool)
    (bs0 u : list byte) (k : nat) :
  length ts0 = length F -> length bs0 = length F -> length u = S k ->
  chainLang tbl (F ++ [A] ++ replicate (S k) [])
    (ts0 ++ replicate k false ++ [true]) (bs0 ++ u)
  = chainLang tbl (F ++ [A]) ts0 bs0 ++ [bs0 ++ u].
Proof.
  intros Hts Hbs Hu. revert ts0 bs0 Hts Hbs.
  induction F as [|L F IH]; intros ts0 bs0 Hts Hbs.
  - destruct ts0; [|discriminate]. destruct bs0; [|discriminate].
    cbn [app]. rewrite chainLang_fresh by assumption.
    cbn [chainLang]. now rewrite app_nil_r.
  - destruct ts0 as [|t0 ts0]; [discriminate|].
    destruct bs0 as [|b0 bs0]; [discriminate|].
    cbn [app chainLang]. rewrite IH by (simpl in *; lia).
    rewrite app_assoc, map_app, <- !app_assoc. reflexivity.
Qed.

Lemma total_length_app V v :
  total_length (V ++ [v]) = (total_length V + length v)%nat.
Proof.
  unfold total_length. induction V as [|x V IH]; simpl; [lia|].
  rewrite IH. lia.
Qed.

(** ** One turn of [makeSuffixStates] *)

Lemma NewTransition_fields (trigger : byte) (id : nat) (terminal : bool) :
  Z.of_nat id < 2 ^ 23 ->
  let t := NewTransition trigger (Z.of_nat id) terminal in
  is_uint32 t /\ Trigger t = trigger /\ IsTerminal t = terminal /\
  Z.to_nat (ToState t) = id.
Proof.
  intros Hid t. subst t.
  rewrite Trigger_NewTransition, IsTerminal_NewTransition,
    ToState_NewTransition, Z.mod_small by lia.
  repeat split; [apply NewTransition_uint32 | apply NewTransition_uint32 | lia].
Qed.

Lemma Store_same b b' :
  self b' = self b -> states b' = states b -> Store b -> Store b'.
Proof.
  intros Hs Hm [H1 H2 H3]. constructor; rewrite ?Hs, ?Hm; assumption.
Qed.

Lemma table_app_ex r extra : exists rest, table (r ++ extra) = table r ++ rest.
Proof.
  induction extra as [|s extra [rest IH]] using rev_ind.
  - exists []. now rewrite !app_nil_r.
  - exists (rest ++ [state_lang (table (r ++ extra)) s]).
    now rewrite app_assoc, table_snoc, IH, <- app_assoc.
Qed.

Lemma mss_next_Inv V i' b trigger larva terminal target :
  Z.of_nat (total_length V) <= 2 ^ 23 ->
  Inv V (S i') b ->
  prevValue b !! i' = Some trigger ->
  larvae b !! S i' = Some larva ->
  terminals b !! S i' = Some terminal ->
  larvae b !! i' = Some target ->
  Inv V i' (mss_next i' b trigger larva terminal target).
Proof.
  intros Hcap HI Htr Hla Hte Hta.
  pose proof (inv_larvae _ _ _ HI (S i') larva (Nat.le_refl _) Hla) as Hlarva.
  assert (Htarget : valid_state (length (self b)) target)
    by (apply (inv_larvae _ _ _ HI i'); [lia | assumption]).
  destruct (makeState_spec b larva (inv_store _ _ _ HI) Hlarva)
    as (id & b1 & Hms & Ht1 & Hl1 & Hp1 & Hst1 & Hid & Hcase).
  pose proof (inv_size _ _ _ HI) as Hsize.
  pose proof (lookup_lt_Some _ _ _ Hid) as Hidlt.
  assert (Hgrow : exists extra, self b1 = self b ++ extra /\
                                (length (self b1) <= S (length (self b)))%nat).
  { destruct Hcase as [[-> _]|(-> & _ & _)].
    - exists []. rewrite app_nil_r. split; [reflexivity | lia].
    - exists [larva]. rewrite length_app. simpl. split; [reflexivity | lia]. }
  destruct Hgrow as (extra & Hextra & Hlen1).
  assert (Hle : (length (self b) <= length (self b1))%nat)
    by (rewrite Hextra, length_app; lia).
  assert (Hidcap : Z.of_nat id < 2 ^ 23) by lia.
  destruct (NewTransition_fields trigger id terminal Hidcap)
    as (Hu32 & Htrig & Hterm & Hdest).
  unfold mss_next. rewrite Hms.
  set (t := NewTransition trigger (Z.of_nat id) terminal) in *.
  assert (Hadd : AddTransition target t = target ++ [t]).
  { apply AddTransition_append. apply Forall_forall. intros x Hx.
    destruct (inv_trig _ _ _ HI i' target x) as (w & Hw & _ & Hlt);
      [lia | assumption | assumption |].
    rewrite Htr in Hw. injection Hw as <-.
    apply Trigger_lt; [|assumption | rewrite Htrig; apply Hlt; lia].
    apply valid_state_uint32 in Htarget.
    rewrite Forall_forall in Htarget. now apply Htarget. }
  rewrite Hadd.
  destruct (inv_shape _ _ _ HI) as [HshL HshT].
  pose proof (inv_h _ _ _ HI) as Hh.
  assert (Hi'L : (i' < length (larvae b))%nat) by (eapply lookup_lt_Some; eassumption).
  constructor; cbn [self states terminals larvae prevValue].
  - (* shape *)
    split; cbn [self states terminals larvae prevValue];
      [now rewrite length_insert | assumption].
  - lia.
  - eapply Store_same; [| |exact Hst1]; reflexivity.
  - (* the larvae are valid *)
    intros i L Hi HL.
    destruct (decide (i = i')) as [->|Hne].
    + rewrite list_lookup_insert_eq in HL by assumption. injection HL as <-.
      apply Forall_app. split.
      * eapply valid_state_mono; [|exact Htarget]. lia.
      * constructor; [|constructor]. split; [assumption | lia].
    + rewrite list_lookup_insert_ne in HL by congruence.
      eapply valid_state_mono; [exact Hle|].
      apply (inv_larvae _ _ _ HI i); [lia | assumption].
  - (* triggers below the bytes of the previous value *)
    intros i L x Hi HL Hx.
    destruct (decide (i = i')) as [->|Hne].
    + rewrite list_lookup_insert_eq in HL by assumption. injection HL as <-.
      exists trigger. split; [assumption|]. split; [|lia].
      apply elem_of_app in Hx as [Hx|Hx].
      * destruct (inv_trig _ _ _ HI i' target x) as (w & Hw & _ & Hlt);
          [lia | assumption | assumption |].
        rewrite Htr in Hw. injection Hw as <-. specialize (Hlt ltac:(lia)). lia.
      * apply list_elem_of_singleton in Hx. subst x. rewrite Htrig. lia.
    + rewrite list_lookup_insert_ne in HL by congruence.
      destruct (inv_trig _ _ _ HI i L x) as (w & Hw & Hle' & Hlt);
        [lia | assumption | assumption |].
      exists w. split; [assumption|]. split; [assumption|].
      intros Hi'. apply Hlt. lia.
  - (* the language of the chain *)
    rewrite <- (inv_lang _ _ _ HI).
    rewrite (take_S_r (larvae b) (S i') larva Hla).
    rewrite (take_S_r (larvae b) i' target Hta).
    rewrite (take_S_r (drop 1 (terminals b)) i' terminal)
      by (rewrite lookup_drop; exact Hte).
    rewrite (take_S_r (prevValue b) i' trigger Htr).
    rewrite (take_S_r _ i' (target ++ [t]))
      by (now apply list_lookup_insert_eq).
    rewrite take_insert_ge by lia.
    rewrite <- !app_assoc. cbn [app].
    destruct (table_app_ex (self b) extra) as [rest Htbl].
    rewrite <- Hextra in Htbl. rewrite Htbl.
    assert (Hchain : Forall (valid_state (length (table (self b))))
                       (take i' (larvae b) ++ [target; larva])).
    { rewrite table_length. apply Forall_app. split.
      - apply Forall_forall. intros L HL.
        apply list_elem_of_lookup in HL as [i HL].
        pose proof (lookup_lt_Some _ _ _ HL) as Hi. rewrite length_take in Hi.
        rewrite lookup_take_lt in HL by lia.
        apply (inv_larvae _ _ _ HI i); [lia | assumption].
      - repeat constructor; assumption. }
    rewrite <- (chainLang_ext _ rest _ _ _ Hchain).
    symmetry. apply chainLang_collapse.
    + rewrite !length_take. rewrite length_drop. lia.
    + rewrite !length_take. lia.
    + rewrite <- Htbl. unfold edge_lang. rewrite Hdest, Hterm, Htrig.
      rewrite (table_lookup _ _ _ (Store_wf_rec _ Hst1) Hid).
      reflexivity.
  - (* size *)
    lia.
  - (* every interned state is referred to *)
    intros id' Hid'.
    destruct (Nat.lt_ge_cases id' (length (self b))) as [Hold|Hnew].
    + destruct (inv_reach _ _ _ HI id' Hold)
        as [(j & s & x & Hj & Hx & Hd)|(i & L & x & Hi & HL & Hx & Hd)].
      * left. exists j, s, x. split; [|auto].
        rewrite Hextra, lookup_app_l; [assumption|].
        eapply lookup_lt_Some; eassumption.
      * destruct (decide (i = S i')) as [->|Hne1].
        { left. rewrite Hla in HL. injection HL as <-.
          exists id, larva, x. auto. }
        right. destruct (decide (i = i')) as [->|Hne2].
        { rewrite Hta in HL. injection HL as <-.
          exists i', (target ++ [t]), x. split; [lia|].
          split; [now apply list_lookup_insert_eq|].
          split; [apply elem_of_app; now left | assumption]. }
        exists i, L, x. split; [lia|].
        split; [now rewrite list_lookup_insert_ne by congruence | auto].
    + right. exists i', (target ++ [t]), t. split; [lia|].
      split; [now apply list_lookup_insert_eq|].
      split; [apply elem_of_app; right; now apply list_elem_of_singleton|].
      destruct Hcase as [[Heq _]|(_ & Hideq & _)]; [rewrite Heq in Hid'; lia | lia].
Qed.

(** ** The whole construction *)

Lemma makeSuffixStates_loop_Inv V p i b :
  Z.of_nat (total_length V) <= 2 ^ 23 ->
  Inv V i b ->
  exists b', makeSuffixStates_loop p i b = Ok b' /\ Inv V (Nat.min i p) b' /\
             prevValue b' = prevValue b /\ terminals b' = terminals b.
Proof.
  intros Hcap. revert b. induction i as [|i' IH]; intros b HI.
  - exists b. simpl. auto.
  - destruct (Nat.le_gt_cases (S i') p) as [Hle|Hgt].
    { exists b. rewrite makeSuffixStates_loop_stop by assumption.
      rewrite Nat.min_l by assumption. auto. }
    destruct (inv_shape _ _ _ HI) as [Hl Ht].
    pose proof (inv_h _ _ _ HI) as Hh.
    destruct (lookup_lt_is_Some_2 (prevValue b) i') as [trigger Htr]; [lia|].
    destruct (lookup_lt_is_Some_2 (larvae b) (S i')) as [larva Hla]; [lia|].
    destruct (lookup_lt_is_Some_2 (terminals b) (S i')) as [terminal Hte]; [lia|].
    destruct (lookup_lt_is_Some_2 (larvae b) i') as [target Hta]; [lia|].
    rewrite (makeSuffixStates_loop_S _ _ _ _ _ _ _ Hgt Htr Hla Hte Hta).
    destruct (mss_next_fields i' b trigger larva terminal target)
      as (Ht' & Hp' & _).
    destruct (IH (mss_next i' b trigger larva terminal target))
      as (b' & Hrun & HI' & Hpv & Hte').
    { now apply mss_next_Inv. }
    exists b'. rewrite Hpv, Hte', Hp', Ht'.
    rewrite Nat.min_r in * by lia. auto.
Qed.

Lemma insert_replicate_last (k : nat) :
  <[k := true]> (replicate (S k) false) = replicate k false ++ [true].
Proof. induction k as [|k IH]; [reflexivity|]. simpl in *. now rewrite IH. Qed.

Lemma total_length_app_gen A B :
  total_length (A ++ B) = (total_length A + total_length B)%nat.
Proof.
  unfold total_length. induction A as [|x A IH]; simpl; [lia|].
  rewrite IH. lia.
Qed.

Lemma FromChannel_step_Inv V b v :
  Z.of_nat (total_length (V ++ [v])) <= 2 ^ 23 ->
  Inv V (length (prevValue b)) b ->
  bytes_Compare (prevValue b) v = Lt ->
  exists b', FromChannel_step b v = Ok b' /\
             Inv (V ++ [v]) (length (prevValue b')) b' /\ prevValue b' = v.
Proof.
  intros Hcap HI Hlt.
  rewrite total_length_app in Hcap.
  set (p := commonPrefixLen (prevValue b) v).
  destruct (commonPrefixLen_le (prevValue b) v) as [Hp1 Hp2]. fold p in Hp1, Hp2.
  destruct (bytes_Compare_Lt _ _ Hlt) as (Htake & Hplt & Hbyte).
  fold p in Htake, Hplt, Hbyte.
  destruct (makeSuffixStates_loop_Inv V p (length (prevValue b)) b)
    as (b1 & Hrun & HI1 & Hpv & Hte); [lia | assumption |].
  rewrite Nat.min_r in HI1 by assumption.
  destruct (inv_shape _ _ _ HI1) as [Hl Ht].
  rewrite Hpv in Hl, Ht.
  unfold FromChannel_step. rewrite Hlt. fold p.
  unfold makeSuffixStates. rewrite Hrun. cbn [mbind result_bind].
  unfold slice_to, set_index. rewrite Hl, Ht.
  replace (p + 1 <=? S (length (prevValue b)))%nat with true
    by (symmetry; apply Nat.leb_le; lia).
  cbn [mbind result_bind].
  rewrite length_app, length_take, length_replicate, Ht.
  replace (length v <? _)%nat with true by (symmetry; apply Nat.ltb_lt; lia).
  eexists. split; [reflexivity|]. split; [|reflexivity].
  cbn [prevValue].
  (* the pieces of the new lists *)
  destruct (lookup_lt_is_Some_2 (larvae b1) p) as [Lp HLp]; [lia|].
  destruct (length v - p)%nat as [|k] eqn:Hk; [lia|].
  replace (p + 1)%nat with (S p) by lia.
  assert (HtakeL : take (S p) (larvae b1) = take p (larvae b1) ++ [Lp])
    by now apply take_S_r.
  destruct (terminals b1) as [|T0 T'] eqn:HT; [discriminate|].
  simpl in Ht.
  assert (HlenT : length (take p T') = p) by (rewrite length_take; lia).
  assert (Hterm : <[length v := true]> (take (S p) (T0 :: T') ++ replicate (S k) false)
                  = T0 :: (take p T' ++ replicate k false ++ [true])).
  { cbn [take app]. replace (length v) with (S (p + k)) by lia.
    assert (Hins : forall (a : bool) l (n : nat) x,
               <[S n := x]> (a :: l) = a :: <[n := x]> l) by reflexivity.
    rewrite Hins. f_equal.
    rewrite insert_app_r_alt by lia. rewrite HlenT.
    replace (p + k - p)%nat with k by lia.
    now rewrite insert_replicate_last. }
  rewrite Hterm.
  constructor; cbn [self states terminals larvae prevValue].
  - split; cbn [self states terminals larvae prevValue].
    + rewrite length_app, length_take, length_replicate. lia.
    + cbn [length]. rewrite !length_app, length_replicate, HlenT. simpl. lia.
  - lia.
  - eapply Store_same; [| |exact (inv_store _ _ _ HI1)]; reflexivity.
  - intros i L Hi HL.
    destruct (Nat.lt_ge_cases i (S p)) as [Hin|Hout].
    + rewrite lookup_app_l in HL by (rewrite length_take; lia).
      rewrite lookup_take_lt in HL by lia.
      apply (inv_larvae _ _ _ HI1 i); [lia | assumption].
    + rewrite lookup_app_r in HL by (rewrite length_take; lia).
      apply lookup_replicate in HL as [-> _]. constructor.
  - intros i L x Hi HL Hx.
    destruct (Nat.lt_ge_cases i (S p)) as [Hin|Hout].
    + rewrite lookup_app_l in HL by (rewrite length_take; lia).
      rewrite lookup_take_lt in HL by lia.
      destruct (inv_trig _ _ _ HI1 i L x) as (w & Hw & Hle & Hstrict);
        [lia | assumption | assumption |].
      rewrite Hpv in Hw.
      destruct (decide (i = p)) as [->|Hne].
      * destruct (Hbyte w Hw) as (y & Hy & Hwy).
        exists y. split; [assumption|]. split; lia.
      * exists w. split; [|split; [assumption | intros _; apply Hstrict; lia]].
        rewrite <- (lookup_take_lt v p i), Htake, lookup_take_lt by lia.
        assumption.
    + rewrite lookup_app_r in HL by (rewrite length_take; lia).
      apply lookup_replicate in HL as [-> _]. inversion Hx.
  - (* the language of the chain *)
    rewrite (take_ge (take (S p) (larvae b1) ++ replicate (S k) []))
      by (rewrite length_app, length_take, length_replicate; lia).
    cbn [drop].
    rewrite (take_ge (take p T' ++ replicate k false ++ [true]))
      by (rewrite !length_app, length_replicate, HlenT; simpl; lia).
    rewrite (take_ge v) by lia.
    rewrite HtakeL, <- app_assoc.
    rewrite <- (take_drop p v) at 1. rewrite Htake.
    rewrite <- (take_drop p v) at 2. rewrite Htake.
    rewrite chainLang_extend.
    + f_equal. rewrite <- (inv_lang _ _ _ HI1), HtakeL, HT, Hpv. reflexivity.
    + rewrite HlenT, length_take. lia.
    + rewrite !length_take. lia.
    + rewrite length_drop. lia.
  - rewrite total_length_app. pose proof (inv_size _ _ _ HI1). lia.
  - intros id' Hid'.
    destruct (inv_reach _ _ _ HI1 id' Hid')
      as [(j & s & x & Hj & Hx & Hd)|(i & L & x & Hi & HL & Hx & Hd)].
    + left. eauto 10.
    + right. exists i, L, x. split; [lia|]. split; [|auto].
      rewrite lookup_app_l by (rewrite length_take; lia).
      now rewrite lookup_take_lt by lia.
Qed.

Lemma FromChannel_init_Inv : Inv [] 0 FromChannel_init.
Proof.
  constructor; cbn [self states terminals larvae prevValue FromChannel_init].
  - split; reflexivity.
  - simpl. lia.
  - constructor; cbn [self states FromChannel_init].
    + intros i s H. now rewrite lookup_nil in H.
    + intros i s H. now rewrite lookup_nil in H.
    + intros k i H. now rewrite lookup_empty in H.
  - intros [|i] L _ H; [|now rewrite lookup_cons, lookup_nil in H].
    injection H as <-. constructor.
  - intros [|i] L x _ H Hx; [|now rewrite lookup_cons, lookup_nil in H].
    injection H as <-. inversion Hx.
  - reflexivity.
  - simpl. lia.
  - simpl. intros id H. lia.
Qed.

Lemma FromChannel_loop_Inv values : forall V b,
  Z.of_nat (total_length (V ++ values)) <= 2 ^ 23 ->
  Inv V (length (prevValue b)) b ->
  ascending (prevValue b) values ->
  exists b', FromChannel_loop b values = Ok b' /\
             Inv (V ++ values) (length (prevValue b')) b'.
Proof.
  induction values as [|v values IH]; intros V b Hcap HI Hasc.
  - exists b. rewrite app_nil_r. simpl. auto.
  - destruct Hasc as [Hlt Hasc].
    destruct (FromChannel_step_Inv V b v) as (b1 & Hstep & HI1 & Hpv);
      [|assumption|assumption|].
    { rewrite total_length_app_gen in *.
      unfold total_length in *. simpl in *. lia. }
    cbn [FromChannel_loop]. rewrite Hstep. cbn [mbind result_bind].
    destruct (IH (V ++ [v]) b1) as (b' & Hrun & HI');
      [now rewrite <- app_assoc | assumption | now rewrite Hpv |].
    exists b'. split; [assumption|]. now rewrite <- app_assoc in HI'.
Qed.

(** The closing part: the root is a new state, appended last. *)
Lemma FromChannel_finish_Inv V b :
  Z.of_nat (total_length V) <= 2 ^ 23 ->
  Inv V (length (prevValue b)) b ->
  exists b1 root b2,
    makeSuffixStates 0 b = Ok b1 /\
    Inv V 0 b1 /\ Store b2 /\
    larvae b1 !! 0%nat = Some root /\
    makeState b1 root = (length (self b1), b2) /\
    self b2 = self b1 ++ [root] /\
    FromChannel_finish b = Ok (self b1 ++ [root]) /\
    wf_rec (self b1 ++ [root]) /\
    valid_state (length (self b1)) root /\
    state_lang (table (self b1 ++ [root])) root = V.
Proof.
  intros Hcap HI.
  destruct (makeSuffixStates_loop_Inv V 0 (length (prevValue b)) b Hcap HI)
    as (b1 & Hrun & HI1 & Hpv & Hte).
  rewrite Nat.min_0_r in HI1.
  destruct (inv_shape _ _ _ HI1) as [Hl Ht].
  destruct (lookup_lt_is_Some_2 (larvae b1) 0) as [root Hroot]; [lia|].
  pose proof (inv_larvae _ _ _ HI1 0%nat root (Nat.le_refl _) Hroot) as Hvalid.
  destruct (makeState_spec b1 root (inv_store _ _ _ HI1) Hvalid)
    as (id & b2 & Hms & _ & _ & _ & Hst2 & Hid & Hcase).
  assert (Hnew : self b2 = self b1 ++ [root] /\ id = length (self b1)).
  { destruct Hcase as [[Heq Hlt]|(Heq & Hideq & _)]; [exfalso | auto].
    rewrite Heq in Hid.
    pose proof (store_valid _ (inv_store _ _ _ HI1) _ _ Hid) as Hrootid.
    apply valid_state_dest in Hrootid. rewrite Forall_forall in Hrootid.
    destruct (inv_reach _ _ _ HI1 (length (self b1) - 1)%nat)
      as [(j & s & x & Hj & Hx & Hd)|(i & L & x & Hi & HL & Hx & Hd)]; [lia| |].
    - pose proof (store_valid _ (inv_store _ _ _ HI1) _ _ Hj) as Hs.
      apply valid_state_dest in Hs. rewrite Forall_forall in Hs.
      specialize (Hs x Hx). simpl in Hs.
      apply lookup_lt_Some in Hj. lia.
    - assert (i = 0%nat) as -> by lia.
      rewrite Hroot in HL. injection HL as <-.
      specialize (Hrootid x Hx). simpl in Hrootid. lia. }
  destruct Hnew as [Hself2 ->].
  exists b1, root, b2.
  split; [exact Hrun|]. split; [assumption|]. split; [assumption|].
  split; [assumption|]. split; [assumption|]. split; [assumption|].
  assert (Hwf : wf_rec (self b1 ++ [root])).
  { rewrite <- Hself2. now apply Store_wf_rec. }
  split; [|split; [assumption | split; [assumption|]]].
  - unfold FromChannel_finish. unfold makeSuffixStates in Hrun. 
    unfold makeSuffixStates. rewrite Hrun. cbn [mbind result_bind].
    rewrite (index_lookup _ _ _ Hroot). cbn [mbind result_bind].
    rewrite Hms, Hself2, length_app. simpl length.
    destruct (Z.eqb_spec (Z.of_nat (length (self b1)))
                (Z.of_nat (length (self b1) + 1) - 1)); [reflexivity | lia].
  - rewrite table_snoc, state_lang_ext
      by (rewrite table_length; now apply valid_state_dest).
    rewrite <- (inv_lang _ _ _ HI1).
    rewrite (take_S_r _ 0 root Hroot). simpl. now rewrite app_nil_r.
Qed.

(** ** The built recogniser *)

Lemma Start_snoc (r : list (list Z)) (root : list Z) :
  Start (r ++ [root]) = Ok root.
Proof.
  unfold Start. rewrite length_app. simpl length.
  replace (length r + 1)%nat with (S (length r)) by lia.
  apply index_lookup. rewrite lookup_app_r by lia.
  now rewrite Nat.sub_diag.
Qed.

(** What [FromChannel] returns for ascending values within the capacity
    of the state ids: the interned states with the root appended, every
    destination an earlier state, the language of the root the values. *)
Lemma FromChannel_built (V : list (list byte)) :
  ascending [] V ->
  Z.of_nat (total_length V) <= 2 ^ 23 ->
  exists b1 root b2,
    Inv V 0 b1 /\ Store b2 /\
    larvae b1 !! 0%nat = Some root /\
    makeState b1 root = (length (self b1), b2) /\
    self b2 = self b1 ++ [root] /\
    FromChannel V = Ok (self b1 ++ [root]) /\
    wf_rec (self b1 ++ [root]) /\
    valid_state (length (self b1)) root /\
    state_lang (table (self b1 ++ [root])) root = V.
Proof.
  intros Hasc Hcap.
  destruct (FromChannel_loop_Inv V [] FromChannel_init) as (b & Hrun & HI);
    [exact Hcap | exact FromChannel_init_Inv | exact Hasc |].
  rewrite app_nil_l in HI.
  destruct (FromChannel_finish_Inv V b Hcap HI)
    as (b1 & root & b2 & Hmss & HI1 & Hst2 & Hroot & Hms & Hself2 & Hfin & Hwf & Hvalid & Hlang).
  exists b1, root, b2. unfold FromChannel. rewrite Hrun.
  repeat (split; [assumption|]). assumption.
Qed.

(** Build-enumerate round trip (claim C2, within the capacity of the
    23-bit state ids): for values given in strictly ascending order, from
    the empty sequence on, whose total length is at most 2^23 bytes,
    [FromChannel] returns a recogniser, and [AllSequences] on it sends
    exactly these values, in the same order, and closes the channel. *)
Theorem build_enumerate_round_trip (V : list (list byte)) :
  ascending [] V ->
  Z.of_nat (total_length V) <= 2 ^ 23 ->
  exists r, FromChannel V = Ok r /\
    exists k, forall fuel, (k <= fuel)%nat ->
      AllSequences r fuel = Some (Ok V).
Proof.
  intros Hasc Hcap.
  destruct (FromChannel_built V Hasc Hcap)
    as (b1 & root & b2 & HI1 & Hst2 & Hroot & Hms & Hself2 & Hfin & Hwf & Hvalid & Hlang).
  exists (self b1 ++ [root]). split; [assumption|].
  destruct (ConstrainedSequences_enum _ BaseConstraints Hwf root (Start_snoc _ _))
    as [k Hk].
  exists k. intros fuel Hf. unfold AllSequences. rewrite (Hk fuel Hf).
  do 2 f_equal.
  rewrite length_app. simpl length.
  replace (length (self b1) + 1)%nat with (S (length (self b1))) by lia.
  cbn [enum].
  rewrite (enum_base_lang _ (length (self b1)) Hwf root _ []);
    [ | now apply valid_state_dest | lia | rewrite length_app; lia].
  rewrite Hlang. apply List.map_id.
Qed.

Lemma build_enumerate_round_trip_witness :
  exists r, FromChannel [bytes_of "A"; bytes_of "AB"; bytes_of "B"] = Ok r /\
    exists k, forall fuel, (k <= fuel)%nat ->
      AllSequences r fuel = Some (Ok [bytes_of "A"; bytes_of "AB"; bytes_of "B"]).
Proof.
  apply (build_enumerate_round_trip [bytes_of "A"; bytes_of "AB"; bytes_of "B"]).
  - simpl. auto.
  - vm_compute. discriminate.
Defined.



(** ** Constrained enumeration of a built recogniser *)

Lemma state_lang_not_nil tbl (s : list Z) (w : list byte) :
  In w (state_lang tbl s) -> w <> [].
Proof.
  unfold state_lang. rewrite in_flat_map. intros (t & _ & Hw).
  unfold edge_lang in Hw. apply in_app_or in Hw as [Hw|Hw].
  - destruct (IsTerminal t); [|contradiction].
    destruct Hw as [<-|[]]. discriminate.
  - apply in_map_iff in Hw as (x & <- & _). discriminate.
Qed.

Lemma filter_map_cons {A B} (f : B -> bool) (g : A -> B) (l : list A) :
  List.filter f (map g l) = map g (List.filter (fun a => f (g a)) l).
Proof.
  induction l as [|a l IH]; [reflexivity|].
  simpl. destruct (f (g a)); simpl; now rewrite IH.
Qed.

Lemma filter_guard {A} (c : bool) (f : A -> bool) (l : list A) :
  List.filter (fun a => c && f a) l = if c then List.filter f l else [].
Proof.
  destruct c; [reflexivity|]. induction l as [|a l IH]; [reflexivity | exact IH].
Qed.

Lemma sent_below_cons con (prefix : list byte) (c : byte) (w : list byte) :
  w <> [] ->
  sent_below con prefix (c :: w)
  = IsValueAllowed con (Z.of_nat (length prefix)) c
    && (IsSmallEnough con (Z.of_nat (length (prefix ++ [c])) + 1)
        && sent_below con (prefix ++ [c]) w).
Proof.
  intros Hw. unfold sent_below.
  rewrite <- (app_assoc prefix [c] w). cbn [app].
  rewrite (length_app prefix [c]). cbn [length].
  replace (length prefix + 1)%nat with (S (length prefix)) by lia.
  cbn [values_allowed sizes_allowed].
  destruct w as [|c' w']; [congruence|].
  destruct (IsValueAllowed con (Z.of_nat (length prefix)) c); [|reflexivity].
  destruct (IsSmallEnough con (Z.of_nat (S (length prefix)) + 1));
    cbn [andb]; [reflexivity|].
  now rewrite !Bool.andb_false_r.
Qed.

Lemma sent_below_single con (prefix : list byte) (c : byte) :
  sent_below con prefix [c]
  = IsValueAllowed con (Z.of_nat (length prefix)) c
    && (IsLargeEnough con (Z.of_nat (length (prefix ++ [c])))
        && IsSequenceAllowed con (prefix ++ [c])).
Proof.
  unfold sent_below. cbn [values_allowed sizes_allowed].
  now rewrite !Bool.andb_true_r, Bool.andb_assoc.
Qed.

(** The traversal of a state lists the sequences of its language that
    the constraints let through. *)
Lemma enum_lang r con (i : nat) :
  wf_rec r ->
  forall (s : list Z) (F : nat) prefix,
    Forall (fun t => (Z.to_nat (ToState t) < i)%nat) s ->
    (i <= F)%nat -> (i <= length r)%nat ->
    flat_map (enum_edge r con (enum r con F) prefix) s
    = map (app prefix)
        (List.filter (sent_below con prefix) (state_lang (table r) s)).
Proof.
  intros Hwf. induction i as [i IHi] using lt_wf_ind.
  intros s F prefix Hs HF Hi. unfold state_lang.
  induction Hs as [|t s Ht Hs IH]; [reflexivity|].
  cbn [flat_map]. rewrite List.filter_app, map_app, IH. f_equal.
  destruct (lookup_lt_is_Some_2 r (Z.to_nat (ToState t))) as [next Hnext]; [lia|].
  unfold enum_edge, edge_lang.
  rewrite Hnext, (table_lookup _ _ _ Hwf Hnext). cbn [default from_option id].
  rewrite List.filter_app, map_app, filter_map_cons.
  rewrite (List.filter_ext_in
             (fun a => sent_below con prefix (Trigger t :: a))
             (fun a => IsValueAllowed con (Z.of_nat (length prefix)) (Trigger t)
                       && (IsSmallEnough con
                             (Z.of_nat (length (prefix ++ [Trigger t])) + 1)
                           && sent_below con (prefix ++ [Trigger t]) a)))
    by (intros a Ha; apply sent_below_cons;
        now apply state_lang_not_nil in Ha).
  rewrite !filter_guard.
  destruct (IsValueAllowed con (Z.of_nat (length prefix)) (Trigger t)) eqn:Hva.
  - f_equal.
    + destruct (IsTerminal t); [|reflexivity].
      cbn [List.filter]. rewrite sent_below_single, Hva. cbn [andb].
      destruct (IsLargeEnough con _); [|reflexivity]. cbn [andb].
      destruct (IsSequenceAllowed con _); reflexivity.
    + destruct (IsEmpty next) eqn:Hemp; cbn [negb andb].
      * destruct next; [|discriminate]. cbn.
        now destruct (IsSmallEnough con _).
      * destruct (IsSmallEnough con _); [|reflexivity].
        destruct F as [|F']; [lia|]. cbn [enum].
        rewrite (IHi (Z.to_nat (ToState t)) Ht next F' (prefix ++ [Trigger t]));
          [| now apply Hwf | lia | lia].
        rewrite map_map. apply map_ext. intros x. now rewrite <- app_assoc.
  - destruct (IsTerminal t); [|reflexivity].
    cbn [List.filter]. rewrite sent_below_single, Hva. reflexivity.
Qed.

Lemma forallb_seq_shift (f : nat -> bool) (a n : nat) :
  forallb f (seq (S a) n) = forallb (fun i => f (S i)) (seq a n).
Proof.
  revert a. induction n as [|n IH]; intros a; [reflexivity|].
  cbn [seq forallb]. now rewrite IH.
Qed.

Lemma forallb_pointwise {A} (f g : A -> bool) (l : list A) :
  (forall a, f a = g a) -> forallb f l = forallb g l.
Proof.
  intros H. induction l as [|a l IH]; [reflexivity|].
  cbn [forallb]. now rewrite H, IH.
Qed.

Lemma values_allowed_seq con (d : nat) (w : list byte) :
  values_allowed con d w
  = forallb (fun i => IsValueAllowed con (Z.of_nat (d + i)) (nth i w x00))
      (seq 0 (length w)).
Proof.
  revert d. induction w as [|c w IH]; intros d; [reflexivity|].
  cbn [values_allowed length seq forallb nth].
  rewrite Nat.add_0_r, forallb_seq_shift, IH. f_equal.
  apply forallb_pointwise. intros i. cbn [nth].
  now replace (S d + i)%nat with (d + S i)%nat by lia.
Qed.

Lemma sizes_allowed_seq con (d : nat) (w : list byte) :
  sizes_allowed con d w
  = forallb (fun n => IsSmallEnough con (Z.of_nat n))
      (seq (d + 2) (length w - 1)).
Proof.
  revert d. induction w as [|c w IH]; intros d; [reflexivity|].
  destruct w as [|c' w']; [reflexivity|].
  change (sizes_allowed con d (c :: c' :: w'))
    with (IsSmallEnough con (Z.of_nat (S d) + 1)
          && sizes_allowed con (S d) (c' :: w')).
  rewrite IH. cbn [length].
  replace (S (S (length w')) - 1)%nat with (S (length w')) by lia.
  replace (S (length w') - 1)%nat with (length w') by lia.
  cbn [seq forallb].
  replace (Z.of_nat (d + 2)) with (Z.of_nat (S d) + 1) by lia.
  reflexivity.
Qed.

Lemma sent_below_emitted con (w : list byte) :
  sent_below con [] w = emitted con w.
Proof.
  unfold sent_below, emitted. cbn [length app].
  now rewrite values_allowed_seq, sizes_allowed_seq.
Qed.

(** Constrained enumeration of a built recogniser: for ascending values
    within the capacity of the state ids, [ConstrainedSequences] sends,
    in the order of the input, exactly the values of which every byte is
    allowed at its position, every length from 2 up to the length of the
    value is small enough, the length is large enough and the value itself
    is allowed; [IsSmallEnough] is never asked about the length 1. *)
Theorem ConstrainedSequences_built (V : list (list byte)) (con : Constraints) :
  ascending [] V ->
  Z.of_nat (total_length V) <= 2 ^ 23 ->
  exists r, FromChannel V = Ok r /\
    exists k, forall fuel, (k <= fuel)%nat ->
      ConstrainedSequences r con fuel = Some (Ok (List.filter (emitted con) V)).
Proof.
  intros Hasc Hcap.
  destruct (FromChannel_built V Hasc Hcap)
    as (b1 & root & b2 & HI1 & Hst2 & Hroot & Hms & Hself2 & Hfin & Hwf & Hvalid & Hlang).
  exists (self b1 ++ [root]). split; [assumption|].
  destruct (ConstrainedSequences_enum _ con Hwf root (Start_snoc _ _)) as [k Hk].
  exists k. intros fuel Hf. rewrite (Hk fuel Hf). do 2 f_equal.
  rewrite length_app. simpl length.
  replace (length (self b1) + 1)%nat with (S (length (self b1))) by lia.
  cbn [enum].
  rewrite (enum_lang _ con (length (self b1)) Hwf root _ []);
    [ | now apply valid_state_dest | lia | rewrite length_app; lia].
  rewrite Hlang, List.map_id.
  apply List.filter_ext. intros w. apply sent_below_emitted.
Qed.

Lemma ConstrainedSequences_built_witness :
  exists r, FromChannel [bytes_of "A"; bytes_of "AB"; bytes_of "ABC"; bytes_of "B"]
            = Ok r /\
    exists k, forall fuel, (k <= fuel)%nat ->
      ConstrainedSequences r (SizeConstraint 2 2) fuel
      = Some (Ok (List.filter (emitted (SizeConstraint 2 2))
                    [bytes_of "A"; bytes_of "AB"; bytes_of "ABC"; bytes_of "B"])).
Proof.
  apply (ConstrainedSequences_built
           [bytes_of "A"; bytes_of "AB"; bytes_of "ABC"; bytes_of "B"]).
  - simpl. auto.
  - vm_compute. discriminate.
Defined.

(** ** Binary search in an ordered state *)

(** [sort.Search] on a predicate that, once true, stays true below [n]:
    the least index at which it holds, or [n]. *)
Lemma Search_loop_spec (f : nat -> bool) (n fuel : nat) : forall i j : nat,
  (forall x y, (x <= y)%nat -> (y < n)%nat -> f x = true -> f y = true) ->
  (forall x, (x < i)%nat -> f x = false) ->
  (forall x, (j <= x)%nat -> (x < n)%nat -> f x = true) ->
  (i <= j)%nat -> (j <= n)%nat -> (j - i <= fuel)%nat ->
  (Search_loop fuel i j f <= n)%nat /\
  (forall x, (x < Search_loop fuel i j f)%nat -> f x = false) /\
  (forall x, (Search_loop fuel i j f <= x)%nat -> (x < n)%nat -> f x = true).
Proof.
  induction fuel as [|fuel IH]; intros i j Hmono Hlo Hhi Hij Hjn Hfuel.
  - cbn [Search_loop]. assert (i = j) as -> by lia. auto.
  - cbn [Search_loop].
    destruct (Nat.ltb_spec i j) as [Hlt|Hge].
    + assert (Hh : (i <= (i + j) / 2 < j)%nat).
      { split.
        - apply Nat.div_le_lower_bound; lia.
        - apply Nat.Div0.div_lt_upper_bound; lia. }
      set (h := ((i + j) / 2)%nat) in *.
      destruct (f h) eqn:Hfh; cbn [negb].
      * apply IH; try assumption; try lia.
        intros x Hx Hxn. apply (Hmono h x); [lia | assumption | assumption].
      * apply IH; try assumption; try lia.
        intros x Hx. destruct (f x) eqn:Hfx; [|reflexivity].
        rewrite (Hmono x h) in Hfh; [discriminate | lia | lia | assumption].
    + assert (i = j) as -> by lia. auto.
Qed.

Lemma Search_spec (f : nat -> bool) (n : nat) :
  (forall x y, (x <= y)%nat -> (y < n)%nat -> f x = true -> f y = true) ->
  (Search n f <= n)%nat /\
  (forall x, (x < Search n f)%nat -> f x = false) /\
  (forall x, (Search n f <= x)%nat -> (x < n)%nat -> f x = true).
Proof.
  intros Hmono. unfold Search.
  apply Search_loop_spec; try assumption; try lia.
Qed.

Lemma StronglySorted_lookup {A} (R : A -> A -> Prop) (l : list A) :
  StronglySorted R l ->
  forall (i j : nat) x y, (i < j)%nat ->
    l !! i = Some x -> l !! j = Some y -> R x y.
Proof.
  induction 1 as [|a l Hl IH Ha]; intros i j x y Hij Hi Hj.
  - discriminate.
  - destruct j as [|j]; [lia|]. cbn in Hj. destruct i as [|i].
    + cbn in Hi. injection Hi as <-.
      rewrite Forall_forall in Ha. apply Ha.
      eapply list_elem_of_lookup_2; eassumption.
    + cbn in Hi. apply (IH i j); [lia | assumption | assumption].
Qed.

Lemma nth_lookup_Z (s : list Z) (i : nat) (t : Z) :
  s !! i = Some t -> nth i s 0 = t.
Proof.
  revert i. induction s as [|a s IH]; intros [|i] H; try discriminate.
  - now injection H.
  - cbn in *. now apply IH.
Qed.

(** With the triggers in ascending order, [IndexForTrigger] gives the
    first transition with the trigger, if there is one. *)
Lemma IndexForTrigger_first (s : list Z) (c : byte) :
  StronglySorted trigger_le s ->
  forall (i : nat) t, s !! i = Some t -> Trigger t = c ->
    (IndexForTrigger s c <= i)%nat /\
    exists t0, s !! IndexForTrigger s c = Some t0 /\ Trigger t0 = c.
Proof.
  intros Hs i t Hi Ht.
  pose proof (lookup_lt_Some _ _ _ Hi) as Hilen.
  unfold IndexForTrigger.
  set (f := fun x : nat => Z_of_byte c <=? Z_of_byte (Trigger (nth x s 0))).
  destruct (Search_spec f (length s)) as (Hr & Hlo & Hhi).
  { intros x y Hxy Hy Hfx. unfold f in *. apply Z.leb_le in Hfx. apply Z.leb_le.
    destruct (lookup_lt_is_Some_2 s x) as [tx Hx]; [lia|].
    destruct (lookup_lt_is_Some_2 s y) as [ty Hy']; [lia|].
    rewrite (nth_lookup_Z _ _ _ Hx) in Hfx. rewrite (nth_lookup_Z _ _ _ Hy').
    destruct (decide (x = y)) as [->|Hne]; [congruence|].
    pose proof (StronglySorted_lookup _ _ Hs x y tx ty ltac:(lia) Hx Hy') as Hle.
    unfold trigger_le in Hle. lia. }
  set (r := Search (length s) f) in *.
  assert (Hfi : f i = true).
  { unfold f. rewrite (nth_lookup_Z _ _ _ Hi), Ht. apply Z.leb_refl. }
  assert (Hri : (r <= i)%nat).
  { destruct (Nat.le_gt_cases r i) as [|Hgt]; [assumption|].
    rewrite (Hlo i Hgt) in Hfi. discriminate. }
  destruct (lookup_lt_is_Some_2 s r) as [tr Htr]; [lia|].
  assert (Hc : Trigger tr = c).
  { pose proof (Hhi r (Nat.le_refl _) ltac:(lia)) as Hfr. unfold f in Hfr.
    rewrite (nth_lookup_Z _ _ _ Htr) in Hfr. apply Z.leb_le in Hfr.
    apply Z_of_byte_inj.
    destruct (decide (r = i)) as [Heq|Hne].
    - rewrite Heq in Htr. congruence.
    - pose proof (StronglySorted_lookup _ _ Hs r i tr t ltac:(lia) Htr Hi) as Hle.
      unfold trigger_le in Hle. rewrite Ht in Hle. lia. }
  replace (r <? length s)%nat with true by (symmetry; apply Nat.ltb_lt; lia).
  rewrite (nth_lookup_Z _ _ _ Htr), Hc.
  assert (Heqb : Byte.eqb c c = true) by now apply Byte.byte_dec_lb.
  rewrite Heqb. cbn [andb]. split; [assumption|]. eauto.
Qed.

(** A result below the length is the index of a transition with the
    trigger, whatever the order of the state. *)
Lemma IndexForTrigger_found (s : list Z) (c : byte) :
  (IndexForTrigger s c <= length s)%nat /\
  ((IndexForTrigger s c < length s)%nat ->
   exists t, s !! IndexForTrigger s c = Some t /\ Trigger t = c).
Proof.
  unfold IndexForTrigger.
  set (r := Search (length s) _).
  destruct (Nat.ltb_spec r (length s)) as [Hlt|Hge]; cbn [andb].
  - destruct (Byte.eqb (Trigger (nth r s 0)) c) eqn:Heq.
    + split; [lia|]. intros _.
      destruct (lookup_lt_is_Some_2 s r Hlt) as [t Ht]. exists t.
      split; [assumption|].
      rewrite (nth_lookup_Z _ _ _ Ht) in Heq. now apply Byte.byte_dec_bl.
    + split; [lia | lia].
  - split; [lia | lia].
Qed.

(** [IndexForTrigger] on a state whose triggers ascend: the index of the
    first transition with the trigger, or the length of the state when no
    transition has it. *)
Theorem IndexForTrigger_sorted (s : list Z) (c : byte) :
  StronglySorted trigger_le s ->
  (forall (i : nat) t, s !! i = Some t -> Trigger t = c ->
     (IndexForTrigger s c <= i)%nat /\
     exists t0, s !! IndexForTrigger s c = Some t0 /\ Trigger t0 = c) /\
  ((forall t, t ∈ s -> Trigger t <> c) -> IndexForTrigger s c = length s).
Proof.
  intros Hs. split.
  - now apply IndexForTrigger_first.
  - intros Hno. destruct (IndexForTrigger_found s c) as [Hle Hfound].
    destruct (Nat.eq_dec (IndexForTrigger s c) (length s)) as [|Hne];
      [assumption|].
    destruct Hfound as (t & Ht & Hc); [lia|].
    exfalso. apply (Hno t); [|assumption].
    eapply list_elem_of_lookup_2; eassumption.
Qed.

Lemma IndexForTrigger_sorted_witness :
  (forall (i : nat) t,
     [NewTransition "A" 1 false; NewTransition "C" 0 true] !! i = Some t ->
     Trigger t = "C"%byte ->
     (IndexForTrigger [NewTransition "A" 1 false; NewTransition "C" 0 true] "C"
      <= i)%nat /\
     exists t0,
       [NewTransition "A" 1 false; NewTransition "C" 0 true]
         !! IndexForTrigger [NewTransition "A" 1 false; NewTransition "C" 0 true] "C"
       = Some t0 /\ Trigger t0 = "C"%byte) /\
  ((forall t, t ∈ [NewTransition "A" 1 false; NewTransition "C" 0 true] ->
      Trigger t <> "C"%byte) ->
   IndexForTrigger [NewTransition "A" 1 false; NewTransition "C" 0 true] "C"
   = length [NewTransition "A" 1 false; NewTransition "C" 0 true]).
Proof.
  apply (IndexForTrigger_sorted
           [NewTransition "A" 1 false; NewTransition "C" 0 true] "C").
  repeat constructor; unfold trigger_le; vm_compute; discriminate.
Defined.

(** ** Adding a transition to an ordered state *)

Lemma sort_insert_head (a : Z) (l : list Z) :
  Forall (Z.lt a) l -> sort_insert a l = a :: l.
Proof.
  intros H. destruct l as [|b l]; [reflexivity|].
  cbn [sort_insert]. apply Forall_cons in H as [Hab _].
  destruct (Z.leb_spec a b); [reflexivity | lia].
Qed.

Lemma Sort_snoc_least (l : list Z) (t : Z) :
  StronglySorted Z.lt l -> Forall (Z.lt t) l -> Sort (l ++ [t]) = t :: l.
Proof.
  unfold Sort. induction 1 as [|a l Hl IH Ha]; intros Ht; [reflexivity|].
  apply Forall_cons in Ht as [Hta Ht].
  cbn [app foldr]. rewrite (IH Ht). cbn [sort_insert].
  destruct (Z.leb_spec a t); [lia|].
  now rewrite sort_insert_head.
Qed.

(** The state after [AddTransition]: the state itself when it holds the
    transition, else the transition put in at its place. *)
Lemma AddTransition_spec (s : list Z) (t : Z) :
  StronglySorted Z.lt s ->
  (t ∈ s /\ AddTransition s t = s) \/
  ((t ∉ s) /\ exists l1 l2, s = l1 ++ l2 /\ AddTransition s t = l1 ++ t :: l2 /\
              Forall (fun x => x < t) l1 /\ Forall (Z.lt t) l2).
Proof.
  intros Hs. unfold AddTransition.
  set (f := fun x : nat => t <=? nth x s 0).
  destruct (Search_spec f (length s)) as (Hr & Hlo & Hhi).
  { intros x y Hxy Hy Hfx. unfold f in *. apply Z.leb_le in Hfx. apply Z.leb_le.
    destruct (lookup_lt_is_Some_2 s x) as [tx Hx]; [lia|].
    destruct (lookup_lt_is_Some_2 s y) as [ty Hy']; [lia|].
    rewrite (nth_lookup_Z _ _ _ Hx) in Hfx. rewrite (nth_lookup_Z _ _ _ Hy').
    destruct (decide (x = y)) as [->|Hne]; [congruence|].
    pose proof (StronglySorted_lookup _ _ Hs x y tx ty ltac:(lia) Hx Hy'). lia. }
  set (r := Search (length s) f) in *.
  assert (Hbelow : Forall (fun x => x < t) (take r s)).
  { apply Forall_forall. intros x Hx.
    apply list_elem_of_lookup in Hx as [i Hi].
    pose proof (lookup_lt_Some _ _ _ Hi) as Hilen. rewrite length_take in Hilen.
    rewrite lookup_take_lt in Hi by lia.
    pose proof (Hlo i ltac:(lia)) as Hfi. unfold f in Hfi.
    rewrite (nth_lookup_Z _ _ _ Hi) in Hfi. now apply Z.leb_gt in Hfi. }
  assert (Habove : Forall (Z.le t) (drop r s)).
  { apply Forall_forall. intros x Hx.
    apply list_elem_of_lookup in Hx as [i Hi].
    rewrite lookup_drop in Hi.
    pose proof (lookup_lt_Some _ _ _ Hi) as Hilen.
    pose proof (Hhi (r + i)%nat ltac:(lia) Hilen) as Hfi. unfold f in Hfi.
    rewrite (nth_lookup_Z _ _ _ Hi) in Hfi. now apply Z.leb_le in Hfi. }
  destruct (Nat.ltb_spec r (length s)) as [Hlt|Hge]; cbn [andb].
  - destruct (lookup_lt_is_Some_2 s r Hlt) as [tr Htr].
    rewrite (nth_lookup_Z _ _ _ Htr).
    destruct (Z.eqb_spec tr t) as [->|Hne].
    + left. split; [|reflexivity]. eapply list_elem_of_lookup_2; eassumption.
    + right.
      assert (Hstrict : Forall (Z.lt t) (drop r s)).
      { rewrite <- (take_drop r s) in Hs.
        apply StronglySorted_app_1_r in Hs.
        rewrite (drop_S s tr r Htr) in *.
        apply StronglySorted_cons in Hs as [Htl _].
        apply Forall_cons in Habove as [Htr' _].
        constructor; [lia|].
        eapply Forall_impl; [exact Htl|]. intros x Hx. simpl in Hx. lia. }
      split.
      * intros Hin. rewrite <- (take_drop r s) in Hin.
        apply elem_of_app in Hin as [Hin|Hin].
        -- rewrite Forall_forall in Hbelow. specialize (Hbelow _ Hin). lia.
        -- rewrite Forall_forall in Hstrict. specialize (Hstrict _ Hin). lia.
      * exists (take r s), (drop r s).
        split; [now rewrite take_drop|].
        rewrite take_app_le, drop_app_le by lia.
        rewrite Sort_snoc_least; [auto | | assumption].
        rewrite <- (take_drop r s) in Hs.
        now apply StronglySorted_app_1_r in Hs.
  - right. assert (r = length s) as Hrl by lia.
    rewrite Hrl in *. rewrite take_ge in Hbelow by lia.
    split.
    + intros Hin. rewrite Forall_forall in Hbelow. specialize (Hbelow _ Hin). lia.
    + exists s, []. rewrite app_nil_r.
      rewrite take_app_length, drop_app_length. cbn.
      repeat split; [assumption | constructor].
Qed.

Lemma AddTransition_StronglySorted (s : list Z) (t : Z) :
  StronglySorted Z.lt s -> StronglySorted Z.lt (AddTransition s t).
Proof.
  intros Hs.
  destruct (AddTransition_spec s t Hs)
    as [[_ ->]|(_ & l1 & l2 & -> & -> & H1 & H2)]; [assumption|].
  apply StronglySorted_app in Hs as (H12 & Hs1 & Hs2).
  apply StronglySorted_app_2; [|assumption|].
  - intros x1 x2 Hx1 Hx2. rewrite Forall_forall in H1, H2.
    apply elem_of_cons in Hx2 as [->|Hx2]; [now apply H1|].
    specialize (H1 _ Hx1). specialize (H2 _ Hx2). lia.
  - now constructor.
Qed.

Lemma AddTransition_elem_of (s : list Z) (t x : Z) :
  StronglySorted Z.lt s -> x ∈ AddTransition s t <-> x ∈ s \/ x = t.
Proof.
  intros Hs.
  destruct (AddTransition_spec s t Hs)
    as [[Hin ->]|(_ & l1 & l2 & -> & -> & _)].
  - split; [auto|]. intros [H| ->]; assumption.
  - rewrite !elem_of_app, elem_of_cons. tauto.
Qed.

(** [AddTransition] "keeps them properly ordered": on a state in
    strictly ascending order of the packed values the result is in
    strictly ascending order again, and holds the transitions of the
    state and the new one, which is not added twice. *)
Theorem AddTransition_sorted (s : list Z) (t : Z) :
  StronglySorted Z.lt s ->
  StronglySorted Z.lt (AddTransition s t) /\
  (forall x, x ∈ AddTransition s t <-> x ∈ s \/ x = t) /\
  (t ∈ s -> AddTransition s t = s) /\
  (t ∉ s -> length (AddTransition s t) = S (length s)).
Proof.
  intros Hs. split; [now apply AddTransition_StronglySorted|].
  split; [intros x; now apply AddTransition_elem_of|].
  destruct (AddTransition_spec s t Hs)
    as [[Hin Heq]|(Hnin & l1 & l2 & -> & -> & _)].
  - split; [auto | contradiction].
  - split; [contradiction|]. intros _. rewrite !length_app. simpl. lia.
Qed.

Lemma AddTransition_sorted_witness :
  StronglySorted Z.lt (AddTransition [1; 5; 9] 7) /\
  (forall x, x ∈ AddTransition [1; 5; 9] 7 <-> x ∈ [1; 5; 9] \/ x = 7) /\
  (7 ∈ [1; 5; 9] -> AddTransition [1; 5; 9] 7 = [1; 5; 9]) /\
  (7 ∉ [1; 5; 9] -> length (AddTransition [1; 5; 9] 7) = S (length [1; 5; 9])).
Proof.
  apply (AddTransition_sorted [1; 5; 9] 7).
  repeat constructor; lia.
Defined.

(** ** Looking up what was added *)

Lemma StronglySorted_weaken {A} (R R' : A -> A -> Prop) (l : list A) :
  (forall x y, x ∈ l -> y ∈ l -> R x y -> R' x y) ->
  StronglySorted R l -> StronglySorted R' l.
Proof.
  intros Himp H. induction H as [|a l Hl IH Ha]; constructor.
  - apply IH. intros x y Hx Hy. apply Himp; now apply elem_of_cons; right.
  - rewrite Forall_forall in *. intros y Hy.
    apply Himp; [apply elem_of_cons; now left | apply elem_of_cons; now right|].
    now apply Ha.
Qed.

(** The order of the packed values is the order of the triggers first. *)
Lemma values_sorted_triggers (s : list Z) :
  Forall is_uint32 s -> StronglySorted Z.lt s -> StronglySorted trigger_le s.
Proof.
  intros Hu. apply StronglySorted_weaken. intros x y Hx Hy Hxy.
  rewrite Forall_forall in Hu. unfold trigger_le.
  rewrite !Trigger_uint32 by now apply Hu.
  apply Z.div_le_mono; lia.
Qed.

Lemma foldl_AddTransition_spec (ts : list Z) : forall s : list Z,
  StronglySorted Z.lt s ->
  StronglySorted Z.lt (foldl AddTransition s ts) /\
  forall x, x ∈ foldl AddTransition s ts <-> x ∈ s \/ x ∈ ts.
Proof.
  induction ts as [|t ts IH]; intros s Hs; cbn [foldl].
  - split; [assumption|]. intros x. rewrite elem_of_nil. tauto.
  - destruct (IH (AddTransition s t) (AddTransition_StronglySorted _ _ Hs))
      as [Hsorted Hmem].
    split; [assumption|]. intros x.
    rewrite Hmem, AddTransition_elem_of, elem_of_cons by assumption. tauto.
Qed.

(** Insert, then look up: in the state made of any 32-bit transitions by
    [AddTransition], [IndexForTrigger] finds, for the trigger of each of
    them, a transition with this trigger, and gives the length of the
    state for a trigger that none of them has. *)
Theorem AddTransition_IndexForTrigger (ts : list Z) :
  Forall is_uint32 ts ->
  (forall t, t ∈ ts ->
     exists t0,
       foldl AddTransition [] ts
         !! IndexForTrigger (foldl AddTransition [] ts) (Trigger t) = Some t0 /\
       t0 ∈ ts /\ Trigger t0 = Trigger t) /\
  (forall c, (forall t, t ∈ ts -> Trigger t <> c) ->
     IndexForTrigger (foldl AddTransition [] ts) c
     = length (foldl AddTransition [] ts)).
Proof.
  intros Hu.
  destruct (foldl_AddTransition_spec ts [] (SSorted_nil _)) as [Hsorted Hmem].
  set (s := foldl AddTransition [] ts) in *.
  assert (Hin : forall x, x ∈ s <-> x ∈ ts).
  { intros x. rewrite Hmem, elem_of_nil. tauto. }
  assert (Hus : Forall is_uint32 s).
  { rewrite Forall_forall in *. intros x Hx. apply Hu. now apply Hin. }
  pose proof (values_sorted_triggers s Hus Hsorted) as Htrig.
  split.
  - intros t Ht. apply Hin in Ht.
    apply list_elem_of_lookup in Ht as [i Hi].
    destruct (IndexForTrigger_first s (Trigger t) Htrig i t Hi eq_refl)
      as (_ & t0 & Ht0 & Hc).
    exists t0. split; [assumption|]. split; [|assumption].
    apply Hin. eapply list_elem_of_lookup_2; eassumption.
  - intros c Hno. destruct (IndexForTrigger_found s c) as [Hle Hfound].
    destruct (Nat.eq_dec (IndexForTrigger s c) (length s)) as [|Hne];
      [assumption|].
    destruct Hfound as (t & Ht & Hc); [lia|].
    exfalso. apply (Hno t); [|assumption].
    apply Hin. eapply list_elem_of_lookup_2; eassumption.
Qed.

Lemma AddTransition_IndexForTrigger_witness :
  (forall t, t ∈ [NewTransition "C" 0 true; NewTransition "A" 1 false] ->
     exists t0,
       foldl AddTransition [] [NewTransition "C" 0 true; NewTransition "A" 1 false]
         !! IndexForTrigger
              (foldl AddTransition []
                 [NewTransition "C" 0 true; NewTransition "A" 1 false])
              (Trigger t) = Some t0 /\
       t0 ∈ [NewTransition "C" 0 true; NewTransition "A" 1 false] /\
       Trigger t0 = Trigger t) /\
  (forall c,
     (forall t, t ∈ [NewTransition "C" 0 true; NewTransition "A" 1 false] ->
        Trigger t <> c) ->
     IndexForTrigger
       (foldl AddTransition []
          [NewTransition "C" 0 true; NewTransition "A" 1 false]) c
     = length (foldl AddTransition []
                 [NewTransition "C" 0 true; NewTransition "A" 1 false])).
Proof.
  apply (AddTransition_IndexForTrigger
           [NewTransition "C" 0 true; NewTransition "A" 1 false]).
  repeat constructor; vm_compute; congruence.
Defined.

(** ** Order and use of the transitions in the builder *)

Lemma mss_next_eq V i' b trigger larva terminal target :
  Z.of_nat (total_length V) <= 2 ^ 23 ->
  Inv V (S i') b ->
  prevValue b !! i' = Some trigger ->
  larvae b !! S i' = Some larva ->
  terminals b !! S i' = Some terminal ->
  larvae b !! i' = Some target ->
  exists id b1,
    makeState b larva = (id, b1) /\
    (exists extra, self b1 = self b ++ extra) /\
    self b1 !! id = Some larva /\
    Trigger (NewTransition trigger (Z.of_nat id) terminal) = trigger /\
    IsTerminal (NewTransition trigger (Z.of_nat id) terminal) = terminal /\
    Z.to_nat (ToState (NewTransition trigger (Z.of_nat id) terminal)) = id /\
    (forall x, x ∈ target ->
       trigger_lt x (NewTransition trigger (Z.of_nat id) terminal)) /\
    mss_next i' b trigger larva terminal target
    = mkBuilder (self b1) (states b1) (terminals b)
        (<[i' := target ++ [NewTransition trigger (Z.of_nat id) terminal]]>
           (larvae b))
        (prevValue b).
Proof.
  intros Hcap HI Htr Hla Hte Hta.
  pose proof (inv_larvae _ _ _ HI (S i') larva (Nat.le_refl _) Hla) as Hlarva.
  assert (Htarget : valid_state (length (self b)) target)
    by (apply (inv_larvae _ _ _ HI i'); [lia | assumption]).
  destruct (makeState_spec b larva (inv_store _ _ _ HI) Hlarva)
    as (id & b1 & Hms & Ht1 & Hl1 & Hp1 & Hst1 & Hid & Hcase).
  pose proof (inv_size _ _ _ HI) as Hsize.
  pose proof (lookup_lt_Some _ _ _ Hid) as Hidlt.
  assert (Hgrow : exists extra, self b1 = self b ++ extra /\
                                (length (self b1) <= S (length (self b)))%nat).
  { destruct Hcase as [[-> _]|(-> & _ & _)].
    - exists []. rewrite app_nil_r. split; [reflexivity | lia].
    - exists [larva]. rewrite length_app. simpl. split; [reflexivity | lia]. }
  destruct Hgrow as (extra & Hextra & Hlen1).
  assert (Hidcap : Z.of_nat id < 2 ^ 23) by lia.
  destruct (NewTransition_fields trigger id terminal Hidcap)
    as (Hu32 & Htrig & Hterm & Hdest).
  exists id, b1. split; [assumption|]. split; [eauto|]. split; [assumption|].
  do 3 (split; [assumption|]).
  assert (Hbelow : forall x, x ∈ target ->
            trigger_lt x (NewTransition trigger (Z.of_nat id) terminal)).
  { intros x Hx. unfold trigger_lt. rewrite Htrig.
    destruct (inv_trig _ _ _ HI i' target x) as (w & Hw & _ & Hlt);
      [lia | assumption | assumption |].
    rewrite Htr in Hw. injection Hw as <-. apply Hlt. lia. }
  split; [assumption|].
  unfold mss_next. rewrite Hms. f_equal. f_equal.
  apply AddTransition_append. apply Forall_forall. intros x Hx.
  apply Trigger_lt; [|assumption | now apply Hbelow].
  apply valid_state_uint32 in Htarget.
  rewrite Forall_forall in Htarget. now apply Htarget.
Qed.

Lemma productive_app r extra t : productive r t -> productive (r ++ extra) t.
Proof.
  intros [H|(s' & Hs' & Hne)]; [now left|]. right. exists s'.
  split; [|assumption]. now apply lookup_app_l_Some.
Qed.

Lemma Forall_productive_app r extra (l : list (list Z)) :
  Forall (Forall (productive r)) l ->
  Forall (Forall (productive (r ++ extra))) l.
Proof.
  intros H. eapply Forall_impl; [exact H|]. intros s Hs.
  eapply Forall_impl; [exact Hs|]. intros t. apply productive_app.
Qed.

Lemma sorted_state_snoc (s : list Z) (t : Z) :
  sorted_state s -> (forall x, x ∈ s -> trigger_lt x t) ->
  sorted_state (s ++ [t]).
Proof.
  intros Hs Ht. apply StronglySorted_app_2; [|assumption|].
  - intros x1 x2 Hx1 Hx2. apply list_elem_of_singleton in Hx2 as ->. now apply Ht.
  - repeat constructor.
Qed.

Lemma mss_next_Canon V i' b trigger larva terminal target :
  Z.of_nat (total_length V) <= 2 ^ 23 ->
  Inv V (S i') b -> Canon (S i') b ->
  prevValue b !! i' = Some trigger ->
  larvae b !! S i' = Some larva ->
  terminals b !! S i' = Some terminal ->
  larvae b !! i' = Some target ->
  Canon i' (mss_next i' b trigger larva terminal target).
Proof.
  intros Hcap HI HC Htr Hla Hte Hta.
  destruct (mss_next_eq V i' b trigger larva terminal target
              Hcap HI Htr Hla Hte Hta)
    as (id & b1 & Hms & (extra & Hextra) & Hid & Htrig & Hterm & Hdest
        & Hbelow & ->).
  set (t := NewTransition trigger (Z.of_nat id) terminal) in *.
  destruct HC as [Hss Hls Hsp Hlp Htop].
  pose proof (inv_h _ _ _ HI) as Hh.
  assert (Hlarva_sorted : sorted_state larva).
  { rewrite Forall_forall in Hls. apply Hls.
    eapply list_elem_of_lookup_2; eassumption. }
  assert (Hlarva_prod : Forall (productive (self b)) larva).
  { rewrite Forall_forall in Hlp. apply Hlp.
    eapply list_elem_of_lookup_2; eassumption. }
  assert (Htarget_sorted : sorted_state target).
  { rewrite Forall_forall in Hls. apply Hls.
    eapply list_elem_of_lookup_2; eassumption. }
  assert (Htarget_prod : Forall (productive (self b)) target).
  { rewrite Forall_forall in Hlp. apply Hlp.
    eapply list_elem_of_lookup_2; eassumption. }
  assert (Hself1 : Forall sorted_state (self b1) /\
                   Forall (Forall (productive (self b1))) (self b1)).
  { unfold makeState in Hms.
    destruct (states b !! Fingerprint larva).
    - injection Hms as _ <-. auto.
    - injection Hms as _ <-. cbn [self]. split.
      + apply Forall_app. split; [assumption|]. now repeat constructor.
      + apply Forall_app. split.
        * now apply Forall_productive_app.
        * constructor; [|constructor].
          eapply Forall_impl; [exact Hlarva_prod|].
          intros x. apply productive_app. }
  destruct Hself1 as [Hss1 Hsp1].
  constructor; cbn [self states terminals larvae prevValue].
  - assumption.
  - apply Forall_insert; [assumption|].
    now apply sorted_state_snoc.
  - assumption.
  - apply Forall_insert.
    + rewrite Hextra. now apply Forall_productive_app.
    + apply Forall_app. split.
      * rewrite Hextra. eapply Forall_impl; [exact Htarget_prod|].
        intros x. apply productive_app.
      * constructor; [|constructor].
        destruct (Htop ltac:(lia)) as [Hend Hmid].
        destruct (decide (S i' = length (prevValue b))) as [Heq|Hne].
        -- left. rewrite Hterm. specialize (Hend Heq).
           rewrite Hte in Hend. now injection Hend.
        -- right. destruct Hmid as (L & HL & HLne); [lia|].
           rewrite Hla in HL. injection HL as <-.
           exists larva. rewrite Hdest. auto.
  - intros Hpos. split; [lia|]. intros _.
    exists (target ++ [t]). split.
    + apply list_lookup_insert_eq. eapply lookup_lt_Some; eassumption.
    + now destruct target.
Qed.

Lemma makeSuffixStates_loop_Canon V p i : forall b b',
  Z.of_nat (total_length V) <= 2 ^ 23 ->
  Inv V i b -> Canon i b ->
  makeSuffixStates_loop p i b = Ok b' ->
  Canon (Nat.min i p) b'.
Proof.
  induction i as [|i' IH]; intros b b' Hcap HI HC Hrun.
  - simpl in Hrun. injection Hrun as <-. assumption.
  - destruct (Nat.le_gt_cases (S i') p) as [Hle|Hgt].
    { rewrite makeSuffixStates_loop_stop in Hrun by assumption.
      injection Hrun as <-. now rewrite Nat.min_l by assumption. }
    destruct (inv_shape _ _ _ HI) as [Hl Ht].
    pose proof (inv_h _ _ _ HI) as Hh.
    destruct (lookup_lt_is_Some_2 (prevValue b) i') as [trigger Htr]; [lia|].
    destruct (lookup_lt_is_Some_2 (larvae b) (S i')) as [larva Hla]; [lia|].
    destruct (lookup_lt_is_Some_2 (terminals b) (S i')) as [terminal Hte]; [lia|].
    destruct (lookup_lt_is_Some_2 (larvae b) i') as [target Hta]; [lia|].
    rewrite (makeSuffixStates_loop_S _ _ _ _ _ _ _ Hgt Htr Hla Hte Hta) in Hrun.
    apply IH in Hrun; [| assumption | now apply mss_next_Inv
                       | now apply (mss_next_Canon V)].
    rewrite Nat.min_r in * by lia. assumption.
Qed.

(** What an iteration over the channel leaves, read off its result. *)
Lemma FromChannel_step_inv b v b' :
  FromChannel_step b v = Ok b' ->
  exists b1,
    makeSuffixStates (commonPrefixLen (prevValue b) v) b = Ok b1 /\
    self b' = self b1 /\
    larvae b'
    = take (commonPrefixLen (prevValue b) v + 1) (larvae b1)
      ++ replicate (length v - commonPrefixLen (prevValue b) v) [] /\
    terminals b' !! length v = Some true /\
    prevValue b' = v.
Proof.
  unfold FromChannel_step.
  destruct (bytes_Compare (prevValue b) v); try discriminate.
  destruct (makeSuffixStates _ b) as [b1|]; [|discriminate].
  cbn [mbind result_bind]. unfold slice_to.
  destruct (_ <=? length (larvae b1))%nat; [|discriminate].
  cbn [mbind result_bind].
  destruct (_ <=? length (terminals b1))%nat; [|discriminate].
  cbn [mbind result_bind]. unfold set_index.
  destruct (Nat.ltb_spec (length v)
              (length (take (commonPrefixLen (prevValue b) v + 1) (terminals b1)
                       ++ replicate (length v - commonPrefixLen (prevValue b) v)
                            false))) as [Hlt|]; [|discriminate].
  cbn [mbind result_bind]. intros H. injection H as <-.
  exists b1. cbn [self larvae terminals prevValue].
  repeat split. now apply list_lookup_insert_eq.
Qed.

Lemma FromChannel_step_Canon V b v b' :
  Z.of_nat (total_length V) <= 2 ^ 23 ->
  Inv V (length (prevValue b)) b -> Canon (length (prevValue b)) b ->
  FromChannel_step b v = Ok b' ->
  Canon (length (prevValue b')) b'.
Proof.
  intros Hcap HI HC Hstep.
  destruct (FromChannel_step_inv _ _ _ Hstep)
    as (b1 & Hrun & Hself & Hlarvae & Hterm & Hpv).
  apply (makeSuffixStates_loop_Canon V) in Hrun; try assumption.
  destruct Hrun as [Hss Hls Hsp Hlp _].
  constructor; rewrite ?Hself, ?Hlarvae, ?Hpv.
  - assumption.
  - apply Forall_app. split; [now apply Forall_take|].
    apply Forall_replicate. constructor.
  - assumption.
  - apply Forall_app. split; [now apply Forall_take|].
    apply Forall_replicate. constructor.
  - intros Hpos. split; [auto | lia].
Qed.

Lemma FromChannel_init_Canon : Canon 0 FromChannel_init.
Proof.
  constructor; cbn [self states terminals larvae prevValue FromChannel_init].
  - constructor.
  - repeat constructor.
  - constructor.
  - repeat constructor.
  - lia.
Qed.

Lemma FromChannel_loop_Canon values : forall V b b',
  Z.of_nat (total_length (V ++ values)) <= 2 ^ 23 ->
  Inv V (length (prevValue b)) b -> Canon (length (prevValue b)) b ->
  ascending (prevValue b) values ->
  FromChannel_loop b values = Ok b' ->
  Canon (length (prevValue b')) b'.
Proof.
  induction values as [|v values IH]; intros V b b' Hcap HI HC Hasc Hrun.
  - simpl in Hrun. injection Hrun as <-. assumption.
  - destruct Hasc as [Hlt Hasc].
    assert (Hcap1 : Z.of_nat (total_length (V ++ [v])) <= 2 ^ 23).
    { rewrite total_length_app_gen in *.
      unfold total_length in *. simpl in *. lia. }
    destruct (FromChannel_step_Inv V b v Hcap1 HI Hlt) as (b1 & Hstep & HI1 & Hpv).
    cbn [FromChannel_loop] in Hrun. rewrite Hstep in Hrun.
    cbn [mbind result_bind] in Hrun.
    apply (IH (V ++ [v]) b1); try assumption.
    + now rewrite <- app_assoc.
    + apply (FromChannel_step_Canon V b v); try assumption.
      rewrite total_length_app in Hcap1. lia.
    + now rewrite Hpv.
Qed.

(** The recogniser built from ascending values: its states have their
    triggers in strictly ascending order, its transitions are productive,
    no state occurs twice, every destination is an earlier state, and
    every state but the last is the destination of a transition. *)
Lemma FromChannel_built_canon (V : list (list byte)) :
  ascending [] V ->
  Z.of_nat (total_length V) <= 2 ^ 23 ->
  exists r root,
    FromChannel V = Ok (r ++ [root]) /\
    wf_rec (r ++ [root]) /\
    Forall (valid_state (length r)) (r ++ [root]) /\
    Forall sorted_state (r ++ [root]) /\
    Forall (Forall (productive (r ++ [root]))) (r ++ [root]) /\
    NoDup (r ++ [root]) /\
    (length r <= total_length V)%nat /\
    (forall id, (id < length r)%nat ->
       exists j s t, (r ++ [root]) !! j = Some s /\ t ∈ s /\
                     Z.to_nat (ToState t) = id) /\
    state_lang (table (r ++ [root])) root = V.
Proof.
  intros Hasc Hcap.
  destruct (FromChannel_loop_Inv V [] FromChannel_init) as (b & Hrun & HI);
    [exact Hcap | exact FromChannel_init_Inv | exact Hasc |].
  pose proof (FromChannel_loop_Canon V [] FromChannel_init b Hcap
                FromChannel_init_Inv FromChannel_init_Canon Hasc Hrun) as HC.
  rewrite app_nil_l in HI.
  destruct (FromChannel_finish_Inv V b Hcap HI)
    as (b1 & root & b2 & Hmss & HI1 & Hst2 & Hroot & Hms & Hself2 & Hfin
        & Hwf & Hvalid & Hlang).
  pose proof (makeSuffixStates_loop_Canon V 0 _ b b1 Hcap HI HC Hmss) as HC1.
  rewrite Nat.min_0_r in HC1.
  destruct HC1 as [Hss Hls Hsp Hlp _].
  assert (Hroot_in : root ∈ larvae b1)
    by (eapply list_elem_of_lookup_2; eassumption).
  exists (self b1), root. unfold FromChannel. rewrite Hrun.
  split; [assumption|]. split; [assumption|].
  split.
  { apply Forall_app. split; [|now repeat constructor].
    apply Forall_forall. intros s Hs.
    apply list_elem_of_lookup in Hs as [i Hi].
    eapply valid_state_mono;
      [|exact (store_valid _ (inv_store _ _ _ HI1) _ _ Hi)].
    apply lookup_lt_Some in Hi. lia. }
  split.
  { apply Forall_app. split; [assumption|].
    constructor; [|constructor]. rewrite Forall_forall in Hls. now apply Hls. }
  split.
  { apply Forall_app. split; [now apply Forall_productive_app|].
    constructor; [|constructor].
    rewrite Forall_forall in Hlp. specialize (Hlp _ Hroot_in).
    eapply Forall_impl; [exact Hlp|]. intros x. apply productive_app. }
  split.
  { rewrite <- Hself2. apply NoDup_alt. intros i j s Hi Hj.
    pose proof (store_map1 _ Hst2 _ _ Hi) as H1.
    pose proof (store_map1 _ Hst2 _ _ Hj) as H2. congruence. }
  split.
  { pose proof (inv_size _ _ _ HI1). lia. }
  split; [|assumption].
  intros id Hid.
  destruct (inv_reach _ _ _ HI1 id Hid)
    as [(j & s & x & Hj & Hx & Hd)|(i & L & x & Hi & HL & Hx & Hd)].
  - exists j, s, x. split; [now apply lookup_app_l_Some | auto].
  - assert (i = 0%nat) as -> by lia.
    rewrite Hroot in HL. injection HL as <-.
    exists (length (self b1)), root, x.
    split; [|auto]. rewrite lookup_app_r by lia. now rewrite Nat.sub_diag.
Qed.

(** ** Membership in a built recogniser *)

Lemma longest_match_app (A B : list (list byte)) (x : list byte) :
  longest_match (A ++ B) x
  = Nat.max (longest_match A x) (longest_match B x).
Proof.
  unfold longest_match. induction A as [|v A IH]; [reflexivity|].
  cbn [app foldr]. rewrite IH. apply Nat.max_assoc.
Qed.

Lemma commonPrefixLen_nil_r (v : list byte) : commonPrefixLen v [] = 0%nat.
Proof. now destruct v. Qed.

Lemma commonPrefixLen_cons_same (c : byte) (w rest : list byte) :
  commonPrefixLen (c :: w) (c :: rest) = S (commonPrefixLen w rest).
Proof.
  cbn [commonPrefixLen].
  now rewrite (Byte.byte_dec_lb (x := c) (y := c) eq_refl).
Qed.

Lemma commonPrefixLen_cons_other (c' c : byte) (w rest : list byte) :
  c' <> c -> commonPrefixLen (c' :: w) (c :: rest) = 0%nat.
Proof.
  intros Hne. cbn [commonPrefixLen].
  destruct (Byte.eqb c' c) eqn:Heq; [|reflexivity].
  now apply Byte.byte_dec_bl in Heq.
Qed.

Lemma commonPrefixLen_refl (v : list byte) : commonPrefixLen v v = length v.
Proof.
  induction v as [|c v IH]; [reflexivity|].
  rewrite commonPrefixLen_cons_same, IH. reflexivity.
Qed.

Lemma longest_match_nil_r (L : list (list byte)) : longest_match L [] = 0%nat.
Proof.
  unfold longest_match. induction L as [|v L IH]; [reflexivity|].
  cbn [foldr]. now rewrite IH, commonPrefixLen_nil_r.
Qed.

Lemma longest_match_le (L : list (list byte)) (x : list byte) :
  (longest_match L x <= length x)%nat.
Proof.
  unfold longest_match. induction L as [|v L IH]; cbn [foldr]; [lia|].
  destruct (commonPrefixLen_le v x). lia.
Qed.

Lemma longest_match_member (L : list (list byte)) (v : list byte) :
  In v L -> longest_match L v = length v.
Proof.
  intros Hin. pose proof (longest_match_le L v) as Hle.
  enough (length v <= longest_match L v)%nat by lia. clear Hle.
  unfold longest_match. induction L as [|w L IH]; [contradiction|].
  cbn [foldr]. destruct Hin as [->|Hin].
  - rewrite commonPrefixLen_refl. lia.
  - specialize (IH Hin). lia.
Qed.

Lemma longest_match_zero (L : list (list byte)) (x : list byte) :
  Forall (fun w => commonPrefixLen w x = 0%nat) L -> longest_match L x = 0%nat.
Proof.
  unfold longest_match. induction 1 as [|w L Hw _ IH]; [reflexivity|].
  cbn [foldr]. now rewrite Hw, IH.
Qed.

Lemma longest_match_map_cons (c : byte) (L : list (list byte)) (rest : list byte) :
  L <> [] ->
  longest_match (map (cons c) L) (c :: rest) = S (longest_match L rest).
Proof.
  unfold longest_match. induction L as [|w L IH]; [congruence|]. intros _.
  cbn [map foldr]. rewrite commonPrefixLen_cons_same.
  destruct L as [|w' L'].
  - cbn [map foldr]. lia.
  - rewrite IH by discriminate. lia.
Qed.

Lemma longest_match_edge_other tbl (t : Z) (c : byte) (rest : list byte) :
  Trigger t <> c -> longest_match (edge_lang tbl t) (c :: rest) = 0%nat.
Proof.
  intros Hne. apply longest_match_zero. unfold edge_lang.
  apply Forall_app. split.
  - destruct (IsTerminal t); [|constructor].
    constructor; [|constructor]. now apply commonPrefixLen_cons_other.
  - apply Forall_forall. intros w Hw.
    apply list_elem_of_In, in_map_iff in Hw as (w' & <- & _).
    now apply commonPrefixLen_cons_other.
Qed.

Lemma longest_match_edge_same tbl (t : Z) (rest : list byte) :
  IsTerminal t = true \/ default [] (tbl !! Z.to_nat (ToState t)) <> [] ->
  longest_match (edge_lang tbl t) (Trigger t :: rest)
  = S (longest_match (default [] (tbl !! Z.to_nat (ToState t))) rest).
Proof.
  intros Hprod. unfold edge_lang. rewrite longest_match_app.
  set (Lnext := default [] (tbl !! Z.to_nat (ToState t))) in *.
  destruct Lnext as [|w Lnext'] eqn:HL.
  - destruct Hprod as [-> |]; [|congruence].
    unfold longest_match. cbn [map foldr].
    rewrite commonPrefixLen_cons_same. cbn. reflexivity.
  - rewrite longest_match_map_cons by discriminate.
    destruct (IsTerminal t).
    + unfold longest_match at 1. cbn [foldr].
      rewrite commonPrefixLen_cons_same. cbn [commonPrefixLen]. lia.
    + reflexivity.
Qed.

Lemma sorted_state_unique (s : list Z) (t1 t2 : Z) :
  sorted_state s -> t1 ∈ s -> t2 ∈ s -> Trigger t1 = Trigger t2 -> t1 = t2.
Proof.
  intros Hs H1 H2 Heq.
  apply list_elem_of_lookup in H1 as [i Hi].
  apply list_elem_of_lookup in H2 as [j Hj].
  destruct (Nat.lt_trichotomy i j) as [Hlt|[->|Hgt]].
  - pose proof (StronglySorted_lookup _ _ Hs i j t1 t2 Hlt Hi Hj) as H.
    unfold trigger_lt in H. rewrite Heq in H. lia.
  - congruence.
  - pose proof (StronglySorted_lookup _ _ Hs j i t2 t1 Hgt Hj Hi) as H.
    unfold trigger_lt in H. rewrite Heq in H. lia.
Qed.

Lemma longest_match_state_none tbl (s : list Z) (c : byte) (rest : list byte) :
  (forall t, t ∈ s -> Trigger t <> c) ->
  longest_match (state_lang tbl s) (c :: rest) = 0%nat.
Proof.
  unfold state_lang. induction s as [|a s IH]; intros Hno; [reflexivity|].
  cbn [flat_map]. rewrite longest_match_app, IH.
  - rewrite longest_match_edge_other; [reflexivity|].
    apply Hno. now left.
  - intros t Ht. apply Hno. now right.
Qed.

Lemma longest_match_state tbl (s : list Z) (t : Z) (rest : list byte) :
  sorted_state s -> t ∈ s ->
  longest_match (state_lang tbl s) (Trigger t :: rest)
  = longest_match (edge_lang tbl t) (Trigger t :: rest).
Proof.
  intros Hs Ht.
  assert (Huniq : forall t', t' ∈ s -> Trigger t' = Trigger t -> t' = t)
    by (intros t' Ht' Heq; now apply (sorted_state_unique s)).
  clear Hs. unfold state_lang.
  induction s as [|a s IH]; [now apply elem_of_nil in Ht|].
  cbn [flat_map]. rewrite longest_match_app.
  assert (Huniq' : forall t', t' ∈ s -> Trigger t' = Trigger t -> t' = t)
    by (intros t' Ht'; apply Huniq; now right).
  destruct (decide (t ∈ s)) as [Hin|Hnin].
  - rewrite (IH Hin Huniq').
    destruct (Byte.byte_eq_dec (Trigger a) (Trigger t)) as [Heq|Hne].
    + rewrite (Huniq a ltac:(now left) Heq). apply Nat.max_id.
    + rewrite longest_match_edge_other by assumption. reflexivity.
  - apply elem_of_cons in Ht as [->|Ht]; [|contradiction].
    fold (state_lang tbl s). rewrite longest_match_state_none; [lia|].
    intros t' Ht' Heq. apply Hnin. now rewrite <- (Huniq' t' Ht' Heq).
Qed.

(** The sequences of a state that begin with a byte. *)
Lemma state_lang_cons tbl (s : list Z) (c : byte) (w : list byte) :
  In (c :: w) (state_lang tbl s) <->
  exists t, t ∈ s /\ Trigger t = c /\
    ((w = [] /\ IsTerminal t = true) \/
     In w (default [] (tbl !! Z.to_nat (ToState t)))).
Proof.
  unfold state_lang. rewrite in_flat_map. split.
  - intros (t & Ht & Hw). exists t. split; [now apply list_elem_of_In|].
    unfold edge_lang in Hw. apply in_app_or in Hw as [Hw|Hw].
    + destruct (IsTerminal t) eqn:Hterm; [|contradiction].
      destruct Hw as [Hw|[]]. injection Hw as <- <-. auto.
    + apply in_map_iff in Hw as (w' & Hw' & Hin). injection Hw' as <- <-. auto.
  - intros (t & Ht & <- & Hw). exists t. split; [now apply list_elem_of_In|].
    unfold edge_lang. apply in_or_app.
    destruct Hw as [[-> ->]|Hw]; [left; now left|].
    right. apply in_map_iff. eauto.
Qed.

(** A state with transitions accepts something. *)
Lemma state_lang_productive r :
  wf_rec r -> Forall (Forall (productive r)) r ->
  forall (i : nat) (s : list Z), r !! i = Some s -> s <> [] ->
    state_lang (table r) s <> [].
Proof.
  intros Hwf Hprod i. induction i as [i IH] using lt_wf_ind.
  intros s Hi Hne. destruct s as [|t s']; [congruence|].
  unfold state_lang. cbn [flat_map]. unfold edge_lang at 1.
  assert (Ht : productive r t).
  { rewrite Forall_forall in Hprod.
    specialize (Hprod _ (list_elem_of_lookup_2 _ _ _ Hi)).
    now apply Forall_cons in Hprod as [? _]. }
  destruct Ht as [-> |(s'' & Hs'' & Hne'')]; [discriminate|].
  pose proof (Hwf _ _ Hi) as Hdest. apply Forall_cons in Hdest as [Hdest _].
  rewrite (table_lookup _ _ _ Hwf Hs''). cbn [default from_option id].
  pose proof (IH _ Hdest s'' Hs'' Hne'') as HL.
  destruct (state_lang (table r) s''); [congruence|].
  destruct (IsTerminal t); discriminate.
Qed.

Lemma Recognizes_loop_lang r :
  wf_rec r -> Forall sorted_state r -> Forall (Forall (productive r)) r ->
  forall (x : list byte) (i : nat) (s : list Z) (tran : Z),
    r !! i = Some s ->
    exists t', Recognizes_loop r x tran s = Ok t' /\
      (IsTerminal t' = true <->
       match longest_match (state_lang (table r) s) x with
       | O => IsTerminal tran = true
       | S _ => In (take (longest_match (state_lang (table r) s) x) x)
                  (state_lang (table r) s)
       end).
Proof.
  intros Hwf Hsorted Hprod x.
  induction x as [|c rest IH]; intros i s tran Hi.
  - exists tran. split; [reflexivity|]. now rewrite longest_match_nil_r.
  - cbn [Recognizes_loop].
    assert (Hs : sorted_state s).
    { rewrite Forall_forall in Hsorted. apply Hsorted.
      eapply list_elem_of_lookup_2; eassumption. }
    assert (Hsle : StronglySorted trigger_le s).
    { eapply StronglySorted_weaken; [|exact Hs].
      intros a b _ _. unfold trigger_lt, trigger_le. lia. }
    destruct (IndexForTrigger_found s c) as [Hle Hfound].
    destruct (Nat.ltb_spec (IndexForTrigger s c) (length s)) as [Hlt|Hge].
    + destruct (Hfound Hlt) as (t & Ht & Hc).
      rewrite (nth_lookup_Z _ _ _ Ht).
      assert (Hin : t ∈ s) by (eapply list_elem_of_lookup_2; eassumption).
      pose proof (Hwf _ _ Hi) as Hdest. rewrite Forall_forall in Hdest.
      specialize (Hdest _ Hin). simpl in Hdest.
      pose proof (lookup_lt_Some _ _ _ Hi) as Hilen.
      destruct (lookup_lt_is_Some_2 r (Z.to_nat (ToState t))) as [next Hnext];
        [lia|].
      rewrite (index_lookup _ _ _ Hnext). cbn [mbind result_bind].
      destruct (IH (Z.to_nat (ToState t)) next t Hnext) as (t' & Hrun & Hspec).
      exists t'. split; [assumption|]. rewrite Hspec. clear Hspec Hrun.
      pose proof (table_lookup _ _ _ Hwf Hnext) as Htbl.
      assert (Hedge : IsTerminal t = true \/
                      default [] (table r !! Z.to_nat (ToState t)) <> []).
      { pose proof Hprod as Hp. rewrite Forall_forall in Hp.
        specialize (Hp _ (list_elem_of_lookup_2 _ _ _ Hi)).
        rewrite Forall_forall in Hp.
        destruct (Hp _ Hin) as [|(s' & Hs' & Hne)]; [now left|].
        right. rewrite Htbl. cbn [default from_option id].
        rewrite Hnext in Hs'. injection Hs' as <-.
        now apply (state_lang_productive r Hwf Hprod (Z.to_nat (ToState t))). }
      rewrite <- Hc.
      rewrite (longest_match_state _ _ _ _ Hs Hin).
      rewrite (longest_match_edge_same _ _ _ Hedge).
      rewrite Htbl. cbn [default from_option id].
      set (Lnext := state_lang (table r) next).
      set (n := longest_match Lnext rest).
      cbn [take]. rewrite state_lang_cons.
      assert (Hiff : forall w,
                (exists t0, t0 ∈ s /\ Trigger t0 = Trigger t /\
                   ((w = [] /\ IsTerminal t0 = true) \/
                    In w (default [] (table r !! Z.to_nat (ToState t0)))))
                <-> (w = [] /\ IsTerminal t = true) \/ In w Lnext).
      { intros w. split.
        - intros (t0 & Ht0 & Heq & Hw).
          rewrite (sorted_state_unique s t0 t Hs Ht0 Hin Heq) in Hw.
          rewrite Htbl in Hw. exact Hw.
        - intros Hw. exists t. rewrite Htbl. auto. }
      rewrite Hiff.
      pose proof (longest_match_le Lnext rest) as Hn. fold n in Hn.
      destruct n as [|m] eqn:Hneq.
      * rewrite take_0. split; [auto|].
        intros [[_ H]|H]; [assumption|].
        now apply state_lang_not_nil in H.
      * destruct rest as [|c' rest']; [simpl in Hn; lia|].
        cbn [take]. split; [auto|].
        intros [[H _]|H]; [discriminate | assumption].
    + replace (IndexForTrigger s c <? length s)%nat with false
        by (symmetry; apply Nat.ltb_ge; assumption).
      exists tran. split; [reflexivity|].
      rewrite longest_match_state_none; [reflexivity|].
      intros t Ht Hc. apply list_elem_of_lookup in Ht as [j Hj].
      destruct (IndexForTrigger_first s c Hsle j t Hj Hc) as [Hfirst _].
      apply lookup_lt_Some in Hj. lia.
Qed.

(** [Recognizes] on a built recogniser: for ascending values within the
    capacity of the state ids it never panics, and it returns true
    exactly when the longest prefix that the sequence shares with one of
    the values is itself one of the values. It is true for every value;
    it is also true for a sequence that is not a value when its bytes
    after such a prefix have no transition. *)
Theorem Recognizes_built (V : list (list byte)) :
  ascending [] V ->
  Z.of_nat (total_length V) <= 2 ^ 23 ->
  exists r, FromChannel V = Ok r /\
    (forall x, exists b, Recognizes r x = Ok b /\
       (b = true <-> In (take (longest_match V x) x) V)) /\
    (forall v, In v V -> Recognizes r v = Ok true).
Proof.
  intros Hasc Hcap.
  destruct (FromChannel_built_canon V Hasc Hcap)
    as (r0 & root & Hrun & Hwf & _ & Hsorted & Hprod & _ & _ & _ & Hlang).
  exists (r0 ++ [root]). split; [assumption|].
  assert (Hspec : forall x, exists b, Recognizes (r0 ++ [root]) x = Ok b /\
             (b = true <-> In (take (longest_match V x) x) V)).
  { intros x. unfold Recognizes. rewrite length_app. simpl length.
    replace (length r0 + 1 =? 0)%nat with false
      by (symmetry; apply Nat.eqb_neq; lia).
    rewrite Start_snoc. cbn [mbind result_bind].
    destruct (Recognizes_loop_lang _ Hwf Hsorted Hprod x (length r0) root 0)
      as (t' & Hloop & Hspec).
    { rewrite lookup_app_r by lia. now rewrite Nat.sub_diag. }
    rewrite Hloop. cbn [mbind result_bind].
    exists (IsTerminal t'). split; [reflexivity|].
    rewrite Hspec, Hlang.
    destruct (longest_match V x) eqn:Hn; [|reflexivity].
    rewrite take_0. split; [discriminate|].
    intros H. rewrite <- Hlang in H. now apply state_lang_not_nil in H. }
  split; [assumption|].
  intros v Hv. destruct (Hspec v) as (b & Hb & Hiff).
  rewrite Hb. f_equal. apply Hiff.
  rewrite (longest_match_member V v Hv), firstn_all. assumption.
Qed.

Lemma Recognizes_built_witness :
  exists r, FromChannel [bytes_of "A"; bytes_of "BC"] = Ok r /\
    (forall x, exists b, Recognizes r x = Ok b /\
       (b = true <->
        In (take (longest_match [bytes_of "A"; bytes_of "BC"] x) x)
          [bytes_of "A"; bytes_of "BC"])) /\
    (forall v, In v [bytes_of "A"; bytes_of "BC"] -> Recognizes r v = Ok true).
Proof.
  apply (Recognizes_built [bytes_of "A"; bytes_of "BC"]).
  - simpl. auto.
  - vm_compute. discriminate.
Defined.

(** ** The parts of a packed transition *)

Lemma ToState_range (t : Z) : 0 <= ToState t < 2 ^ 23.
Proof.
  unfold ToState. change 0x7fffff with (Z.ones 23).
  rewrite Z.land_ones by lia. apply Z.mod_pos_bound. lia.
Qed.

Lemma transition_parts (t : Z) :
  is_uint32 t ->
  t = Z_of_byte (Trigger t) * 2 ^ 24 + (if IsTerminal t then 2 ^ 23 else 0)
      + ToState t.
Proof.
  intros Ht. rewrite (Trigger_uint32 t Ht), IsTerminal_testbit.
  unfold is_uint32 in Ht. unfold ToState.
  change 0x7fffff with (Z.ones 23). rewrite Z.land_ones by lia.
  rewrite Z.testbit_odd, Z.shiftr_div_pow2 by lia.
  set (q := t / 2 ^ 23).
  assert (Hq : t = q * 2 ^ 23 + t mod 2 ^ 23).
  { unfold q. rewrite Z.mul_comm. apply Z.div_mod. lia. }
  assert (Hq2 : t / 2 ^ 24 = q / 2).
  { unfold q. rewrite Z.div_div by lia. reflexivity. }
  rewrite Hq2.
  pose proof (Z.div_mod q 2 ltac:(lia)) as Hdm.
  rewrite Zmod_odd in Hdm.
  destruct (Z.odd q); lia.
Qed.

(** Taking a 32-bit transition apart and packing the parts again gives
    the transition back. *)
Theorem NewTransition_of_parts (t : Z) :
  is_uint32 t ->
  NewTransition (Trigger t) (ToState t) (IsTerminal t) = t /\
  0 <= ToState t < 2 ^ 23.
Proof.
  intros Ht. pose proof (ToState_range t) as Hd.
  split; [|assumption].
  rewrite NewTransition_arith, Z.mod_small by assumption.
  symmetry. now apply transition_parts.
Qed.

Lemma NewTransition_of_parts_witness :
  NewTransition (Trigger 0x41800003) (ToState 0x41800003)
    (IsTerminal 0x41800003) = 0x41800003 /\
  0 <= ToState 0x41800003 < 2 ^ 23.
Proof.
  apply (NewTransition_of_parts 0x41800003). unfold is_uint32. lia.
Defined.

Lemma transition_eq (a b : Z) :
  is_uint32 a -> is_uint32 b ->
  Trigger a = Trigger b -> IsTerminal a = IsTerminal b ->
  Z.to_nat (ToState a) = Z.to_nat (ToState b) -> a = b.
Proof.
  intros Ha Hb Ht Hf Hd.
  pose proof (ToState_range a). pose proof (ToState_range b).
  apply Z2Nat.inj in Hd; [|lia|lia].
  rewrite (transition_parts a Ha), (transition_parts b Hb), Ht, Hf, Hd.
  reflexivity.
Qed.

(** ** The shape of a built recogniser *)

Lemma sorted_state_bound (s : list Z) : forall lo : Z,
  lo <= 256 ->
  sorted_state s ->
  Forall (fun t => lo <= Z_of_byte (Trigger t)) s ->
  Z.of_nat (length s) <= 256 - lo.
Proof.
  induction s as [|a s IH]; intros lo Hlo Hs Hge; [simpl; lia|].
  apply StronglySorted_cons in Hs as [Ha Hs].
  apply Forall_cons in Hge as [Hlo_a _].
  pose proof (Z_of_byte_range (Trigger a)) as Hr.
  specialize (IH (Z_of_byte (Trigger a) + 1) ltac:(lia) Hs).
  cbn [length]. rewrite Nat2Z.inj_succ.
  enough (Z.of_nat (length s) <= 256 - (Z_of_byte (Trigger a) + 1)) by lia.
  apply IH. eapply Forall_impl; [exact Ha|].
  intros x Hx. unfold trigger_lt in Hx. lia.
Qed.

Lemma sorted_state_length (s : list Z) :
  sorted_state s -> (length s <= 256)%nat.
Proof.
  intros Hs.
  pose proof (sorted_state_bound s 0 ltac:(lia) Hs) as H.
  enough (Z.of_nat (length s) <= 256 - 0) by lia.
  apply H. apply Forall_forall. intros t _.
  pose proof (Z_of_byte_range (Trigger t)). lia.
Qed.

(** The recogniser built from ascending values is a graph without cycles
    in which equal states are shared: no state is stored twice, every
    transition is a 32-bit value that leads to a state stored before its
    own, every state but the last, the start state, is the destination of
    a transition, and there is at most one state more than the values
    have bytes. *)
Theorem FromChannel_shared_acyclic (V : list (list byte)) :
  ascending [] V ->
  Z.of_nat (total_length V) <= 2 ^ 23 ->
  exists r, FromChannel V = Ok r /\
    NoDup r /\
    (forall (i : nat) s t, r !! i = Some s -> t ∈ s ->
       is_uint32 t /\ (Z.to_nat (ToState t) < i)%nat) /\
    (forall id : nat, (S id < length r)%nat ->
       exists (j : nat) s t,
         r !! j = Some s /\ t ∈ s /\ Z.to_nat (ToState t) = id) /\
    (1 <= length r <= total_length V + 1)%nat.
Proof.
  intros Hasc Hcap.
  destruct (FromChannel_built_canon V Hasc Hcap)
    as (r0 & root & Hrun & Hwf & Hvalid & _ & _ & Hnodup & Hsize & Hreach & _).
  exists (r0 ++ [root]). split; [assumption|]. split; [assumption|].
  rewrite length_app. simpl length. split; [|split; [|lia]].
  - intros i s t Hi Ht. split.
    + rewrite Forall_forall in Hvalid.
      specialize (Hvalid _ (list_elem_of_lookup_2 _ _ _ Hi)).
      apply valid_state_uint32 in Hvalid.
      rewrite Forall_forall in Hvalid. now apply Hvalid.
    + pose proof (Hwf _ _ Hi) as Hd. rewrite Forall_forall in Hd.
      now apply Hd.
  - intros id Hid. apply Hreach. lia.
Qed.

Lemma FromChannel_shared_acyclic_witness :
  exists r, FromChannel [bytes_of "AB"; bytes_of "CB"] = Ok r /\
    NoDup r /\
    (forall (i : nat) s t, r !! i = Some s -> t ∈ s ->
       is_uint32 t /\ (Z.to_nat (ToState t) < i)%nat) /\
    (forall id : nat, (S id < length r)%nat ->
       exists (j : nat) s t,
         r !! j = Some s /\ t ∈ s /\ Z.to_nat (ToState t) = id) /\
    (1 <= length r <= total_length [bytes_of "AB"; bytes_of "CB"] + 1)%nat.
Proof.
  apply (FromChannel_shared_acyclic [bytes_of "AB"; bytes_of "CB"]).
  - simpl. auto.
  - vm_compute. discriminate.
Defined.

(** In the recogniser built from ascending values the transitions of
    every state are in strictly ascending order of their triggers, so a
    state has at most 256 of them and at most one for a byte; and every
    transition is terminal or leads to a state that has transitions. *)
Theorem FromChannel_states_ordered (V : list (list byte)) :
  ascending [] V ->
  Z.of_nat (total_length V) <= 2 ^ 23 ->
  exists r, FromChannel V = Ok r /\
    forall (i : nat) s, r !! i = Some s ->
      (forall (j k : nat) x y, (j < k)%nat ->
         s !! j = Some x -> s !! k = Some y ->
         Z_of_byte (Trigger x) < Z_of_byte (Trigger y)) /\
      (length s <= 256)%nat /\
      (forall t, t ∈ s ->
         IsTerminal t = true \/
         exists s', r !! Z.to_nat (ToState t) = Some s' /\ s' <> []).
Proof.
  intros Hasc Hcap.
  destruct (FromChannel_built_canon V Hasc Hcap)
    as (r0 & root & Hrun & _ & _ & Hsorted & Hprod & _).
  exists (r0 ++ [root]). split; [assumption|].
  intros i s Hi.
  assert (Hin : s ∈ r0 ++ [root]) by (eapply list_elem_of_lookup_2; eassumption).
  rewrite Forall_forall in Hsorted, Hprod.
  pose proof (Hsorted _ Hin) as Hs.
  split; [|split].
  - intros j k x y Hjk Hj Hk.
    exact (StronglySorted_lookup _ _ Hs j k x y Hjk Hj Hk).
  - now apply sorted_state_length.
  - intros t Ht. specialize (Hprod _ Hin).
    rewrite Forall_forall in Hprod. now apply Hprod.
Qed.

Lemma FromChannel_states_ordered_witness :
  exists r, FromChannel [bytes_of "AB"; bytes_of "CB"] = Ok r /\
    forall (i : nat) s, r !! i = Some s ->
      (forall (j k : nat) x y, (j < k)%nat ->
         s !! j = Some x -> s !! k = Some y ->
         Z_of_byte (Trigger x) < Z_of_byte (Trigger y)) /\
      (length s <= 256)%nat /\
      (forall t, t ∈ s ->
         IsTerminal t = true \/
         exists s', r !! Z.to_nat (ToState t) = Some s' /\ s' <> []).
Proof.
  apply (FromChannel_states_ordered [bytes_of "AB"; bytes_of "CB"]).
  - simpl. auto.
  - vm_compute. discriminate.
Defined.

(** ** No two states accept the same sequences *)

Lemma table_not_nil r (d : nat) :
  wf_rec r -> ~ In [] (default [] (table r !! d)).
Proof.
  intros Hwf. destruct (r !! d) as [s'|] eqn:Hd.
  - rewrite (table_lookup _ _ _ Hwf Hd). cbn [default from_option id].
    intros H. now apply state_lang_not_nil in H.
  - apply lookup_ge_None in Hd.
    rewrite (proj2 (lookup_ge_None (table r) d)) by now rewrite table_length.
    cbn. tauto.
Qed.

Lemma state_lang_edge tbl (s : list Z) (t : Z) (w : list byte) :
  sorted_state s -> t ∈ s ->
  In (Trigger t :: w) (state_lang tbl s) <->
  (w = [] /\ IsTerminal t = true) \/
  In w (default [] (tbl !! Z.to_nat (ToState t))).
Proof.
  intros Hs Ht. rewrite state_lang_cons. split.
  - intros (t0 & Ht0 & Heq & Hw).
    now rewrite (sorted_state_unique s t0 t Hs Ht0 Ht Heq) in Hw.
  - intros Hw. exists t. auto.
Qed.

Lemma edge_word r (i : nat) (s : list Z) (t : Z) :
  wf_rec r -> Forall (Forall (productive r)) r ->
  r !! i = Some s -> t ∈ s ->
  exists w, In (Trigger t :: w) (state_lang (table r) s).
Proof.
  intros Hwf Hprod Hi Ht.
  pose proof Hprod as Hp. rewrite Forall_forall in Hp.
  specialize (Hp _ (list_elem_of_lookup_2 _ _ _ Hi)).
  rewrite Forall_forall in Hp.
  destruct (Hp _ Ht) as [Hterm|(s' & Hs' & Hne)].
  - exists []. apply state_lang_cons. exists t. auto.
  - pose proof (state_lang_productive r Hwf Hprod _ s' Hs' Hne) as HL.
    destruct (state_lang (table r) s') as [|w L] eqn:HLs; [congruence|].
    exists w. apply state_lang_cons. exists t.
    split; [assumption|]. split; [reflexivity|]. right.
    rewrite (table_lookup _ _ _ Hwf Hs'), HLs. now left.
Qed.

Lemma sorted_state_NoDup (s : list Z) : sorted_state s -> NoDup s.
Proof.
  induction 1 as [|a s Hs IH Ha]; constructor; [|assumption].
  intros Hin. rewrite Forall_forall in Ha. specialize (Ha _ Hin).
  unfold trigger_lt in Ha. lia.
Qed.

Lemma sorted_state_ext (s1 s2 : list Z) :
  sorted_state s1 -> sorted_state s2 ->
  (forall t, t ∈ s1 <-> t ∈ s2) -> s1 = s2.
Proof.
  intros H1 H2 Hiff.
  apply (StronglySorted_unique_strong trigger_lt); try assumption.
  - intros x1 x2 _ _ Ha Hb. unfold trigger_lt in *. lia.
  - apply NoDup_Permutation; [now apply sorted_state_NoDup
                             | now apply sorted_state_NoDup | assumption].
Qed.

Lemma state_lang_inj r :
  wf_rec r -> Forall (Forall is_uint32) r ->
  Forall sorted_state r -> Forall (Forall (productive r)) r -> NoDup r ->
  forall (n i j : nat) (si sj : list Z),
    (i < n)%nat -> (j < n)%nat ->
    r !! i = Some si -> r !! j = Some sj ->
    (forall w, In w (state_lang (table r) si)
               <-> In w (state_lang (table r) sj)) ->
    si = sj.
Proof.
  intros Hwf Hu32 Hsorted Hprod Hnodup n.
  induction n as [|n IH]; intros i j si sj Hin Hjn Hi Hj Hlang; [lia|].
  assert (Hdir : forall (i j : nat) (si sj : list Z),
             (i < S n)%nat -> (j < S n)%nat ->
             r !! i = Some si -> r !! j = Some sj ->
             (forall w, In w (state_lang (table r) si)
                        <-> In w (state_lang (table r) sj)) ->
             forall t, t ∈ si -> t ∈ sj).
  { clear i j si sj Hin Hjn Hi Hj Hlang.
    intros i j si sj Hin Hjn Hi Hj Hlang t Ht.
    assert (Hsi : sorted_state si).
    { rewrite Forall_forall in Hsorted. apply Hsorted.
      eapply list_elem_of_lookup_2; eassumption. }
    assert (Hsj : sorted_state sj).
    { rewrite Forall_forall in Hsorted. apply Hsorted.
      eapply list_elem_of_lookup_2; eassumption. }
    destruct (edge_word r i si t Hwf Hprod Hi Ht) as [w0 Hw0].
    pose proof (proj1 (Hlang _) Hw0) as Hw0'.
    apply state_lang_cons in Hw0' as (t' & Ht' & Htrig & _).
    enough (t' = t) by now subst t'.
    assert (Hedge : forall w,
               (w = [] /\ IsTerminal t = true) \/
               In w (default [] (table r !! Z.to_nat (ToState t)))
               <-> (w = [] /\ IsTerminal t' = true) \/
                   In w (default [] (table r !! Z.to_nat (ToState t')))).
    { intros w. rewrite <- (state_lang_edge _ si t w Hsi Ht).
      rewrite <- (state_lang_edge _ sj t' w Hsj Ht'). rewrite Htrig.
      apply Hlang. }
    pose proof (table_not_nil r (Z.to_nat (ToState t)) Hwf) as Hn1.
    pose proof (table_not_nil r (Z.to_nat (ToState t')) Hwf) as Hn2.
    apply transition_eq.
    - rewrite Forall_forall in Hu32.
      specialize (Hu32 _ (list_elem_of_lookup_2 _ _ _ Hj)).
      rewrite Forall_forall in Hu32. now apply Hu32.
    - rewrite Forall_forall in Hu32.
      specialize (Hu32 _ (list_elem_of_lookup_2 _ _ _ Hi)).
      rewrite Forall_forall in Hu32. now apply Hu32.
    - assumption.
    - specialize (Hedge []).
      destruct (IsTerminal t), (IsTerminal t'); try reflexivity; exfalso.
      + destruct (proj1 Hedge) as [[_ H]|H]; [now left | discriminate | tauto].
      + destruct (proj2 Hedge) as [[_ H]|H]; [now left | discriminate | tauto].
    - pose proof (Hwf _ _ Hi) as Hd. rewrite Forall_forall in Hd.
      specialize (Hd _ Ht). simpl in Hd.
      pose proof (Hwf _ _ Hj) as Hd'. rewrite Forall_forall in Hd'.
      specialize (Hd' _ Ht'). simpl in Hd'.
      pose proof (lookup_lt_Some _ _ _ Hi) as Hilen.
      pose proof (lookup_lt_Some _ _ _ Hj) as Hjlen.
      destruct (lookup_lt_is_Some_2 r (Z.to_nat (ToState t))) as [nx Hnx]; [lia|].
      destruct (lookup_lt_is_Some_2 r (Z.to_nat (ToState t'))) as [nx' Hnx']; [lia|].
      assert (Heq : nx' = nx).
      { apply (IH (Z.to_nat (ToState t')) (Z.to_nat (ToState t)));
          [lia | lia | assumption | assumption |].
        intros w.
        pose proof (Hedge w) as He.
        rewrite (table_lookup _ _ _ Hwf Hnx), (table_lookup _ _ _ Hwf Hnx') in He.
        cbn [default from_option id] in He.
        destruct w as [|c w'].
        - split; intros H; now apply state_lang_not_nil in H.
        - split; intros H.
          + destruct (proj2 He) as [[Hnil _]|]; [now right | discriminate | assumption].
          + destruct (proj1 He) as [[Hnil _]|]; [now right | discriminate | assumption]. }
      subst nx'. eapply NoDup_lookup; eassumption. }
  assert (Hsi : sorted_state si).
  { rewrite Forall_forall in Hsorted. apply Hsorted.
    eapply list_elem_of_lookup_2; eassumption. }
  assert (Hsj : sorted_state sj).
  { rewrite Forall_forall in Hsorted. apply Hsorted.
    eapply list_elem_of_lookup_2; eassumption. }
  apply sorted_state_ext; try assumption.
  intros t. split.
  - now apply (Hdir i j si sj).
  - apply (Hdir j i sj si); try assumption.
    intros w. symmetry. apply Hlang.
Qed.

(** The recogniser built from ascending values is minimal: two different
    states never accept the same set of sequences. *)
Theorem FromChannel_minimal (V : list (list byte)) :
  ascending [] V ->
  Z.of_nat (total_length V) <= 2 ^ 23 ->
  exists r, FromChannel V = Ok r /\
    forall (i j : nat) (si sj : list Z),
      r !! i = Some si -> r !! j = Some sj ->
      (forall w, In w (state_lang (table r) si)
                 <-> In w (state_lang (table r) sj)) ->
      i = j.
Proof.
  intros Hasc Hcap.
  destruct (FromChannel_built_canon V Hasc Hcap)
    as (r0 & root & Hrun & Hwf & Hvalid & Hsorted & Hprod & Hnodup & _).
  exists (r0 ++ [root]). split; [assumption|].
  intros i j si sj Hi Hj Hlang.
  assert (Hu32 : Forall (Forall is_uint32) (r0 ++ [root])).
  { eapply Forall_impl; [exact Hvalid|]. intros s. apply valid_state_uint32. }
  pose proof (lookup_lt_Some _ _ _ Hi) as Hilen.
  pose proof (lookup_lt_Some _ _ _ Hj) as Hjlen.
  assert (si = sj) as ->
    by (apply (state_lang_inj _ Hwf Hu32 Hsorted Hprod Hnodup
                 (length (r0 ++ [root])) i j); assumption).
  eapply NoDup_lookup; eassumption.
Qed.

Lemma FromChannel_minimal_witness :
  exists r, FromChannel [bytes_of "AB"; bytes_of "CB"] = Ok r /\
    forall (i j : nat) (si sj : list Z),
      r !! i = Some si -> r !! j = Some sj ->
      (forall w, In w (state_lang (table r) si)
                 <-> In w (state_lang (table r) sj)) ->
      i = j.
Proof.
  apply (FromChannel_minimal [bytes_of "AB"; bytes_of "CB"]).
  - simpl. auto.
  - vm_compute. discriminate.
Defined.

(** ** The statistics of a recogniser *)

Lemma foldl_concat {A B} (f : A -> B -> A) (r : list (list B)) : forall a : A,
  foldl (fun a s => foldl f a s) a r = foldl f a (concat r).
Proof.
  induction r as [|s r IH]; intros a; [reflexivity|].
  cbn [foldl concat]. now rewrite foldl_app, IH.
Qed.

Lemma TotalTransitions_from (r : list (list Z)) : forall n : nat,
  foldl (fun num (s : list Z) => (num + length s)%nat) n r
  = (n + length (concat r))%nat.
Proof.
  induction r as [|s r IH]; intros n; cbn [foldl concat]; [simpl; lia|].
  rewrite IH, length_app. lia.
Qed.

Lemma TotalTransitions_concat (r : list (list Z)) :
  TotalTransitions r = length (concat r).
Proof. unfold TotalTransitions. now rewrite TotalTransitions_from. Qed.

Lemma MaxStateTransitions_from (r : list (list Z)) : forall acc : nat,
  let m := foldl (fun max (s : list Z) =>
                    if (max <? length s)%nat then length s else max) acc r in
  (acc <= m)%nat /\
  Forall (fun s => (length s <= m)%nat) r /\
  (m = acc \/ exists s, s ∈ r /\ length s = m).
Proof.
  induction r as [|s r IH]; intros acc; cbn [foldl].
  - split; [lia|]. split; [constructor | now left].
  - destruct (IH (if (acc <? length s)%nat then length s else acc))
      as (Hle & Hall & Hatt).
    set (m := foldl _ _ r) in *.
    destruct (Nat.ltb_spec acc (length s)) as [Hlt|Hge].
    + split; [lia|]. split; [constructor; [lia | assumption]|].
      right. destruct Hatt as [->|(s' & Hs' & Hlen)].
      * exists s. split; [now left | reflexivity].
      * exists s'. split; [now right | assumption].
    + split; [lia|]. split; [constructor; [lia | assumption]|].
      destruct Hatt as [->|(s' & Hs' & Hlen)]; [now left|].
      right. exists s'. split; [now right | assumption].
Qed.

Lemma concat_length_bound (r : list (list Z)) (m : nat) :
  Forall (fun s => (length s <= m)%nat) r ->
  (length (concat r) <= length r * m)%nat.
Proof.
  induction 1 as [|s r Hs _ IH]; cbn [concat length]; [lia|].
  rewrite length_app. lia.
Qed.

(** [MaxStateTransitions] is the length of a longest state: no state has
    more transitions, some state has as many unless there is no state,
    and [TotalTransitions], the sum of the lengths, is at most the number
    of states times it. *)
Theorem MaxStateTransitions_spec (r : list (list Z)) :
  Forall (fun s => (length s <= MaxStateTransitions r)%nat) r /\
  (r <> [] -> exists s, s ∈ r /\ length s = MaxStateTransitions r) /\
  (r = [] -> MaxStateTransitions r = 0%nat) /\
  TotalTransitions r = length (concat r) /\
  (TotalTransitions r <= length r * MaxStateTransitions r)%nat.
Proof.
  destruct (MaxStateTransitions_from r 0) as (_ & Hall & Hatt).
  fold (MaxStateTransitions r) in Hall, Hatt.
  split; [assumption|]. split; [|split; [|split]].
  - intros Hne. destruct Hatt as [H0|?]; [|assumption].
    destruct r as [|s r']; [congruence|].
    exists s. split; [now left|].
    apply Forall_cons in Hall as [Hs _]. lia.
  - intros ->. reflexivity.
  - apply TotalTransitions_concat.
  - rewrite TotalTransitions_concat. now apply concat_length_bound.
Qed.

Lemma count_dom (l : list Z) : forall m : gmap Z nat,
  dom (foldl (fun m t => <[t := (default 0 (m !! t) + 1)%nat]> m) m l)
  = dom m ∪ (list_to_set l : gset Z).
Proof.
  induction l as [|t l IH]; intros m; cbn [foldl list_to_set].
  - now rewrite (right_id_L ∅ (∪)).
  - rewrite IH, dom_insert_L, (comm_L (∪) {[t]} (dom m)).
    now rewrite (assoc_L (∪)).
Qed.

Lemma remove_dups_length (l : list Z) : (length (remove_dups l) <= length l)%nat.
Proof.
  induction l as [|x l IH]; [reflexivity|].
  cbn [remove_dups]. destruct (decide_rel elem_of x l); cbn [length]; lia.
Qed.

Lemma size_list_to_set_remove_dups (l : list Z) :
  size (list_to_set l : gset Z) = length (remove_dups l).
Proof.
  rewrite <- (size_list_to_set (C := gset Z) (remove_dups l))
    by apply NoDup_remove_dups.
  f_equal. apply set_eq. intros x.
  now rewrite !elem_of_list_to_set, elem_of_remove_dups.
Qed.

(** [UniqueTransitions] is the number of different transitions of the
    states together; it is at most [TotalTransitions]. *)
Theorem UniqueTransitions_spec (r : list (list Z)) :
  UniqueTransitions r = length (remove_dups (concat r)) /\
  (UniqueTransitions r <= TotalTransitions r)%nat.
Proof.
  assert (H : UniqueTransitions r = length (remove_dups (concat r))).
  { unfold UniqueTransitions.
    rewrite (foldl_concat
               (fun (m : gmap Z nat) t => <[t := (default 0 (m !! t) + 1)%nat]> m)).
    rewrite <- size_dom, count_dom, dom_empty_L, (left_id_L ∅ (∪)).
    apply size_list_to_set_remove_dups. }
  split; [assumption|].
  rewrite H, TotalTransitions_concat. apply remove_dups_length.
Qed.

(** *** Sorting *)

Lemma sort_insert_Permutation (t : Z) (l : list Z) : sort_insert t l ≡ₚ t :: l.
Proof.
  induction l as [|x l IH]; [reflexivity|].
  cbn [sort_insert]. destruct (t <=? x); [reflexivity|].
  rewrite IH. apply Permutation_swap.
Qed.

Lemma Sort_Permutation (l : list Z) : Sort l ≡ₚ l.
Proof.
  unfold Sort. induction l as [|x l IH]; [reflexivity|].
  cbn [foldr]. now rewrite sort_insert_Permutation, IH.
Qed.

Lemma sort_insert_sorted (t : Z) (l : list Z) :
  StronglySorted Z.le l -> StronglySorted Z.le (sort_insert t l).
Proof.
  induction 1 as [|x l Hl IH Hx]; [repeat constructor|].
  cbn [sort_insert]. destruct (Z.leb_spec t x) as [Hle|Hgt].
  - constructor; [now constructor|].
    constructor; [assumption|].
    eapply Forall_impl; [exact Hx|]. intros y Hy. simpl in Hy. lia.
  - constructor; [assumption|].
    rewrite sort_insert_Permutation. constructor; [lia | assumption].
Qed.

Lemma Sort_sorted (l : list Z) : StronglySorted Z.le (Sort l).
Proof.
  unfold Sort. induction l as [|x l IH]; [constructor|].
  cbn [foldr]. now apply sort_insert_sorted.
Qed.

Lemma sorted_NoDup_strict (l : list Z) :
  StronglySorted Z.le l -> NoDup l -> StronglySorted Z.lt l.
Proof.
  induction 1 as [|x l Hl IH Hx]; intros Hnd; [constructor|].
  apply NoDup_cons in Hnd as [Hnin Hnd].
  constructor; [now apply IH|].
  rewrite Forall_forall in *. intros y Hy. specialize (Hx y Hy).
  assert (x <> y) by (intros ->; contradiction). lia.
Qed.

Lemma trigger_dom (l : list Z) : forall m : gmap Z bool,
  dom (foldl (fun m t => <[Z_of_byte (Trigger t) := true]> m) m l)
  = dom m ∪ (list_to_set (map (fun t => Z_of_byte (Trigger t)) l) : gset Z).
Proof.
  induction l as [|t l IH]; intros m; cbn [foldl map list_to_set].
  - now rewrite (right_id_L ∅ (∪)).
  - rewrite IH, dom_insert_L, (comm_L (∪) {[Z_of_byte (Trigger t)]} (dom m)).
    now rewrite (assoc_L (∪)).
Qed.

Lemma map_byte_of_Z_sorted (l : list Z) :
  Forall (fun z => 0 <= z < 256) l ->
  StronglySorted Z.lt l ->
  StronglySorted (fun a b => Z_of_byte a < Z_of_byte b) (map byte_of_Z l).
Proof.
  intros Hr Hs. induction Hs as [|x l Hl IH Hx]; [constructor|].
  apply Forall_cons in Hr as [Hxr Hr].
  cbn [map]. constructor; [now apply IH|].
  apply Forall_forall. intros b Hb.
  apply list_elem_of_In, in_map_iff in Hb as (y & <- & Hy).
  apply list_elem_of_In in Hy.
  rewrite Forall_forall in Hx, Hr.
  specialize (Hx y Hy). specialize (Hr y Hy).
  rewrite !Z_of_byte_of_Z, !Z.mod_small by lia. assumption.
Qed.

Lemma elem_of_concat (r : list (list Z)) (t : Z) :
  t ∈ concat r <-> exists s, s ∈ r /\ t ∈ s.
Proof.
  rewrite list_elem_of_In, in_concat. split.
  - intros (s & Hs & Ht). exists s. now rewrite !list_elem_of_In.
  - intros (s & Hs & Ht). exists s. now rewrite <- !list_elem_of_In.
Qed.

(** [AllTriggers] "returns a sorted slice of all byte values that
    trigger a transition anywhere": the result is in strictly ascending
    order, so without repetition, and a byte is in it exactly when some
    transition of some state has it as its trigger. *)
Theorem AllTriggers_spec (r : list (list Z)) :
  StronglySorted (fun a b => Z_of_byte a < Z_of_byte b) (AllTriggers r) /\
  forall b : byte,
    b ∈ AllTriggers r <-> exists s t, s ∈ r /\ t ∈ s /\ Trigger t = b.
Proof.
  unfold AllTriggers.
  rewrite (foldl_concat
             (fun (m : gmap Z bool) t => <[Z_of_byte (Trigger t) := true]> m)).
  set (M := foldl _ ∅ (concat r)).
  assert (Hkeys : forall z, z ∈ (map_to_list M).*1
                            <-> exists t, t ∈ concat r /\ Z_of_byte (Trigger t) = z).
  { intros z.
    assert (Hdom : z ∈ (map_to_list M).*1 <-> z ∈ dom M).
    { rewrite elem_of_dom, list_elem_of_fmap. split.
      - intros ([k v] & -> & Hkv). apply elem_of_map_to_list in Hkv.
        now exists v.
      - intros [v Hv]. exists (z, v). split; [reflexivity|].
        now apply elem_of_map_to_list. }
    rewrite Hdom. unfold M. rewrite trigger_dom, dom_empty_L, (left_id_L ∅ (∪)).
    rewrite elem_of_list_to_set, list_elem_of_fmap. split.
    - intros (t & -> & Ht). eauto.
    - intros (t & Ht & <-). eauto. }
  assert (Hsorted_keys : forall z, z ∈ Sort (map_to_list M).*1
                                   <-> z ∈ (map_to_list M).*1).
  { intros z. now rewrite Sort_Permutation. }
  split.
  - apply map_byte_of_Z_sorted.
    + apply Forall_forall. intros z Hz.
      apply Hsorted_keys, Hkeys in Hz as (t & _ & <-).
      apply Z_of_byte_range.
    + apply sorted_NoDup_strict; [apply Sort_sorted|].
      rewrite Sort_Permutation. apply NoDup_fst_map_to_list.
  - intros b. rewrite list_elem_of_In, in_map_iff. split.
    + intros (z & <- & Hz). apply list_elem_of_In, Hsorted_keys, Hkeys in Hz
        as (t & Ht & <-).
      apply elem_of_concat in Ht as (s & Hs & Ht).
      exists s, t. rewrite byte_of_Z_of_byte. auto.
    + intros (s & t & Hs & Ht & <-). exists (Z_of_byte (Trigger t)).
      split; [apply byte_of_Z_of_byte|].
      apply list_elem_of_In, Hsorted_keys, Hkeys. exists t.
      split; [|reflexivity]. apply elem_of_concat. eauto.
Qed.

(** ** What [ReadFrom] accepts *)

Lemma byte_of_Z_eq (z : Z) (b : byte) :
  z mod 256 = Z_of_byte b -> byte_of_Z z = b.
Proof.
  intros H. apply Z_of_byte_inj. now rewrite Z_of_byte_of_Z.
Qed.

(** Encoding the value of four big-endian bytes gives the bytes back. *)
Lemma be32_u32_of_be (b0 b1 b2 b3 : byte) :
  be32 (u32_of_be b0 b1 b2 b3) = [b0; b1; b2; b3].
Proof.
  unfold be32. rewrite u32_of_be_arith, !Z.shiftr_div_pow2 by lia.
  pose proof (Z_of_byte_range b0). pose proof (Z_of_byte_range b1).
  pose proof (Z_of_byte_range b2). pose proof (Z_of_byte_range b3).
  set (T := Z_of_byte b0 * 2 ^ 24 + Z_of_byte b1 * 2 ^ 16
            + Z_of_byte b2 * 2 ^ 8 + Z_of_byte b3).
  assert (H24 : T / 2 ^ 24 = Z_of_byte b0).
  { symmetry. apply (Z.div_unique T (2 ^ 24) _
      (Z_of_byte b1 * 2 ^ 16 + Z_of_byte b2 * 2 ^ 8 + Z_of_byte b3)); lia. }
  assert (H16 : T / 2 ^ 16 = Z_of_byte b0 * 256 + Z_of_byte b1).
  { symmetry. apply (Z.div_unique T (2 ^ 16) _
      (Z_of_byte b2 * 2 ^ 8 + Z_of_byte b3)); lia. }
  assert (H8 : T / 2 ^ 8
               = Z_of_byte b0 * 65536 + Z_of_byte b1 * 256 + Z_of_byte b2).
  { symmetry. apply (Z.div_unique T (2 ^ 8) _ (Z_of_byte b3)); lia. }
  rewrite H24, H16, H8.
  f_equal; [|f_equal; [|f_equal; [|f_equal]]]; apply byte_of_Z_eq.
  - apply Z.mod_small. lia.
  - symmetry. apply (Z.mod_unique _ 256 (Z_of_byte b0)); lia.
  - symmetry.
    apply (Z.mod_unique _ 256 (Z_of_byte b0 * 256 + Z_of_byte b1)); lia.
  - symmetry. unfold T.
    apply (Z.mod_unique _ 256
             (Z_of_byte b0 * 65536 + Z_of_byte b1 * 256 + Z_of_byte b2)); lia.
Qed.

Lemma read_bytes_inl (n : nat) (r a r' : list byte) :
  read_bytes n r = inl (a, r') -> r = a ++ r' /\ length a = n.
Proof.
  unfold read_bytes. destruct (Nat.leb_spec n (length r)) as [Hle|].
  - intros H. injection H as <- <-. rewrite take_drop, length_take. split; [reflexivity | lia].
  - destruct (length r =? 0)%nat; discriminate.
Qed.

Lemma ReadFrom_transitions_inv (n : nat) : forall (r : list byte) (acc st : list Z) r',
  ReadFrom_transitions n r acc = inl (st, r') ->
  exists ts : list Z,
    st = acc ++ ts /\ length ts = n /\ Forall is_uint32 ts /\
    r = concat (map be32 ts) ++ r'.
Proof.
  induction n as [|n IH]; intros r acc st r' H; cbn [ReadFrom_transitions] in H.
  - injection H as <- <-. exists []. rewrite app_nil_r. repeat split. constructor.
  - destruct (read_bytes 4 r) as [[l r1]|e] eqn:Hread; [|discriminate].
    apply read_bytes_inl in Hread as [-> Hl].
    destruct l as [|b0 [|b1 [|b2 [|b3 [|]]]]]; try discriminate.
    apply IH in H as (ts & -> & Hlen & Hu & ->).
    exists (u32_of_be b0 b1 b2 b3 :: ts).
    rewrite <- app_assoc. cbn [length map concat].
    rewrite be32_u32_of_be.
    repeat split; [now rewrite Hlen|].
    constructor; [apply u32_of_be_uint32 | assumption].
Qed.

(** The states [ReadFrom] has at the end, with or without an error: the
    states read before, then as many as were declared, each within the
    limits of the format. *)
Lemma ReadFrom_states_any (n : nat) : forall (r : list byte) (done m : list (list Z)) e,
  ReadFrom_states n r done = (m, e) ->
  exists ss : list (list Z),
    m = done ++ ss /\ length ss = n /\ encodable ss.
Proof.
  assert (Hrep : forall k, encodable (replicate k [])).
  { intros k. apply Forall_replicate. split; [simpl; lia | constructor]. }
  induction n as [|n IH]; intros r done m e H.
  - cbn in H. injection H as <- <-. exists []. rewrite app_nil_r.
    repeat split. constructor.
  - cbn [ReadFrom_states] in H.
    destruct (read_bytes 1 r) as [[l r1]|e1] eqn:Hread.
    + apply read_bytes_inl in Hread as [-> Hl].
      destruct l as [|c [|]]; try discriminate.
      destruct (ReadFrom_transitions _ r1 []) as [[st r2]|e2] eqn:Htr.
      * apply ReadFrom_transitions_inv in Htr as (ts & Hst & Hlen & Hu & _).
        cbn in Hst. subst st.
        apply IH in H as (ss & -> & Hss & Henc).
        exists (ts :: ss). rewrite <- app_assoc. cbn [length].
        repeat split; [now rewrite Hss|].
        constructor; [|assumption]. split; [|assumption].
        pose proof (Z_of_byte_range c). lia.
      * injection H as <- <-. exists (replicate (S n) []).
        rewrite length_replicate. auto.
    + injection H as <- <-. exists (replicate (S n) []).
      rewrite length_replicate. auto.
Qed.

Lemma ReadFrom_states_inv (n : nat) : forall (r : list byte) (done m : list (list Z)),
  ReadFrom_states n r done = (m, None) ->
  exists (ss : list (list Z)) (r' : list byte),
    m = done ++ ss /\ length ss = n /\ encodable ss /\
    r = concat (map WriteTo_state ss) ++ r'.
Proof.
  induction n as [|n IH]; intros r done m H.
  - cbn in H. injection H as <-. exists [], r. rewrite app_nil_r.
    repeat split. constructor.
  - cbn [ReadFrom_states] in H.
    destruct (read_bytes 1 r) as [[l r1]|e1] eqn:Hread; [|discriminate].
    apply read_bytes_inl in Hread as [-> Hl].
    destruct l as [|c [|]]; try discriminate.
    destruct (ReadFrom_transitions _ r1 []) as [[st r2]|e2] eqn:Htr;
      [|discriminate].
    apply ReadFrom_transitions_inv in Htr as (ts & Hst & Hlen & Hu & ->).
    cbn in Hst. subst st.
    apply IH in H as (ss & r' & -> & Hss & Henc & ->).
    exists (ts :: ss), r'. rewrite <- app_assoc. cbn [length].
    pose proof (Z_of_byte_range c) as Hc.
    repeat split; [now rewrite Hss | |].
    + constructor; [|assumption]. split; [lia | assumption].
    + cbn [map concat WriteTo_state app]. rewrite <- app_assoc.
      f_equal. rewrite Hlen, Z2Nat.id by lia. symmetry. apply byte_of_Z_of_byte.
Qed.

Lemma WriteTo_drop (m : list (list Z)) :
  drop 6 (WriteTo m)
  = be32 (Z.of_nat (length m)) ++ concat (map WriteTo_state m).
Proof. reflexivity. Qed.

Lemma ReadFrom_inv (bs : list byte) (m : list (list Z)) :
  ReadFrom bs = Ok (m, None) ->
  exists version rest : list byte,
    length version = 6%nat /\
    bs = version ++ drop 6 (WriteTo m) ++ rest /\
    Z.of_nat (length m) < 2 ^ 31 /\ encodable m.
Proof.
  unfold ReadFrom. change (length serializationPrefix) with 6%nat.
  destruct (read_bytes 6 bs) as [[version r1]|e] eqn:Hv; [|discriminate].
  apply read_bytes_inl in Hv as [-> Hlv].
  destruct (read_bytes 4 r1) as [[l r2]|e] eqn:Hc.
  - apply read_bytes_inl in Hc as [-> Hl].
    destruct l as [|b0 [|b1 [|b2 [|b3 [|]]]]]; try discriminate.
    destruct (Z.ltb_spec (int32_of_be b0 b1 b2 b3) 0) as [|Hpos]; [discriminate|].
    intros H. injection H as H.
    apply ReadFrom_states_inv in H as (ss & rest & Hm & Hlen & Henc & ->).
    cbn in Hm. subst ss.
    exists version, rest. split; [assumption|].
    unfold int32_of_be in *.
    pose proof (u32_of_be_uint32 b0 b1 b2 b3) as Hu. unfold is_uint32 in Hu.
    destruct (Z.ltb_spec (u32_of_be b0 b1 b2 b3) (2 ^ 31)) as [Hlt|Hge]; [|lia].
    assert (Hcount : Z.of_nat (length m) = u32_of_be b0 b1 b2 b3) by lia.
    split; [|split; [lia | assumption]].
    rewrite WriteTo_drop, Hcount, be32_u32_of_be. now rewrite <- !app_assoc.
  - discriminate.
Qed.

Lemma ReadFrom_encoded_rest (version rest : list byte) (m : list (list Z)) :
  length version = 6%nat ->
  Z.of_nat (length m) < 2 ^ 31 ->
  encodable m ->
  ReadFrom (version ++ drop 6 (WriteTo m) ++ rest) = Ok (m, None).
Proof.
  intros Htag Hlen Hm. unfold ReadFrom. rewrite WriteTo_drop.
  change (length serializationPrefix) with 6%nat. rewrite <- Htag.
  rewrite read_bytes_app, <- !app_assoc.
  change (read_bytes 4 (be32 ?t ++ ?x))
    with (read_bytes (length (be32 t)) (be32 t ++ x)).
  rewrite read_bytes_app. cbn [be32].
  rewrite int32_of_length by assumption.
  destruct (Z.ltb_spec (Z.of_nat (length m)) 0); [lia|].
  rewrite Nat2Z.id, ReadFrom_states_encoded by assumption.
  reflexivity.
Qed.

(** The streams that [ReadFrom] reads without error into a recogniser
    [m]: any six bytes in place of the version string, then exactly what
    [WriteTo] writes for [m] after its version string, then anything,
    which is left unread; and [m] is within the limits of the format. *)
Theorem ReadFrom_accepts_iff (bs : list byte) (m : list (list Z)) :
  ReadFrom bs = Ok (m, None) <->
  exists version rest : list byte,
    length version = 6%nat /\
    bs = version ++ drop 6 (WriteTo m) ++ rest /\
    Z.of_nat (length m) < 2 ^ 31 /\
    Forall (fun s : list Z => (length s <= 255)%nat /\ Forall is_uint32 s) m.
Proof.
  split.
  - apply ReadFrom_inv.
  - intros (version & rest & Hv & -> & Hlen & Henc).
    now apply ReadFrom_encoded_rest.
Qed.

Lemma ReadFrom_any (bs : list byte) (m : list (list Z)) e :
  ReadFrom bs = Ok (m, e) ->
  encodable m /\ Z.of_nat (length m) < 2 ^ 31.
Proof.
  unfold ReadFrom. change (length serializationPrefix) with 6%nat.
  assert (Hnil : encodable [] /\ Z.of_nat (length (A := list Z) []) < 2 ^ 31)
    by (split; [constructor | simpl; lia]).
  destruct (read_bytes 6 bs) as [[version r1]|e1] eqn:Hv.
  - destruct (read_bytes 4 r1) as [[l r2]|e2] eqn:Hc.
    + destruct l as [|b0 [|b1 [|b2 [|b3 [|]]]]];
        try (intros H; injection H as <- <-; exact Hnil).
      destruct (Z.ltb_spec (int32_of_be b0 b1 b2 b3) 0) as [|Hpos]; [discriminate|].
      intros H. injection H as H.
      apply ReadFrom_states_any in H as (ss & Hm & Hlen & Henc).
      cbn in Hm. subst ss. split; [assumption|].
      unfold int32_of_be in *.
      pose proof (u32_of_be_uint32 b0 b1 b2 b3) as Hu. unfold is_uint32 in Hu.
      destruct (Z.ltb_spec (u32_of_be b0 b1 b2 b3) (2 ^ 31)); lia.
    + intros H; injection H as <- <-; exact Hnil.
  - intros H; injection H as <- <-; exact Hnil.
Qed.

(** What [ReadFrom] returns is always within the limits of the format,
    with or without an error: every state has at most 255 transitions,
    each a 32-bit value, and there are fewer than 2^31 states. So a
    recogniser with a state of more than 255 transitions never comes back
    from its own serialization: the count of such a state is written as a
    single byte, its low 8 bits. *)
Theorem ReadFrom_result_limits :
  (forall (bs : list byte) (m : list (list Z)) e,
     ReadFrom bs = Ok (m, e) ->
     Forall (fun s : list Z => (length s <= 255)%nat /\ Forall is_uint32 s) m /\
     Z.of_nat (length m) < 2 ^ 31) /\
  (forall m : list (list Z),
     Exists (fun s : list Z => (255 < length s)%nat) m ->
     forall m' e, ReadFrom (WriteTo m) = Ok (m', e) -> m' <> m).
Proof.
  split.
  - intros bs m e. apply ReadFrom_any.
  - intros m Hlong m' e Hread ->.
    apply ReadFrom_any in Hread as [Henc _].
    apply Exists_exists in Hlong as (s & Hs & Hlen).
    unfold encodable in Henc. rewrite Forall_forall in Henc.
    destruct (Henc s Hs) as [H255 _]. lia.
Qed.

(** The number of bytes [WriteTo] writes: 6 for the version string, 4
    for the count, one for each state and 4 for each transition. *)
Theorem WriteTo_length (m : list (list Z)) :
  length (WriteTo m) = (10 + length m + 4 * TotalTransitions m)%nat.
Proof.
  unfold WriteTo. rewrite !length_app, be32_length.
  change (length serializationPrefix) with 6%nat.
  rewrite TotalTransitions_concat.
  enough (length (concat (map WriteTo_state m))
          = (length m + 4 * length (concat m))%nat) by lia.
  induction m as [|s m IH]; [reflexivity|].
  cbn [map concat]. rewrite !length_app, IH. unfold WriteTo_state.
  cbn [length]. rewrite concat_be32_length. lia.
Qed.

(** With a count that is not negative [ReadFrom] never panics and
    returns as many states as the count declares, also when it returns an
    error because the stream ends early. *)
Theorem ReadFrom_declared_count
    (version : list byte) (b0 b1 b2 b3 : byte) (rest : list byte) :
  length version = 6%nat ->
  0 <= int32_of_be b0 b1 b2 b3 ->
  exists (m : list (list Z)) e,
    ReadFrom (version ++ [b0; b1; b2; b3] ++ rest) = Ok (m, e) /\
    Z.of_nat (length m) = int32_of_be b0 b1 b2 b3.
Proof.
  intros Hv Hpos. unfold ReadFrom.
  change (length serializationPrefix) with 6%nat.
  rewrite <- Hv, read_bytes_app.
  change (read_bytes 4 ([b0; b1; b2; b3] ++ rest))
    with (read_bytes (length [b0; b1; b2; b3]) ([b0; b1; b2; b3] ++ rest)).
  rewrite read_bytes_app.
  destruct (Z.ltb_spec (int32_of_be b0 b1 b2 b3) 0); [lia|].
  destruct (ReadFrom_states (Z.to_nat (int32_of_be b0 b1 b2 b3)) rest [])
    as [m e] eqn:Hread.
  exists m, e. split; [reflexivity|].
  apply ReadFrom_states_any in Hread as (ss & -> & Hlen & _).
  cbn [app]. rewrite Hlen. lia.
Qed.

Lemma ReadFrom_declared_count_witness :
  exists (m : list (list Z)) e,
    ReadFrom (bytes_of "MMeMv1" ++ ["000"; "000"; "000"; "003"]%byte
              ++ ["000"]%byte)
    = Ok (m, e) /\
    Z.of_nat (length m) = int32_of_be "000" "000" "000" "003".
Proof.
  apply (ReadFrom_declared_count (bytes_of "MMeMv1") "000" "000" "000" "003"
           ["000"%byte]).
  - reflexivity.
  - vm_compute. discriminate.
Defined.

(** ** Building, writing, reading and enumerating *)

(** The whole pipeline: the recogniser built from ascending values,
    within the capacity of the state ids and with no state of 256
    transitions, is read back from its serialization unchanged and
    without error, and the recogniser read back enumerates the values. *)
Theorem build_write_read_enumerate (V : list (list byte)) :
  ascending [] V ->
  Z.of_nat (total_length V) <= 2 ^ 23 ->
  exists r, FromChannel V = Ok r /\
    ((MaxStateTransitions r <= 255)%nat ->
     exists r', ReadFrom (WriteTo r) = Ok (r', None) /\ r' = r /\
       exists k, forall fuel, (k <= fuel)%nat ->
         AllSequences r' fuel = Some (Ok V)).
Proof.
  intros Hasc Hcap.
  destruct (FromChannel_built_canon V Hasc Hcap)
    as (r0 & root & Hrun & Hwf & Hvalid & _ & _ & _ & Hsize & _ & Hlang).
  exists (r0 ++ [root]). split; [assumption|]. intros Hmax.
  exists (r0 ++ [root]). split; [|split; [reflexivity|]].
  - apply (ReadFrom_encoded serializationPrefix); [reflexivity | |].
    + rewrite length_app. simpl length. lia.
    + destruct (MaxStateTransitions_from (r0 ++ [root]) 0) as (_ & Hall & _).
      fold (MaxStateTransitions (r0 ++ [root])) in Hall.
      unfold encodable. rewrite Forall_forall in *. intros s Hs. split.
      * specialize (Hall s Hs). simpl in Hall. lia.
      * apply (valid_state_uint32 (length r0)). now apply Hvalid.
  - destruct (ConstrainedSequences_enum _ BaseConstraints Hwf root
                (Start_snoc _ _)) as [k Hk].
    exists k. intros fuel Hf. unfold AllSequences. rewrite (Hk fuel Hf).
    do 2 f_equal.
    rewrite length_app. simpl length.
    replace (length r0 + 1)%nat with (S (length r0)) by lia.
    cbn [enum].
    assert (Hroot : valid_state (length r0) root).
    { rewrite Forall_forall in Hvalid. apply Hvalid.
      apply elem_of_app. right. now apply list_elem_of_singleton. }
    rewrite (enum_base_lang _ (length r0) Hwf root _ []);
      [ | now apply valid_state_dest | lia | rewrite length_app; lia].
    rewrite Hlang. apply List.map_id.
Qed.

Lemma build_write_read_enumerate_witness :
  exists r, FromChannel [bytes_of "A"; bytes_of "AB"; bytes_of "B"] = Ok r /\
    ((MaxStateTransitions r <= 255)%nat ->
     exists r', ReadFrom (WriteTo r) = Ok (r', None) /\ r' = r /\
       exists k, forall fuel, (k <= fuel)%nat ->
         AllSequences r' fuel
         = Some (Ok [bytes_of "A"; bytes_of "AB"; bytes_of "B"])).
Proof.
  apply (build_write_read_enumerate [bytes_of "A"; bytes_of "AB"; bytes_of "B"]).
  - simpl. auto.
  - vm_compute. discriminate.
Defined.

(** ** The ways [FromChannel] can end *)

Lemma FromChannel_violation
    (pre : list (list byte)) (item : list byte) (post : list (list byte)) :
  ascending [] pre ->
  bytes_Compare (default [] (last pre)) item <> Lt ->
  FromChannel (pre ++ item :: post)
  = Panic (OutOfOrder (default [] (last pre)) item).
Proof.
  intros Hasc Hcmp. unfold FromChannel.
  rewrite FromChannel_loop_app.
  destruct (FromChannel_loop_shape FromChannel_init pre
              FromChannel_init_shape Hasc) as (b & Hrun & Hsh & Hpv).
  rewrite Hrun. cbn [mbind result_bind FromChannel_loop].
  unfold FromChannel_step. rewrite Hpv.
  change (prevValue FromChannel_init) with (@nil byte).
  destruct (bytes_Compare (default [] (last pre)) item);
    [reflexivity | congruence | reflexivity].
Qed.

(** [FromChannel] never reads or writes a slice out of range, whatever
    the input: it returns a recogniser with at least one state, or panics
    because a value is not above the one before it, or, only when the
    values have more than 2^23 bytes together, panics because the start
    state did not come last. *)
Theorem FromChannel_failure_modes (V : list (list byte)) :
  (exists r, FromChannel V = Ok r /\ r <> []) \/
  (exists prev v,
     FromChannel V = Panic (OutOfOrder prev v) /\
     bytes_Compare prev v <> Lt) \/
  (exists a b,
     FromChannel V = Panic (UnexpectedStartID a b) /\
     2 ^ 23 < Z.of_nat (total_length V)).
Proof.
  destruct (ascending_dec [] V) as [Hasc|Hn].
  - destruct (FromChannel V) as [r|p] eqn:Hrun.
    + left. exists r. split; [reflexivity|].
      now apply (FromChannel_not_empty V).
    + right. right.
      destruct (Z.le_gt_cases (Z.of_nat (total_length V)) (2 ^ 23))
        as [Hcap|Hbig].
      { destruct (FromChannel_built V Hasc Hcap)
          as (b1 & root & b2 & _ & _ & _ & _ & _ & Hok & _).
        rewrite Hok in Hrun. discriminate. }
      revert Hrun. unfold FromChannel, FromChannel_finish.
      destruct (FromChannel_loop_shape FromChannel_init V
                  FromChannel_init_shape Hasc) as (b & -> & Hsh & _).
      cbn [mbind result_bind]. unfold makeSuffixStates.
      destruct (makeSuffixStates_loop_shape 0 (length (prevValue b)) b Hsh
                  (Nat.le_refl _)) as (b1 & -> & [Hl1 _] & _).
      cbn [mbind result_bind].
      destruct (lookup_lt_is_Some_2 (larvae b1) 0) as [root Hroot]; [lia|].
      rewrite (index_lookup _ _ _ Hroot). cbn [mbind result_bind].
      destruct (makeState b1 root) as [startId b2].
      destruct (Z.of_nat startId =? Z.of_nat (length (self b2)) - 1);
        [discriminate|].
      intros H. injection H as <-. eexists _, _. split; [reflexivity | lia].
  - right. left.
    destruct (not_ascending_split [] V Hn)
      as (pre & item & post & -> & Hasc & Hcmp).
    exists (default [] (last pre)), item.
    split; [now apply FromChannel_violation | assumption].
Qed.

(** ** The helpers of the command-line program *)

Lemma BitsNeeded_loop_spec (fuel : nat) : forall val needed : Z,
  val < 2 ^ Z.of_nat fuel ->
  BitsNeeded_loop fuel val needed
  = Some (needed + (if 0 <? val then Z.log2 val + 1 else 0)).
Proof.
  induction fuel as [|fuel IH]; intros val needed Hval.
  - cbn [BitsNeeded_loop]. destruct (Z.ltb_spec 0 val); [simpl in Hval; lia|].
    f_equal. lia.
  - cbn [BitsNeeded_loop]. destruct (Z.ltb_spec 0 val) as [Hpos|]; [|f_equal; lia].
    rewrite Nat2Z.inj_succ, Z.pow_succ_r in Hval by lia.
    assert (Hshift : Z.shiftr val 1 = val / 2)
      by (rewrite Z.shiftr_div_pow2 by lia; reflexivity).
    rewrite IH.
    + f_equal.
      destruct (Z.ltb_spec 0 (Z.shiftr val 1)) as [Hhalf|Hhalf].
      * rewrite Z.log2_shiftr by lia.
        assert (2 <= val).
        { rewrite Hshift in Hhalf.
          destruct (Z.lt_ge_cases val 2) as [Hlt|]; [|assumption].
          rewrite Z.div_small in Hhalf by lia. lia. }
        assert (1 <= Z.log2 val) by (apply Z.log2_le_pow2; lia). lia.
      * assert (val = 1) as ->.
        { rewrite Hshift in Hhalf.
          destruct (Z.lt_ge_cases val 2) as [|Hge]; [lia|].
          pose proof (Z.div_le_lower_bound val 2 1 ltac:(lia) ltac:(lia)). lia. }
        change (Z.log2 1) with 0. lia.
    + rewrite Hshift. apply Z.div_lt_upper_bound; lia.
Qed.

(** [BitsNeeded] counts the bits of a positive value, and gives 0 for a
    value that is not positive: for [val > 0] the result [n] is the only
    one with [2^(n-1) <= val < 2^n]; as many iterations as the value has
    bits are enough. *)
Theorem BitsNeeded_spec (fuel : nat) (val : Z) :
  val < 2 ^ Z.of_nat fuel ->
  exists n, BitsNeeded fuel val = Some n /\
    (val <= 0 -> n = 0) /\
    (0 < val -> 2 ^ (n - 1) <= val < 2 ^ n).
Proof.
  intros Hval. unfold BitsNeeded. rewrite BitsNeeded_loop_spec by assumption.
  eexists. split; [reflexivity|].
  destruct (Z.ltb_spec 0 val) as [Hpos|Hneg].
  - split; [lia|]. intros _.
    replace (0 + (Z.log2 val + 1) - 1) with (Z.log2 val) by lia.
    replace (0 + (Z.log2 val + 1)) with (Z.succ (Z.log2 val)) by lia.
    now apply Z.log2_spec.
  - split; [reflexivity | lia].
Qed.

Lemma BitsNeeded_spec_witness :
  exists n, BitsNeeded 64 12 = Some n /\
    (12 <= 0 -> n = 0) /\
    (0 < 12 -> 2 ^ (n - 1) <= 12 < 2 ^ n).
Proof.
  apply (BitsNeeded_spec 64 12). vm_compute. reflexivity.
Defined.






(** ** Recognisers that were not built here *)

Lemma Recognizes_loop_in_range (r : list (list Z)) :
  Forall (Forall (fun t => (Z.to_nat (ToState t) < length r)%nat)) r ->
  forall (x : list byte) (s : list Z) (tran : Z),
    s ∈ r -> exists t', Recognizes_loop r x tran s = Ok t'.
Proof.
  intros Hr x. induction x as [|c rest IH]; intros s tran Hs.
  - exists tran. reflexivity.
  - cbn [Recognizes_loop].
    destruct (IndexForTrigger_found s c) as [_ Hfound].
    destruct (Nat.ltb_spec (IndexForTrigger s c) (length s)) as [Hlt|Hge];
      [|eauto].
    destruct (Hfound Hlt) as (t & Ht & _).
    rewrite (nth_lookup_Z _ _ _ Ht).
    assert (Hd : (Z.to_nat (ToState t) < length r)%nat).
    { rewrite Forall_forall in Hr. specialize (Hr _ Hs).
      rewrite Forall_forall in Hr. apply Hr.
      eapply list_elem_of_lookup_2; eassumption. }
    destruct (lookup_lt_is_Some_2 r _ Hd) as [next Hnext].
    rewrite (index_lookup _ _ _ Hnext). cbn [mbind result_bind].
    apply IH. eapply list_elem_of_lookup_2; eassumption.
Qed.

(** [Recognizes] never panics on a recogniser in which every transition
    leads to a state that exists, for instance one read by [ReadFrom]
    from a stream whose destinations are below the state count; on the
    recogniser without states it says false. *)
Theorem Recognizes_in_range (r : list (list Z)) :
  Forall (Forall (fun t => (Z.to_nat (ToState t) < length r)%nat)) r ->
  (forall x, exists b, Recognizes r x = Ok b) /\
  (r = [] -> forall x, Recognizes r x = Ok false).
Proof.
  intros Hr. split.
  - intros x. unfold Recognizes.
    destruct r as [|s0 r0] eqn:Hreq; [eauto|]. rewrite <- Hreq in *.
    replace (length r =? 0)%nat with false
      by (symmetry; apply Nat.eqb_neq; rewrite Hreq; discriminate).
    assert (Hstart : exists start, Start r = Ok start /\ start ∈ r).
    { unfold Start. rewrite Hreq. cbn [length]. rewrite <- Hreq.
      destruct (lookup_lt_is_Some_2 r (length r0)) as [start Hst];
        [rewrite Hreq; simpl; lia|].
      exists start. split; [now apply index_lookup|].
      eapply list_elem_of_lookup_2; eassumption. }
    destruct Hstart as (start & -> & Hin). cbn [mbind result_bind].
    destruct (Recognizes_loop_in_range r Hr x start 0 Hin) as [t' ->].
    cbn [mbind result_bind]. eauto.
  - intros -> x. reflexivity.
Qed.

Lemma Recognizes_in_range_witness :
  (forall x, exists b,
     Recognizes [[]; [NewTransition "A" 0 true]] x = Ok b) /\
  ([[]; [NewTransition "A" 0 true]] = [] ->
   forall x, Recognizes [[]; [NewTransition "A" 0 true]] x = Ok false).
Proof.
  apply (Recognizes_in_range [[]; [NewTransition "A" 0 true]]).
  repeat constructor; vm_compute; reflexivity.
Defined.

(** Enumeration ends on every recogniser without cycles: when every
    transition leads to a state with a lower index than its own, as in
    what [FromChannel] builds, [ConstrainedSequences] never panics and
    closes the channel after it has sent, in the order of the transitions,
    the sequences accepted from the start state that the constraints let
    through. On the recogniser without states it panics, since there is
    no start state. *)
Theorem ConstrainedSequences_acyclic (r : list (list Z)) (con : Constraints) :
  (forall (i : nat) s t, r !! i = Some s -> t ∈ s ->
     (Z.to_nat (ToState t) < i)%nat) ->
  (r <> [] ->
   exists start, Start r = Ok start /\
     exists k, forall fuel, (k <= fuel)%nat ->
       ConstrainedSequences r con fuel
       = Some (Ok (List.filter (emitted con) (state_lang (table r) start)))) /\
  (r = [] ->
   forall fuel, ConstrainedSequences r con fuel = Some (Panic IndexOutOfRange)).
Proof.
  intros Hdest.
  assert (Hwf : wf_rec r).
  { intros i s Hi. apply Forall_forall. intros t Ht. now apply (Hdest i s). }
  split.
  - intros Hne.
    destruct r as [|s0 r0] using rev_ind; [congruence|]. clear IHr0 Hne.
    exists s0. split; [apply Start_snoc|].
    destruct (ConstrainedSequences_enum _ con Hwf s0 (Start_snoc _ _)) as [k Hk].
    exists k. intros fuel Hf. rewrite (Hk fuel Hf). do 2 f_equal.
    rewrite length_app. simpl length.
    replace (length r0 + 1)%nat with (S (length r0)) by lia.
    cbn [enum].
    destruct (wf_rec_snoc _ _ Hwf) as [_ Hs0].
    rewrite (enum_lang _ con (length r0) Hwf s0 _ []);
      [ | assumption | lia | rewrite length_app; lia].
    rewrite List.map_id.
    apply List.filter_ext. intros w. apply sent_below_emitted.
  - intros -> fuel. reflexivity.
Qed.

Lemma ConstrainedSequences_acyclic_witness :
  ([[]; [NewTransition "A" 0 true]] <> [] ->
   exists start, Start [[]; [NewTransition "A" 0 true]] = Ok start /\
     exists k, forall fuel, (k <= fuel)%nat ->
       ConstrainedSequences [[]; [NewTransition "A" 0 true]] BaseConstraints fuel
       = Some (Ok (List.filter (emitted BaseConstraints)
                     (state_lang (table [[]; [NewTransition "A" 0 true]]) start)))) /\
  ([[]; [NewTransition "A" 0 true]] = [] ->
   forall fuel,
     ConstrainedSequences [[]; [NewTransition "A" 0 true]] BaseConstraints fuel
     = Some (Panic IndexOutOfRange)).
Proof.
  apply (ConstrainedSequences_acyclic [[]; [NewTransition "A" 0 true]]
           BaseConstraints).
  intros [|[|i]] s t Hi Ht; cbn in Hi; try discriminate.
  - injection Hi as <-. now apply elem_of_nil in Ht.
  - injection Hi as <-. apply list_elem_of_singleton in Ht as ->.
    vm_compute. lia.
Defined.

(** ** The length window *)

Lemma forallb_seq_le (max : Z) (k : nat) : forall a : nat,
  forallb (fun n => Z.of_nat n <=? max) (seq a k)
  = ((k =? 0)%nat || (Z.of_nat (a + k) - 1 <=? max))%bool.
Proof.
  induction k as [|k IH]; intros a; [reflexivity|].
  cbn [seq forallb]. rewrite IH. cbn [Nat.eqb orb].
  destruct k as [|k]; cbn [Nat.eqb orb].
  - rewrite Bool.andb_true_r. f_equal. lia.
  - destruct (Z.leb_spec (Z.of_nat a) max), (Z.leb_spec (Z.of_nat (S a + S k) - 1) max),
      (Z.leb_spec (Z.of_nat (a + S (S k)) - 1) max); cbn [andb]; try reflexivity; lia.
Qed.

Lemma emitted_SizeConstraint (min max : Z) (w : list byte) :
  1 <= max -> w <> [] ->
  emitted (SizeConstraint min max) w
  = ((min <=? Z.of_nat (length w)) && (Z.of_nat (length w) <=? max))%bool.
Proof.
  intros Hmax Hw. unfold emitted.
  cbn [SizeConstraint IsValueAllowed IsSmallEnough IsLargeEnough IsSequenceAllowed].
  rewrite Bool.andb_true_r.
  assert (Hall : forallb (fun _ : nat => true) (seq 0 (length w)) = true).
  { generalize (seq 0 (length w)). intros l. now induction l. }
  rewrite Hall. cbn [andb].
  rewrite (forallb_seq_le max (length w - 1) 2).
  destruct w as [|c w]; [congruence|]. cbn [length].
  rewrite Bool.andb_comm. f_equal.
  replace (S (length w) - 1)%nat with (length w) by lia.
  destruct (length w) as [|n]; cbn [Nat.eqb orb].
  - symmetry. apply Z.leb_le. lia.
  - f_equal. lia.
Qed.

Lemma ascending_not_nil (prev : list byte) (V : list (list byte)) :
  ascending prev V -> Forall (fun v => v <> []) V.
Proof.
  revert prev. induction V as [|v V IH]; intros prev H; [constructor|].
  destruct H as [Hlt Hasc]. constructor; [|now apply (IH v)].
  intros ->. now destruct prev.
Qed.

(** The length window of the tests works as the interface documents it
    when the upper bound is at least 1: for ascending values within the
    capacity of the state ids, [ConstrainedSequences] with lengths from
    [min] to [max] sends exactly the values whose length is in the
    window, in the order of the input. *)
Theorem SizeConstraint_window (V : list (list byte)) (min max : Z) :
  ascending [] V ->
  Z.of_nat (total_length V) <= 2 ^ 23 ->
  1 <= max ->
  exists r, FromChannel V = Ok r /\
    exists k, forall fuel, (k <= fuel)%nat ->
      ConstrainedSequences r (SizeConstraint min max) fuel
      = Some (Ok (List.filter
                    (fun v => (min <=? Z.of_nat (length v))
                              && (Z.of_nat (length v) <=? max))%bool V)).
Proof.
  intros Hasc Hcap Hmax.
  destruct (FromChannel_built V Hasc Hcap)
    as (b1 & root & b2 & HI1 & Hst2 & Hroot & Hms & Hself2 & Hfin & Hwf & Hvalid & Hlang).
  exists (self b1 ++ [root]). split; [assumption|].
  destruct (ConstrainedSequences_enum _ (SizeConstraint min max) Hwf root
              (Start_snoc _ _)) as [k Hk].
  exists k. intros fuel Hf. rewrite (Hk fuel Hf). do 2 f_equal.
  rewrite length_app. simpl length.
  replace (length (self b1) + 1)%nat with (S (length (self b1))) by lia.
  cbn [enum].
  rewrite (enum_lang _ _ (length (self b1)) Hwf root _ []);
    [ | now apply valid_state_dest | lia | rewrite length_app; lia].
  rewrite Hlang, List.map_id.
  apply List.filter_ext_in. intros w Hw.
  rewrite sent_below_emitted. apply emitted_SizeConstraint; [assumption|].
  pose proof (ascending_not_nil [] V Hasc) as Hne.
  rewrite Forall_forall in Hne. apply Hne. now apply list_elem_of_In.
Qed.

Lemma SizeConstraint_window_witness :
  exists r,
    FromChannel [bytes_of "A"; bytes_of "AB"; bytes_of "ABC"; bytes_of "B"]
    = Ok r /\
    exists k, forall fuel, (k <= fuel)%nat ->
      ConstrainedSequences r (SizeConstraint 2 3) fuel
      = Some (Ok (List.filter
                    (fun v => (2 <=? Z.of_nat (length v))
                              && (Z.of_nat (length v) <=? 3))%bool
                    [bytes_of "A"; bytes_of "AB"; bytes_of "ABC"; bytes_of "B"])).
Proof.
  apply (SizeConstraint_window
           [bytes_of "A"; bytes_of "AB"; bytes_of "ABC"; bytes_of "B"] 2 3).
  - simpl. auto.
  - vm_compute. discriminate.
  - lia.
Defined.
